(** * The LaTeX-to-HTML converter of [src/components/LaTeXDocument.tsx]

    A shallow embedding of [convertLaTeXToHTML].  The function is a
    pipeline of [String.prototype.replace] calls over regular
    expressions, so the development has three layers:

    - JavaScript strings as lists of UTF-16 code units, with [trim],
      [split], [includes] and the replacement-template language;
    - a backtracking matcher for the fragment of ECMAScript regular
      expressions that the source uses (priority-ordered alternation,
      greedy and lazy repetition, capture groups, lookahead, the
      one-character negative lookbehind, the [^] anchor);
    - the converter itself, pass by pass, in source order. *)

From Stdlib Require Import String Ascii DecimalString DecimalN.
From Stdlib Require Import NArith Bool Arith Lia List.
Import ListNotations.

Set Implicit Arguments.

(** ** Strings *)

(** A JavaScript string is a sequence of 16-bit code units. *)
Definition char := N.
Definition jsstring := list char.

Definition chr (a : ascii) : char := N_of_ascii a.
Definition str (s : string) : jsstring := map chr (list_ascii_of_string s).
Arguments chr a%_char.
Arguments str s%_string.

Definition dq : char := 34%N.        (* the double quote *)
Definition nl : char := 10%N.        (* line feed *)
Definition bsl : char := chr "\".
Definition dollar : char := chr "$".

Definition ceq (a b : char) : bool := N.eqb a b.
Arguments ceq (a b)%_N.

Fixpoint streq (a b : jsstring) : bool :=
  match a, b with
  | [], [] => true
  | x :: a', y :: b' => ceq x y && streq a' b'
  | _, _ => false
  end.

(** ** Character classes *)

Definition in_range (lo hi c : char) : bool := (lo <=? c)%N && (c <=? hi)%N.
Arguments in_range (lo hi c)%_N.

(** [[a-zA-Z]] *)
Definition is_letter (c : char) : bool :=
  in_range (chr "a") (chr "z") c || in_range (chr "A") (chr "Z") c.

(** [[0-9]], as used by the replacement-template language. *)
Definition is_digit (c : char) : bool := in_range (chr "0") (chr "9") c.

(** ECMAScript LineTerminator: LF, CR, LS, PS. *)
Definition is_line_terminator (c : char) : bool :=
  ceq c 10 || ceq c 13 || ceq c 8232 || ceq c 8233.

(** ECMAScript WhiteSpace and LineTerminator: what [\s] matches and what
    [trim] strips. *)
Definition is_space (c : char) : bool :=
  in_range 9 13 c || ceq c 32 || ceq c 160 || ceq c 5760
  || in_range 8192 8202 c || ceq c 8232 || ceq c 8233 || ceq c 8239
  || ceq c 8287 || ceq c 12288 || ceq c 65279.

(** [.] without the [s] flag. *)
Definition is_dot (c : char) : bool := negb (is_line_terminator c).

(** [[\s\S]] *)
Definition is_any (_ : char) : bool := true.

(** [[^x]] *)
Definition is_not (x c : char) : bool := negb (ceq c x).

(** ** Regular expressions *)

Inductive regex : Type :=
| REmpty
| RChar (c : char)
| RClass (p : char -> bool)
| RSeq (r1 r2 : regex)
| RAlt (r1 r2 : regex)
| RStar (greedy : bool) (r : regex)
| ROpt (r : regex)
| RGroup (i : nat) (r : regex)
| RAhead (positive : bool) (r : regex)
| RNotBehind (c : char)
| RBol.

(** The matcher state: the text before the current position (nearest
    character first), the text after it, and the captures so far. *)
Record mstate : Type := MState {
  before : list char;
  after : jsstring;
  caps : list (nat * jsstring)
}.

Definition kont := mstate -> option mstate.

(** Repetition.  [n] bounds the number of iterations by the length of
    the remaining text: an iteration that consumes nothing is rejected,
    as in RepeatMatcher. *)
Fixpoint star_loop (body : mstate -> kont -> option mstate) (greedy : bool)
    (k : kont) (n : nat) (st : mstate) : option mstate :=
  match n with
  | O => k st
  | S n' =>
      if greedy then
        match body st (fun st' =>
                 if length (after st') <? length (after st)
                 then star_loop body greedy k n' st' else None) with
        | Some r => Some r
        | None => k st
        end
      else
        match k st with
        | Some r => Some r
        | None =>
            body st (fun st' =>
              if length (after st') <? length (after st)
              then star_loop body greedy k n' st' else None)
        end
  end.

Definition consumed (st st' : mstate) : jsstring :=
  firstn (length (after st) - length (after st')) (after st).

(** No pattern of the source has a capture group inside a repetition or
    inside a lookahead, so captures are only ever added, never reset. *)
Fixpoint rmatch (r : regex) (st : mstate) (k : kont) {struct r} : option mstate :=
  match r with
  | REmpty => k st
  | RChar c =>
      match after st with
      | x :: t => if ceq x c then k (MState (x :: before st) t (caps st)) else None
      | [] => None
      end
  | RClass p =>
      match after st with
      | x :: t => if p x then k (MState (x :: before st) t (caps st)) else None
      | [] => None
      end
  | RSeq r1 r2 => rmatch r1 st (fun st' => rmatch r2 st' k)
  | RAlt r1 r2 =>
      match rmatch r1 st k with
      | Some r => Some r
      | None => rmatch r2 st k
      end
  | RStar greedy r1 => star_loop (rmatch r1) greedy k (length (after st)) st
  | ROpt r1 =>
      match rmatch r1 st k with
      | Some r => Some r
      | None => k st
      end
  | RGroup i r1 =>
      rmatch r1 st (fun st' =>
        k (MState (before st') (after st') ((i, consumed st st') :: caps st')))
  | RAhead positive r1 =>
      match rmatch r1 st Some with
      | Some _ => if positive then k st else None
      | None => if positive then None else k st
      end
  | RNotBehind c =>
      match before st with
      | x :: _ => if ceq x c then None else k st
      | [] => k st
      end
  | RBol =>
      match before st with
      | [] => k st
      | _ :: _ => None
      end
  end.

(** One attempt at one position. *)
Definition exec (re : regex) (bef : list char) (s : jsstring) : option mstate :=
  rmatch re (MState bef s []) Some.

(** Regex builders. *)
Fixpoint lit (s : jsstring) : regex :=
  match s with
  | [] => REmpty
  | [c] => RChar c
  | c :: t => RSeq (RChar c) (lit t)
  end.
Arguments lit : simpl never.

Fixpoint seq (rs : list regex) : regex :=
  match rs with
  | [] => REmpty
  | [r] => r
  | r :: t => RSeq r (seq t)
  end.

Definition plus (r : regex) : regex := RSeq r (RStar true r).

Fixpoint ngroups (r : regex) : nat :=
  match r with
  | RSeq a b | RAlt a b => ngroups a + ngroups b
  | RStar _ a | ROpt a | RAhead _ a => ngroups a
  | RGroup _ a => S (ngroups a)
  | _ => 0
  end.

(** ** Matches and the replacement-template language *)

Record minfo : Type := MInfo {
  m_text : jsstring;                  (* the matched substring, [$&] *)
  m_caps : list (nat * jsstring);     (* captures *)
  m_pre : jsstring;                   (* the text before the match *)
  m_post : jsstring                   (* the text after the match *)
}.

Fixpoint lookup_cap (i : nat) (cs : list (nat * jsstring)) : option jsstring :=
  match cs with
  | [] => None
  | (j, v) :: t => if Nat.eqb i j then Some v else lookup_cap i t
  end.

(** The value a callback receives for group [i]; a group that took no
    part in the match is [undefined], which no callback of the source
    can observe (every group there is mandatory). *)
Definition cap (i : nat) (m : minfo) : jsstring :=
  match lookup_cap i (m_caps m) with Some v => v | None => [] end.

Definition digit_val (c : char) : nat := N.to_nat (c - chr "0")%N.

(** GetSubstitution: the meaning of [$$], [$&], [$`], [$'], [$n], [$nn]
    in a replacement string; [m] is the number of capture groups. *)
Fixpoint expand (tpl : jsstring) (m : nat) (mi : minfo) : jsstring :=
  match tpl with
  | [] => []
  | c :: t =>
      if negb (ceq c dollar) then c :: expand t m mi
      else
        match t with
        | [] => [c]
        | d :: t' =>
            if ceq d dollar then dollar :: expand t' m mi
            else if ceq d (chr "&") then m_text mi ++ expand t' m mi
            else if ceq d (chr "`") then m_pre mi ++ expand t' m mi
            else if ceq d (chr "'") then m_post mi ++ expand t' m mi
            else if is_digit d then
              let one :=
                let i := digit_val d in
                if (1 <=? i) && (i <=? m)
                then cap i mi ++ expand t' m mi
                else c :: d :: expand t' m mi in
              match t' with
              | e :: t'' =>
                  if is_digit e then
                    let i := 10 * digit_val d + digit_val e in
                    if i <=? m then
                      if 1 <=? i then cap i mi ++ expand t'' m mi
                      else c :: d :: e :: expand t'' m mi
                    else one
                  else one
              | [] => one
              end
            else c :: expand t m mi
        end
  end.

(** ** Scanning a string for all matches *)

Inductive seg : Type :=
| Lit (c : char)
| Hit (m : minfo).

(** The loop of a global [replace] / [match] / [split]: try the regex at
    each position from the left; after a match resume behind it ([skip]
    counts the characters of the current match still to pass); after an
    empty match step one character. *)
Fixpoint segments (re : regex) (bef : list char) (s : jsstring) (skip : nat)
    {struct s} : list seg :=
  match skip with
  | S k =>
      match s with
      | [] => []
      | c :: t => segments re (c :: bef) t k
      end
  | O =>
      match exec re bef s with
      | Some st =>
          let len := length s - length (after st) in
          Hit (MInfo (firstn len s) (caps st) (rev bef) (after st)) ::
          match s with
          | [] => []
          | c :: t =>
              if len =? 0 then Lit c :: segments re (c :: bef) t 0
              else segments re (c :: bef) t (len - 1)
          end
      | None =>
          match s with
          | [] => []
          | c :: t => Lit c :: segments re (c :: bef) t 0
          end
      end
  end.

(** [s.replace(re, f)] with the [g] flag and a callback. *)
Definition replaceWith (re : regex) (f : minfo -> jsstring) (s : jsstring) : jsstring :=
  flat_map (fun sg => match sg with Lit c => [c] | Hit m => f m end)
           (segments re [] s 0).

(** [s.replace(re, tpl)] with the [g] flag and a replacement string. *)
Definition replace (re : regex) (tpl : jsstring) (s : jsstring) : jsstring :=
  replaceWith re (expand tpl (ngroups re)) s.

(** The same with a callback that reads and updates local state, for
    callbacks that close over mutable variables. *)
Fixpoint fold_segs {S : Type} (f : S -> minfo -> jsstring * S)
    (sgs : list seg) (st : S) : jsstring * S :=
  match sgs with
  | [] => ([], st)
  | Lit c :: t => let '(out, st') := fold_segs f t st in (c :: out, st')
  | Hit m :: t =>
      let '(r, st1) := f st m in
      let '(out, st2) := fold_segs f t st1 in
      (r ++ out, st2)
  end.

Definition replaceWithState {S : Type} (re : regex)
    (f : S -> minfo -> jsstring * S) (s : jsstring) (st : S) : jsstring * S :=
  fold_segs f (segments re [] s 0) st.

Fixpoint first_hit (sgs : list seg) : option minfo :=
  match sgs with
  | [] => None
  | Hit m :: _ => Some m
  | Lit _ :: t => first_hit t
  end.

(** [s.match(re)] without the [g] flag: the first match or [null]. *)
Definition match1 (re : regex) (s : jsstring) : option minfo :=
  first_hit (segments re [] s 0).

(** [re.test(s)] *)
Definition test (re : regex) (s : jsstring) : bool :=
  match match1 re s with Some _ => true | None => false end.

Fixpoint hits (sgs : list seg) : list jsstring :=
  match sgs with
  | [] => []
  | Hit m :: t => m_text m :: hits t
  | Lit _ :: t => hits t
  end.

(** [s.match(re)] with the [g] flag: all matched substrings or [null]. *)
Definition matchAll (re : regex) (s : jsstring) : option (list jsstring) :=
  match hits (segments re [] s 0) with
  | [] => None
  | l => Some l
  end.

(** [s.replace(re, tpl)] without the [g] flag: the first match only. *)
Definition replaceFirst (re : regex) (tpl : jsstring) (s : jsstring) : jsstring :=
  match match1 re s with
  | Some m => m_pre m ++ expand tpl (ngroups re) m ++ m_post m
  | None => s
  end.

(** [s.split(re)] for a separator that has no capture group and cannot
    match the empty string (the only use is [/\n\n+/]): the pieces
    between the matches. *)
Fixpoint split_segs (sgs : list seg) (cur : jsstring) : list jsstring :=
  match sgs with
  | [] => [rev cur]
  | Lit c :: t => split_segs t (c :: cur)
  | Hit _ :: t => rev cur :: split_segs t []
  end.

Definition split (re : regex) (s : jsstring) : list jsstring :=
  split_segs (segments re [] s 0) [].

(** [s.split(c)] for a one-character string separator. *)
Fixpoint split_chr (c : char) (s : jsstring) (cur : jsstring) : list jsstring :=
  match s with
  | [] => [rev cur]
  | x :: t => if ceq x c then rev cur :: split_chr c t [] else split_chr c t (x :: cur)
  end.

Fixpoint trim_start (s : jsstring) : jsstring :=
  match s with
  | c :: t => if is_space c then trim_start t else s
  | [] => []
  end.

(** [s.trim()] *)
Definition trim (s : jsstring) : jsstring :=
  rev (trim_start (rev (trim_start s))).

Fixpoint starts_with (p s : jsstring) : bool :=
  match p, s with
  | [], _ => true
  | x :: p', y :: s' => ceq x y && starts_with p' s'
  | _ :: _, [] => false
  end.

(** [s.includes(p)] *)
Fixpoint includes (s p : jsstring) : bool :=
  starts_with p s ||
  match s with
  | [] => false
  | _ :: t => includes t p
  end.

(** ** The patterns of the source *)

(** HTML literals: the source writes its attribute values between double
    quotes; in an [html] literal a single quote stands for that double
    quote (no literal of the source contains a single quote). *)
Definition html (s : string) : jsstring :=
  map (fun c => if ceq c (chr "'") then dq else c) (str s).
Arguments html s%_string.

Definition any_lazy : regex := RStar false (RClass is_any).            (* [\s\S]*? *)
Definition arg_star : regex := RStar true (RClass (is_not (chr "}"))).  (* [^}]* *)
Definition arg_plus : regex := plus (RClass (is_not (chr "}"))).        (* [^}]+ *)
Definition opt_star : regex := ROpt (RChar (chr "*")).                  (* \*? *)
Definition spaces1 : regex := plus (RClass is_space).                   (* \s+ *)
Definition spaces0 : regex := RStar true (RClass is_space).             (* \s* *)

(** Source pattern: "/\\\[([\s\S]*?)\\\]/g" *)
Definition re_bracket : regex :=
  seq [lit (str "\["); RGroup 1 any_lazy; lit (str "\]")].

(** Source pattern: "/\$\$([\s\S]*?)\$\$/g" *)
Definition re_dollars : regex :=
  seq [lit (str "$$"); RGroup 1 any_lazy; lit (str "$$")].

(** Source pattern: "/\\begin\{NAME\*?\}([\s\S]*?)\\end\{NAME\*?\}/g" *)
Definition re_env (name : jsstring) : regex :=
  seq [lit (str "\begin{"); lit name; opt_star; RChar (chr "}");
       RGroup 1 any_lazy;
       lit (str "\end{"); lit name; opt_star; RChar (chr "}")].

(** Source pattern: "/\\begin\{NAME\}([\s\S]*?)\\end\{NAME\}/g" *)
Definition re_env_plain (name : jsstring) : regex :=
  seq [lit (str "\begin{"); lit name; RChar (chr "}");
       RGroup 1 any_lazy;
       lit (str "\end{"); lit name; RChar (chr "}")].

(** Source pattern: "/(?<!\$)\$(?!\$)((?:(?!\$).)*?)\$/g" *)
Definition re_inline : regex :=
  seq [RNotBehind dollar; RChar dollar; RAhead false (RChar dollar);
       RGroup 1 (RStar false (RSeq (RAhead false (RChar dollar)) (RClass is_dot)));
       RChar dollar].

(** Source pattern: "/\\NAME\{[^}]*\}/g" *)
Definition re_cmd0 (name : jsstring) : regex :=
  seq [RChar bsl; lit name; RChar (chr "{"); arg_star; RChar (chr "}")].

(** Source pattern: "/\\NAME\{[^}]*\}\{[^}]*\}/g" *)
Definition re_cmd00 (name : jsstring) : regex :=
  seq [RChar bsl; lit name; RChar (chr "{"); arg_star; RChar (chr "}");
       RChar (chr "{"); arg_star; RChar (chr "}")].

(** Source pattern: "/\\NAME\{(A)\}/g", where A is "[^}]*" *)
Definition re_cmd_cap0 (name : jsstring) : regex :=
  seq [RChar bsl; lit name; RChar (chr "{"); RGroup 1 arg_star; RChar (chr "}")].

(** Source pattern: "/\\NAME\{([^}]+)\}/g" *)
Definition re_cmd_cap (name : jsstring) : regex :=
  seq [RChar bsl; lit name; RChar (chr "{"); RGroup 1 arg_plus; RChar (chr "}")].

(** Source pattern: "/\\NAME\*?\{([^}]+)\}/g" *)
Definition re_cmd_star_cap (name : jsstring) : regex :=
  seq [RChar bsl; lit name; opt_star; RChar (chr "{"); RGroup 1 arg_plus; RChar (chr "}")].

(** Source pattern: "/\\usepackage(?:\[[^\]]*\])?\{[^}]*\}/g" *)
Definition re_usepackage : regex :=
  seq [lit (str "\usepackage");
       ROpt (seq [RChar (chr "["); RStar true (RClass (is_not (chr "]"))); RChar (chr "]")]);
       RChar (chr "{"); arg_star; RChar (chr "}")].

(** Source pattern: "/\\begin\{abstract\}[\s\S]*?\\end\{abstract\}/g" *)
Definition re_abstract : regex :=
  seq [lit (str "\begin{abstract}"); any_lazy; lit (str "\end{abstract}")].

(** Source pattern: "/\\begin\{table\*?\}[\s\S]*?\\end\{table\*?\}/g" *)
Definition re_table : regex :=
  seq [lit (str "\begin{table"); opt_star; RChar (chr "}"); any_lazy;
       lit (str "\end{table"); opt_star; RChar (chr "}")].

(** Source pattern: "/\\begin\{tabular\}[^}]*\}[\s\S]*?\\end\{tabular\}/g" *)
Definition re_tabular : regex :=
  seq [lit (str "\begin{tabular}"); arg_star; RChar (chr "}"); any_lazy;
       lit (str "\end{tabular}")].

(** Source pattern: "/\\texorpdfstring\{(A)\}\{(A)\}/g", where A is "[^}]*" *)
Definition re_texorpdfstring : regex :=
  seq [lit (str "\texorpdfstring{"); RGroup 1 arg_star; RChar (chr "}");
       RChar (chr "{"); RGroup 2 arg_star; RChar (chr "}")].

(** Source pattern: "/\\item\s+([^\n]*?)(?=\\item|\\end)/g" *)
Definition re_item : regex :=
  seq [lit (str "\item"); spaces1; RGroup 1 (RStar false (RClass (is_not nl)));
       RAhead true (RAlt (lit (str "\item")) (lit (str "\end")))].

(** Source pattern: "/\\item\s+/" *)
Definition re_item_head : regex := seq [lit (str "\item"); spaces1].

(** Source pattern:
    "/\\begin\{figure\*?\}[\s\S]*?\\caption\{(A)\}[\s\S]*?\\end\{figure\*?\}/g",
    where A is "[^}]*" *)
Definition re_figure : regex :=
  seq [lit (str "\begin{figure"); opt_star; RChar (chr "}"); any_lazy;
       lit (str "\caption{"); RGroup 1 arg_star; RChar (chr "}"); any_lazy;
       lit (str "\end{figure"); opt_star; RChar (chr "}")].

(** Source pattern: "/\\includegraphics(?:\s*\[[^\]]*\])?\s*\{([^}]+)\}/g" *)
Definition re_includegraphics : regex :=
  seq [lit (str "\includegraphics");
       ROpt (seq [spaces0; RChar (chr "["); RStar true (RClass (is_not (chr "]"))); RChar (chr "]")]);
       spaces0; RChar (chr "{"); RGroup 1 arg_plus; RChar (chr "}")].

(** Source pattern: "/\\[a-zA-Z]+\{[^}]*\}/g" *)
Definition re_command_arg : regex :=
  seq [RChar bsl; plus (RClass is_letter); RChar (chr "{"); arg_star; RChar (chr "}")].

(** Source pattern: "/\\[a-zA-Z]+/g" *)
Definition re_command : regex := RSeq (RChar bsl) (plus (RClass is_letter)).

(** Source pattern: "/\\[^a-zA-Z]/g" *)
Definition re_symbol : regex := RSeq (RChar bsl) (RClass (fun c => negb (is_letter c))).

(** Source pattern: "/\n\n+/" *)
Definition re_blank : regex := RSeq (RChar nl) (plus (RChar nl)).

Fixpoint alt (rs : list regex) : regex :=
  match rs with
  | [] => REmpty
  | [r] => r
  | r :: t => RAlt r (alt t)
  end.

(** Source pattern: "/^<(h[1-6]|ul|ol|div|figure|img|table|blockquote|pre|br)/" *)
Definition re_block : regex :=
  seq [RBol; RChar (chr "<");
       RGroup 1 (alt [RSeq (RChar (chr "h")) (RClass (in_range (chr "1") (chr "6")));
                      lit (str "ul"); lit (str "ol"); lit (str "div");
                      lit (str "figure"); lit (str "img"); lit (str "table");
                      lit (str "blockquote"); lit (str "pre"); lit (str "br")])].

(** [new RegExp(key, 'g')]: a pattern text without syntax characters
    denotes the literal it spells.  Other pattern texts are outside the
    fragment modelled here (some of them make the constructor throw). *)
Definition is_syntax_char (c : char) : bool :=
  existsb (ceq c) (str "^$\.*+?()[]{}|/").

Definition RegExp (pattern : jsstring) : option regex :=
  if existsb is_syntax_char pattern then None else Some (lit pattern).

(** ** The converter *)

(** [`${n}`] for a non-negative integer counter. *)
Definition num (n : N) : jsstring := str (NilEmpty.string_of_uint (N.to_uint n)).

(** [mathBlocks] is a JavaScript object used as a map; [Object.entries]
    lists its string keys in insertion order, and an assignment to an
    existing key keeps the key's place. *)
Definition object := list (jsstring * jsstring).

Fixpoint obj_set (key value : jsstring) (o : object) : object :=
  match o with
  | [] => [(key, value)]
  | (k, v) :: t =>
      if streq k key then (k, value) :: t else (k, v) :: obj_set key value t
  end.

(** The two variables the extraction callbacks close over. *)
Record mathState : Type := MathState {
  mathBlocks : object;
  mathCounter : N
}.

Definition displayKey (n : N) : jsstring := str "__MATH_DISPLAY_" ++ num n ++ str "__".
Definition inlineKey (n : N) : jsstring := str "__MATH_INLINE_" ++ num n ++ str "__".

Definition displayContainer (math : jsstring) : jsstring :=
  html "<div class='my-6 overflow-x-auto' data-math='" ++ trim math
  ++ html "' data-display='true'></div>".

Definition inlineContainer (math : jsstring) : jsstring :=
  html "<span data-math='" ++ trim math ++ html "' data-display='false'></span>".

(** The callback of the seven display-math passes. *)
Definition saveDisplay (st : mathState) (m : minfo) : jsstring * mathState :=
  let key := displayKey (mathCounter st) in
  (key, MathState (obj_set key (displayContainer (cap 1 m)) (mathBlocks st))
                  (mathCounter st + 1)).

(** The callback of the inline-math pass. *)
Definition saveInline (st : mathState) (m : minfo) : jsstring * mathState :=
  let key := inlineKey (mathCounter st) in
  (key, MathState (obj_set key (inlineContainer (cap 1 m)) (mathBlocks st))
                  (mathCounter st + 1)).

(** PHASE 1: handle math environments first. *)
Definition protectMath (html0 : jsstring) : jsstring * mathState :=
  let st := MathState [] 0 in
  let '(h, st) := replaceWithState re_bracket saveDisplay html0 st in
  let '(h, st) := replaceWithState re_dollars saveDisplay h st in
  let '(h, st) := replaceWithState (re_env (str "equation")) saveDisplay h st in
  let '(h, st) := replaceWithState (re_env (str "align")) saveDisplay h st in
  let '(h, st) := replaceWithState (re_env (str "gather")) saveDisplay h st in
  let '(h, st) := replaceWithState (re_env (str "eqnarray")) saveDisplay h st in
  let '(h, st) := replaceWithState (re_env (str "multline")) saveDisplay h st in
  replaceWithState re_inline saveInline h st.

(** PHASE 2: remove preamble and document wrapper; remove tables. *)
Definition stripPreamble (h : jsstring) : jsstring :=
  let h := replace (re_cmd0 (str "documentclass")) [] h in
  let h := replace re_usepackage [] h in
  let h := replace (re_cmd0 (str "geometry")) [] h in
  let h := replace (re_cmd0 (str "pagestyle")) [] h in
  let h := replace (re_cmd00 (str "setcounter")) [] h in
  let h := replace (re_cmd00 (str "renewcommand")) [] h in
  let h := replace (lit (str "\begin{document}")) [] h in
  let h := replace (lit (str "\end{document}")) [] h in
  let h := replace re_abstract [] h in
  let h := replace (lit (str "\maketitle")) [] h in
  let h := replace re_table [] h in
  replace re_tabular [] h.

(** Title, author and date: the three [match] calls, the header they
    build, and the three removals.  The block occurs twice in the
    function (under PHASE 3 and again under "Handle title, author,
    date"), each time declaring [titleMatch], [authorMatch],
    [dateMatch] and [titleHtml] afresh in the same scope.  The function
    is read from top to bottom, a name referring to its latest
    declaration: the header that is returned is the one built by the
    second block. *)
Definition frontMatter (h : jsstring) : jsstring * jsstring :=
  let titleMatch := match1 (re_cmd_cap (str "title")) h in
  let authorMatch := match1 (re_cmd_cap (str "author")) h in
  let dateMatch := match1 (re_cmd_cap (str "date")) h in
  let titleHtml := [] in
  let titleHtml :=
    match titleMatch with
    | Some m => titleHtml ++ html "<h1 class='text-5xl font-bold mb-4 text-white'>"
                  ++ cap 1 m ++ str "</h1>" ++ [nl]
    | None => titleHtml
    end in
  let titleHtml :=
    match authorMatch with
    | Some m => titleHtml ++ html "<p class='text-lg text-gray-400 mb-2'>"
                  ++ cap 1 m ++ str "</p>" ++ [nl]
    | None => titleHtml
    end in
  let titleHtml :=
    match dateMatch with
    | Some m => titleHtml ++ html "<p class='text-sm text-gray-500 mb-8'>"
                  ++ cap 1 m ++ str "</p>" ++ [nl]
    | None => titleHtml
    end in
  let h := replace (re_cmd_cap (str "title")) [] h in
  let h := replace (re_cmd_cap (str "author")) [] h in
  let h := replace (re_cmd_cap (str "date")) [] h in
  (titleHtml, h).

(** Handle sections. *)
Definition sections (h : jsstring) : jsstring :=
  let h := replace (re_cmd_star_cap (str "section"))
    (html "<h2 class='text-4xl font-bold mt-12 mb-6 text-white border-b-2 border-orange-500 pb-3'>$1</h2>") h in
  let h := replace (re_cmd_star_cap (str "subsection"))
    (html "<h3 class='text-3xl font-semibold mt-10 mb-5 text-gray-100'>$1</h3>") h in
  let h := replace (re_cmd_star_cap (str "subsubsection"))
    (html "<h4 class='text-2xl font-semibold mt-8 mb-4 text-gray-200'>$1</h4>") h in
  replace (re_cmd_star_cap (str "paragraph"))
    (html "<h5 class='text-xl font-semibold mt-6 mb-3 text-gray-300'>$1</h5>") h.

(** Handle text formatting; the second occurrence of the block also
    knows [\textup]. *)
Definition formatting (withTextup : bool) (h : jsstring) : jsstring :=
  let h := replace (re_cmd_cap (str "textbf")) (html "<strong class='font-bold'>$1</strong>") h in
  let h := replace (re_cmd_cap (str "textit")) (html "<em class='italic'>$1</em>") h in
  let h := replace (re_cmd_cap (str "texttt"))
    (html "<code class='bg-cosmic-800 px-2 py-1 rounded text-sm font-mono'>$1</code>") h in
  let h := replace (re_cmd_cap (str "textsl")) (html "<em class='italic'>$1</em>") h in
  let h := replace (re_cmd_cap (str "textsc"))
    (html "<span class='uppercase tracking-wide text-sm'>$1</span>") h in
  let h := replace (re_cmd_cap (str "textrm")) (html "<span class='font-serif'>$1</span>") h in
  let h := replace (re_cmd_cap (str "textsf")) (html "<span class='font-sans'>$1</span>") h in
  let h := replace (re_cmd_cap (str "emph")) (html "<em class='italic'>$1</em>") h in
  let h := if withTextup
           then replace (re_cmd_cap (str "textup")) (html "<span class='not-italic'>$1</span>") h
           else h in
  replace re_texorpdfstring (str "$1") h.

(** Handle the double-backslash command and [\newline]. *)
Definition lineBreaks (h : jsstring) : jsstring :=
  let h := replace (lit (str "\\")) (str "<br />") h in
  replace (lit (str "\newline")) (str "<br />") h.

(** The display- and inline-math passes that follow the first line-break
    pass; they use replacement strings, not the placeholder table. *)
Definition displayTemplate : jsstring :=
  html "<div class='my-6 overflow-x-auto' data-math='$1' data-display='true'></div>".

Definition mathInPlace (h : jsstring) : jsstring :=
  let h := replace re_bracket displayTemplate h in
  let h := replace re_dollars displayTemplate h in
  let h := replace (re_env (str "equation")) displayTemplate h in
  let h := replace (re_env (str "align")) displayTemplate h in
  let h := replace (re_env_plain (str "align")) displayTemplate h in
  let h := replace (re_env (str "gather")) displayTemplate h in
  let h := replace (re_env (str "eqnarray")) displayTemplate h in
  let h := replace (re_env (str "multline")) displayTemplate h in
  replace re_inline (html "<span data-math='$1' data-display='false'></span>") h.

Definition bullet : char := 8226%N.   (* U+2022 *)

(** The body of the [map] callback that both list passes share up to
    the label. *)
Definition itemText (item : jsstring) : jsstring :=
  let text := trim (replaceFirst re_item_head [] item) in
  let text := replace (re_cmd_cap (str "textbf")) (str "<strong>$1</strong>") text in
  replace (re_cmd_cap (str "textit")) (str "<em>$1</em>") text.

Definition itemList (items : jsstring) : list jsstring :=
  match matchAll re_item items with
  | Some l => l
  | None => []
  end.

(** Handle itemize. *)
Definition itemize (m : minfo) : jsstring :=
  let listItems :=
    concat (map (fun item =>
      html "<li class='ml-4 mb-2 flex items-start'><span class='mr-3'>" ++ [bullet]
      ++ str "</span><span>" ++ itemText item ++ str "</span></li>")
      (itemList (cap 1 m))) in
  html "<ul class='my-4'>" ++ listItems ++ str "</ul>".

Fixpoint mapi {A B : Type} (f : A -> N -> B) (l : list A) (idx : N) : list B :=
  match l with
  | [] => []
  | x :: t => f x idx :: mapi f t (idx + 1)
  end.

(** Handle enumerate. *)
Definition enumerate (m : minfo) : jsstring :=
  let listItems :=
    concat (mapi (fun item idx =>
      html "<li class='ml-4 mb-2 flex items-start'><span class='mr-3'>" ++ num (idx + 1)
      ++ str ".</span><span>" ++ itemText item ++ str "</span></li>")
      (itemList (cap 1 m)) 0) in
  html "<ol class='my-4'>" ++ listItems ++ str "</ol>".

Definition lists (h : jsstring) : jsstring :=
  let h := replaceWith (re_env_plain (str "itemize")) itemize h in
  replaceWith (re_env_plain (str "enumerate")) enumerate h.

(** Handle footnotes, citations, references. *)
Definition references (h : jsstring) : jsstring :=
  let h := replace (re_cmd_cap0 (str "footnote"))
    (html "<sup class='text-xs text-orange-400'>[*]</sup>") h in
  let h := replace (re_cmd_cap0 (str "cite"))
    (html "<sup class='text-xs text-orange-400'>[citation]</sup>") h in
  let h := replace (re_cmd_cap0 (str "citep"))
    (html "<sup class='text-xs text-orange-400'>[citation]</sup>") h in
  let h := replace (re_cmd_cap0 (str "citet"))
    (html "<sup class='text-xs text-orange-400'>[citation]</sup>") h in
  let h := replace (re_cmd_cap0 (str "ref"))
    (html "<a href='#$1' class='text-orange-500 hover:underline'>Ref. $1</a>") h in
  let h := replace (re_cmd_cap0 (str "eqref"))
    (html "<a href='#$1' class='text-orange-500 hover:underline'>($1)</a>") h in
  replace (re_cmd_cap0 (str "label")) (html "<a id='$1'></a>") h.

(** [path.split('/').pop()] *)
Definition basename (path : jsstring) : jsstring :=
  last (split_chr (chr "/") path []) [].

Definition figureCaption (m : minfo) : jsstring :=
  html "<figure class='my-8'><figcaption class='text-sm text-gray-400 italic mt-2'>"
  ++ cap 1 m ++ str "</figcaption></figure>".

Definition imageTag (m : minfo) : jsstring :=
  html "<img src='/assets/" ++ basename (cap 1 m)
  ++ html "' alt='figure' class='max-w-full h-auto rounded-lg my-4' loading='lazy' />".

(** Handle figures. *)
Definition figures (h : jsstring) : jsstring :=
  let h := replaceWith re_figure figureCaption h in
  replaceWith re_includegraphics imageTag h.

Definition codeBlock (m : minfo) : jsstring :=
  html "<pre class='bg-cosmic-800 p-4 rounded overflow-x-auto text-sm my-4'><code>"
  ++ trim (cap 1 m) ++ str "</code></pre>".

(** Handle verbatim. *)
Definition verbatim (h : jsstring) : jsstring :=
  replaceWith (re_env_plain (str "verbatim")) codeBlock h.

Definition emdash : char := 8212%N.   (* U+2014 *)
Definition endash : char := 8211%N.   (* U+2013 *)

(** Handle special text replacements. *)
Definition escapes (h : jsstring) : jsstring :=
  let h := replace (lit (str "\textbackslash")) [bsl] h in
  let h := replace (lit (str "\$")) [dollar] h in
  let h := replace (lit (str "\%")) (str "%") h in
  let h := replace (lit (str "\{")) (str "{") h in
  let h := replace (lit (str "\}")) (str "}") h in
  let h := replace (lit (str "\_")) (str "_") h in
  let h := replace (lit (str "---")) [emdash] h in
  let h := replace (lit (str "--")) [endash] h in
  let h := replace (lit (str "``")) [dq] h in
  replace (lit (str "''")) [dq] h.

(** PHASE 4: remove all remaining LaTeX commands. *)
Definition fallback (h : jsstring) : jsstring :=
  let h := replace re_command_arg [] h in
  let h := replace re_command [] h in
  replace re_symbol [] h.

Definition pOpen : jsstring := html "<p class='mb-4 leading-relaxed text-gray-200'>".
Definition pClose : jsstring := str "</p>".

(** The [map] callback of the paragraph splitter. *)
Definition wrapParagraph (para : jsstring) : jsstring :=
  let para := trim para in
  if match para with [] => true | _ => false end then []
  else if test re_block para then para
  else
    let para :=
      if includes para [nl]
      then replace spaces1 (str " ") (replace (RChar nl) (str " ") para)
      else para in
    pOpen ++ para ++ pClose.

(** Split into paragraphs and wrap. *)
Definition paragraphs (h : jsstring) : jsstring :=
  concat (filter (fun p => 0 <? length p) (map wrapParagraph (split re_blank h))).

(** PHASE 5: restore math blocks. *)
Fixpoint restoreMath (entries : object) (result : jsstring) : option jsstring :=
  match entries with
  | [] => Some result
  | (key, value) :: t =>
      match RegExp key with
      | Some re => restoreMath t (replace re value result)
      | None => None
      end
  end.

Definition convertLaTeXToHTML (texContent : jsstring) : option jsstring :=
  let '(h, st) := protectMath texContent in
  let h := stripPreamble h in
  let '(titleHtml, h) := frontMatter h in
  let h := sections h in
  let h := formatting false h in
  let '(titleHtml, h) := frontMatter h in
  let h := lineBreaks h in
  let h := mathInPlace h in
  let h := sections h in
  let h := formatting true h in
  let h := lists h in
  let h := references h in
  let h := figures h in
  let h := verbatim h in
  let h := lineBreaks h in
  let h := escapes h in
  let h := fallback h in
  match restoreMath (mathBlocks st) (paragraphs h) with
  | Some result => Some (titleHtml ++ result)
  | None => None
  end.

(** ** Notions used in the statements and proofs *)

(** The literal text a regex must read first, and whether the regex
    reads nothing but that text. *)
Fixpoint exact (r : regex) : bool :=
  match r with
  | REmpty | RChar _ | RNotBehind _ | RBol | RAhead _ _ => true
  | RSeq a b => exact a && exact b
  | RGroup _ a => exact a
  | _ => false
  end.

Fixpoint litprefix (r : regex) : jsstring :=
  match r with
  | RChar c => [c]
  | RSeq a b => litprefix a ++ (if exact a then litprefix b else [])
  | RGroup _ a => litprefix a
  | _ => []
  end.



(** The longest prefix of [s] whose characters satisfy [p], and what
    follows it. *)
Fixpoint run (p : char -> bool) (s : jsstring) : jsstring :=
  match s with
  | x :: t => if p x then x :: run p t else []
  | [] => []
  end.

Fixpoint drop (p : char -> bool) (s : jsstring) : jsstring :=
  match s with
  | x :: t => if p x then drop p t else s
  | [] => []
  end.

(** A command token: a backslash immediately followed by a letter. *)
Fixpoint has_command (t : jsstring) : bool :=
  match t with
  | x :: t' =>
      match t' with
      | y :: _ => (ceq x bsl && is_letter y) || has_command t'
      | [] => false
      end
  | [] => false
  end.

Definition head_letter (t : jsstring) : bool :=
  match t with
  | x :: _ => is_letter x
  | [] => false
  end.

(** What a replace with the empty replacement string does with a segment. *)
Definition erase (sg : seg) : jsstring :=
  match sg with
  | Lit c => [c]
  | Hit _ => []
  end.

(** The output shows a block-level element inside a paragraph when,
    behind an opening paragraph tag and before that paragraph is closed,
    the text continues with a block-level opening tag. *)
Definition wraps_block (out : jsstring) : Prop :=
  exists a b c,
    out = a ++ pOpen ++ b ++ c /\ includes b pClose = false /\ test re_block c = true.

(** The paragraph invariant as the specification words it. *)
Definition paragraph_invariant (out : jsstring) : Prop :=
  includes out (pOpen ++ pClose) = false /\ ~ wraps_block out.

(** What the paragraph splitter makes of one segment that it keeps: the
    trimmed segment itself when that begins with a block-level opening
    tag, a paragraph container around a non-empty text otherwise. *)
Definition block_or_paragraph (b : jsstring) : Prop :=
  exists para,
    b = wrapParagraph para /\
    ((test re_block (trim para) = true /\ b = trim para) \/
     (test re_block (trim para) = false /\
      exists body, body <> [] /\ b = pOpen ++ body ++ pClose)).

(** A repetition body that reads exactly one character, of kind [P],
    and leaves the captures alone. *)
Definition steps_one (body : mstate -> kont -> option mstate) (P : char -> Prop) : Prop :=
  forall st k res,
    body st k = Some res ->
    exists x t,
      after st = x :: t /\ P x /\ k (MState (x :: before st) t (caps st)) = Some res.



(** [clash P o]: the literal [P] and the text [o] differ within their
    common length, so [P] is no prefix of any extension of [o]. *)
Fixpoint clash (P o : jsstring) : bool :=
  match P, o with
  | p :: P', x :: o' => negb (ceq p x) || clash P' o'
  | _, _ => false
  end.

(** [P] starts at no position of [o], whatever follows [o]. *)
Fixpoint all_clash (P o : jsstring) : bool :=
  match o with
  | [] => true
  | _ :: o' => clash P o && all_clash P o'
  end.

(** An occurrence of [P] cannot begin before [R] and end inside it: the
    first character of [R] is none of the characters of [P] past the
    first. *)
Definition no_straddle (P R : jsstring) : bool :=
  match R with
  | [] => true
  | c :: _ => negb (existsb (ceq c) (tl P))
  end.

(** [s.trimStart()] is [trim_start]; this is [s.trimEnd()]. *)
Definition trim_end (s : jsstring) : jsstring := rev (trim_start (rev s)).

(** Characters with which no pattern of the passes after PHASE 1 can
    begin: everything but the backslash, the dollar sign, the hyphen,
    the backtick and the apostrophe. *)
Definition inert_char (c : char) : bool :=
  negb (existsb (ceq c) [bsl; dollar; chr "-"; chr "`"; chr "'"]).

(** A pattern that has to begin with a character that is not inert. *)
Definition active (re : regex) : bool :=
  match litprefix re with
  | c :: _ => negb (inert_char c)
  | [] => false
  end.





Definition star_suffix (starred : bool) : jsstring :=
  if starred then [chr "*"] else [].






(** PHASE 1 as the list of its eight passes, for the proofs. *)
Definition savePass : Type := regex * (mathState -> minfo -> jsstring * mathState).

Definition run_pass (acc : jsstring * mathState) (p : savePass) : jsstring * mathState :=
  replaceWithState (fst p) (snd p) (fst acc) (snd acc).

Definition phase1_passes : list savePass :=
  [ (re_bracket, saveDisplay); (re_dollars, saveDisplay);
    (re_env (str "equation"), saveDisplay); (re_env (str "align"), saveDisplay);
    (re_env (str "gather"), saveDisplay); (re_env (str "eqnarray"), saveDisplay);
    (re_env (str "multline"), saveDisplay); (re_inline, saveInline) ].

(** A repetition body that reads one character of class [q]. *)
Definition char_step (body : mstate -> kont -> option mstate) (q : char -> bool) : Prop :=
  forall bef x t cs k,
    body (MState bef (x :: t) cs) k
    = if q x then k (MState (x :: bef) t cs) else None.



Definition preOpen : jsstring :=
  html "<pre class='bg-cosmic-800 p-4 rounded overflow-x-auto text-sm my-4'><code>".
Definition preClose : jsstring := str "</code></pre>".




(** [c] occurs in [P] at most as its last character. *)
Fixpoint only_last (c : char) (P : jsstring) : bool :=
  match P with
  | [] => true
  | q :: P' => (negb (ceq q c) || match P' with [] => true | _ => false end)
               && only_last c P'
  end.

Definition imgOpen : jsstring := html "<img src='/assets/".
Definition imgClose : jsstring :=
  html "' alt='figure' class='max-w-full h-auto rounded-lg my-4' loading='lazy' />".





Definition no_char (c : char) (s : jsstring) : bool := negb (includes s [c]).





(** Plain text: no backslash, no dollar sign, no doubled hyphen,
    backtick or apostrophe. *)
Definition plain (t : jsstring) : bool :=
  negb (includes t [bsl]) && negb (includes t [dollar])
  && negb (includes t (str "--")) && negb (includes t (str "``"))
  && negb (includes t (str "''")).

(** An item of a list as it is written, on the line of the next item
    or on a line of its own. *)
Definition entry (t : jsstring) : jsstring := str "\item " ++ t.
Definition entryLine (t : jsstring) : jsstring := str "\item " ++ t ++ [nl].

(** ** Documents of text and commands

    The commands that the converter handles by one pass each, and what
    that pass makes of them. *)

(** Commands with one argument in braces. *)
Inductive command : Type :=
| documentclass | geometry | pagestyle
| title | author | date
| section (starred : bool) | subsection (starred : bool)
| subsubsection (starred : bool) | paragraph (starred : bool)
| textbf | textit | texttt | textsl | textsc | textrm | textsf | emph | textup
| footnote | cite | citep | citet | ref | eqref | label.

(** Commands with two arguments in braces. *)
Inductive command2 : Type := setcounter | renewcommand | texorpdfstring.

(** Commands without argument. *)
Inductive keyword : Type := beginDocument | endDocument | maketitle | newline.

(** Escaped characters. *)
Inductive escape : Type := percent | openBrace | closeBrace | underscore.

(** Environments that are removed with their content. *)
Inductive removed : Type := abstractEnv | table (starred : bool) | tabular (cols : jsstring).

(** The items of a document: text; the commands; a line break with the
    text behind it, which does not begin with a character that
    continues a command; a list written on one line, every item
    followed at once by the next, or with one item on a line; an image;
    a verbatim block. *)
Inductive item : Type :=
| Text (t : jsstring)
| Command (k : command) (arg : jsstring)
| Command2 (k : command2) (arg1 arg2 : jsstring)
| Package (options : option jsstring) (arg : jsstring)
| Keyword (w : keyword)
| Break (t : jsstring)
| Escape (e : escape)
| Removed (env : removed) (body : jsstring)
| ItemList (ordered : bool) (entries : list jsstring)
| ItemLines (ordered : bool) (lines : list jsstring)
| Image (options : option jsstring) (dir : option jsstring) (file : jsstring)
| Verbatim (body : jsstring).

Definition document := list item.

Definition commandName (k : command) : jsstring :=
  match k with
  | documentclass => str "documentclass"
  | geometry => str "geometry"
  | pagestyle => str "pagestyle"
  | title => str "title"
  | author => str "author"
  | date => str "date"
  | section s => str "section" ++ star_suffix s
  | subsection s => str "subsection" ++ star_suffix s
  | subsubsection s => str "subsubsection" ++ star_suffix s
  | paragraph s => str "paragraph" ++ star_suffix s
  | textbf => str "textbf"
  | textit => str "textit"
  | texttt => str "texttt"
  | textsl => str "textsl"
  | textsc => str "textsc"
  | textrm => str "textrm"
  | textsf => str "textsf"
  | emph => str "emph"
  | textup => str "textup"
  | footnote => str "footnote"
  | cite => str "cite"
  | citep => str "citep"
  | citet => str "citet"
  | ref => str "ref"
  | eqref => str "eqref"
  | label => str "label"
  end.

Definition command2Name (k : command2) : jsstring :=
  match k with
  | setcounter => str "setcounter"
  | renewcommand => str "renewcommand"
  | texorpdfstring => str "texorpdfstring"
  end.

Definition keywordText (w : keyword) : jsstring :=
  match w with
  | beginDocument => str "\begin{document}"
  | endDocument => str "\end{document}"
  | maketitle => str "\maketitle"
  | newline => str "\newline"
  end.

Definition escapeText (e : escape) : jsstring :=
  match e with
  | percent => str "\%"
  | openBrace => str "\{"
  | closeBrace => str "\}"
  | underscore => str "\_"
  end.

Definition listName (ordered : bool) : jsstring :=
  if ordered then str "enumerate" else str "itemize".

Definition imagePath (dir : option jsstring) (file : jsstring) : jsstring :=
  match dir with Some d => d ++ chr "/" :: file | None => file end.

Definition bracketed (options : option jsstring) : jsstring :=
  match options with Some o => chr "[" :: o ++ [chr "]"] | None => [] end.

(** The fixed beginning of an item as it is written, and what follows
    it. *)
Definition item_head (it : item) : jsstring :=
  match it with
  | Text _ => []
  | Command k _ => bsl :: commandName k ++ [chr "{"]
  | Command2 k _ _ => bsl :: command2Name k ++ [chr "{"]
  | Package _ _ => str "\usepackage"
  | Keyword w => keywordText w
  | Break _ => []
  | Escape e => escapeText e
  | Removed abstractEnv _ => str "\begin{abstract}"
  | Removed (table s) _ => str "\begin{table" ++ star_suffix s ++ [chr "}"]
  | Removed (tabular _) _ => str "\begin{tabular}"
  | ItemList o _ | ItemLines o _ => str "\begin{" ++ listName o ++ [chr "}"]
  | Image _ _ _ => str "\includegraphics"
  | Verbatim _ => str "\begin{verbatim}"
  end.

Definition item_tail (it : item) : jsstring :=
  match it with
  | Text t => t
  | Command _ arg => arg ++ [chr "}"]
  | Command2 _ arg1 arg2 => arg1 ++ str "}{" ++ arg2 ++ [chr "}"]
  | Package options arg => bracketed options ++ chr "{" :: arg ++ [chr "}"]
  | Keyword _ => []
  | Break t => str "\\" ++ t
  | Escape _ => []
  | Removed abstractEnv body => body ++ str "\end{abstract}"
  | Removed (table s) body => body ++ str "\end{table" ++ star_suffix s ++ [chr "}"]
  | Removed (tabular cols) body =>
      chr "{" :: cols ++ chr "}" :: body ++ str "\end{tabular}"
  | ItemList o entries =>
      concat (map entry entries) ++ str "\end{" ++ listName o ++ [chr "}"]
  | ItemLines o lines =>
      nl :: concat (map entryLine lines) ++ str "\end{" ++ listName o ++ [chr "}"]
  | Image options dir file =>
      bracketed options ++ chr "{" :: imagePath dir file ++ [chr "}"]
  | Verbatim body => body ++ str "\end{verbatim}"
  end.

(** The item as it is written in the input. *)
Definition item_source (it : item) : jsstring := item_head it ++ item_tail it.

Definition commandMarkup (k : command) (arg : jsstring) : jsstring :=
  match k with
  | documentclass | geometry | pagestyle | title | author | date => []
  | section _ =>
      html "<h2 class='text-4xl font-bold mt-12 mb-6 text-white border-b-2 border-orange-500 pb-3'>"
      ++ arg ++ str "</h2>"
  | subsection _ =>
      html "<h3 class='text-3xl font-semibold mt-10 mb-5 text-gray-100'>" ++ arg ++ str "</h3>"
  | subsubsection _ =>
      html "<h4 class='text-2xl font-semibold mt-8 mb-4 text-gray-200'>" ++ arg ++ str "</h4>"
  | paragraph _ =>
      html "<h5 class='text-xl font-semibold mt-6 mb-3 text-gray-300'>" ++ arg ++ str "</h5>"
  | textbf => html "<strong class='font-bold'>" ++ arg ++ str "</strong>"
  | textit | textsl | emph => html "<em class='italic'>" ++ arg ++ str "</em>"
  | texttt =>
      html "<code class='bg-cosmic-800 px-2 py-1 rounded text-sm font-mono'>" ++ arg
      ++ str "</code>"
  | textsc => html "<span class='uppercase tracking-wide text-sm'>" ++ arg ++ str "</span>"
  | textrm => html "<span class='font-serif'>" ++ arg ++ str "</span>"
  | textsf => html "<span class='font-sans'>" ++ arg ++ str "</span>"
  | textup => html "<span class='not-italic'>" ++ arg ++ str "</span>"
  | footnote => html "<sup class='text-xs text-orange-400'>[*]</sup>"
  | cite | citep | citet => html "<sup class='text-xs text-orange-400'>[citation]</sup>"
  | ref =>
      html "<a href='#" ++ arg ++ html "' class='text-orange-500 hover:underline'>Ref. "
      ++ arg ++ str "</a>"
  | eqref =>
      html "<a href='#" ++ arg ++ html "' class='text-orange-500 hover:underline'>("
      ++ arg ++ str ")</a>"
  | label => html "<a id='" ++ arg ++ html "'></a>"
  end.

Definition liOpen : jsstring :=
  html "<li class='ml-4 mb-2 flex items-start'><span class='mr-3'>".
Definition liMiddle : jsstring := str "</span><span>".
Definition liClose : jsstring := str "</span></li>".

Definition bulletItem (t : jsstring) : jsstring :=
  liOpen ++ [bullet] ++ liMiddle ++ trim t ++ liClose.

Definition numberedItem (t : jsstring) (idx : N) : jsstring :=
  liOpen ++ num (idx + 1) ++ chr "." :: liMiddle ++ trim t ++ liClose.

Definition listOpen (ordered : bool) : jsstring :=
  if ordered then html "<ol class='my-4'>" else html "<ul class='my-4'>".
Definition listClose (ordered : bool) : jsstring :=
  if ordered then str "</ol>" else str "</ul>".

(** A list written on one line shows every item but the last; a list
    written with one item on a line shows none. *)
Definition listMarkup (ordered : bool) (shownItems : list jsstring) : jsstring :=
  listOpen ordered
  ++ (if ordered then concat (mapi numberedItem shownItems 0)
      else concat (map bulletItem shownItems))
  ++ listClose ordered.

(** What the converter makes of the item. *)
Definition item_markup (it : item) : jsstring :=
  match it with
  | Text t => t
  | Command k arg => commandMarkup k arg
  | Command2 texorpdfstring arg1 _ => arg1
  | Command2 _ _ _ => []
  | Package _ _ => []
  | Keyword newline => str "<br />"
  | Keyword _ => []
  | Break t => str "<br />" ++ t
  | Escape percent => str "%"
  | Escape openBrace => str "{"
  | Escape closeBrace => str "}"
  | Escape underscore => str "_"
  | Removed _ _ => []
  | ItemList o entries => listMarkup o (removelast entries)
  | ItemLines o _ => listMarkup o []
  | Image _ _ file => imgOpen ++ file ++ imgClose
  | Verbatim body => preOpen ++ trim body ++ preClose
  end.

Definition source (d : document) : jsstring := flat_map item_source d.
Definition markup (d : document) : jsstring := flat_map item_markup d.

(** The pass that handles the item, counted in source order over the
    passes that handle some item; text needs none. *)
Definition stage (it : item) : nat :=
  match it with
  | Text _ => 0
  | Command documentclass _ => 1
  | Package _ _ => 2
  | Command geometry _ => 3
  | Command pagestyle _ => 4
  | Command2 setcounter _ _ => 5
  | Command2 renewcommand _ _ => 6
  | Keyword beginDocument => 7
  | Keyword endDocument => 8
  | Removed abstractEnv _ => 9
  | Keyword maketitle => 10
  | Removed (table _) _ => 11
  | Removed (tabular _) _ => 12
  | Command title _ => 13
  | Command author _ => 14
  | Command date _ => 15
  | Command (section _) _ => 16
  | Command (subsection _) _ => 17
  | Command (subsubsection _) _ => 18
  | Command (paragraph _) _ => 19
  | Command textbf _ => 20
  | Command textit _ => 21
  | Command texttt _ => 22
  | Command textsl _ => 23
  | Command textsc _ => 24
  | Command textrm _ => 25
  | Command textsf _ => 26
  | Command emph _ => 27
  | Command2 texorpdfstring _ _ => 28
  | Break _ => 29
  | Keyword newline => 30
  | Command textup _ => 31
  | ItemList false _ | ItemLines false _ => 32
  | ItemList true _ | ItemLines true _ => 33
  | Command footnote _ => 34
  | Command cite _ => 35
  | Command citep _ => 36
  | Command citet _ => 37
  | Command ref _ => 38
  | Command eqref _ => 39
  | Command label _ => 40
  | Image _ _ _ => 41
  | Verbatim _ => 42
  | Escape percent => 43
  | Escape openBrace => 44
  | Escape closeBrace => 45
  | Escape underscore => 46
  end.

(** The text when the passes of the stages before [n] have run. *)
Definition shown (n : nat) (it : item) : jsstring :=
  if stage it <? n then item_markup it else item_source it.

Definition emit (n : nat) (d : document) : jsstring := flat_map (shown n) d.

(** Whether the command's pattern accepts an empty argument. *)
Definition empty_allowed (k : command) : bool :=
  match k with
  | documentclass | geometry | pagestyle
  | footnote | cite | citep | citet | ref | eqref | label => true
  | _ => false
  end.

Definition simple (close : char) (arg : jsstring) : bool :=
  no_char bsl arg && no_char dollar arg && no_char close arg.

(** The patterns of the passes before the pass that removes an
    environment, in source order. *)
Definition patterns_before_abstract : list regex :=
  [ re_bracket; re_dollars; re_env (str "equation"); re_env (str "align");
    re_env (str "gather"); re_env (str "eqnarray"); re_env (str "multline"); re_inline;
    re_cmd0 (str "documentclass"); re_usepackage; re_cmd0 (str "geometry");
    re_cmd0 (str "pagestyle"); re_cmd00 (str "setcounter"); re_cmd00 (str "renewcommand");
    lit (str "\begin{document}"); lit (str "\end{document}") ].

Definition patterns_before (env : removed) : list regex :=
  match env with
  | abstractEnv => patterns_before_abstract
  | table _ => patterns_before_abstract ++ [re_abstract; lit (str "\maketitle")]
  | tabular _ => patterns_before_abstract ++ [re_abstract; lit (str "\maketitle"); re_table]
  end.

(** The command that ends the environment for its pattern. *)
Definition terminator (env : removed) : jsstring :=
  match env with
  | abstractEnv => str "\end{abstract}"
  | table _ => str "\end{table"
  | tabular _ => str "\end{tabular}"
  end.

(** The content of a removed environment: no pass before the removal
    finds a match that begins in it, and the environment does not end
    in it. *)
Definition removable (env : removed) (body : jsstring) : bool :=
  forallb (fun re => negb (includes (body ++ [bsl]) (litprefix re))) (patterns_before env)
  && negb (includes (body ++ [bsl]) (terminator env))
  && match env with tabular cols => simple (chr "}") cols | _ => true end.

(** The characters with which the commands and the mathematics
    delimiters continue after their backslash. *)
Definition after_backslash (c : char) : bool :=
  is_letter c || ceq c (chr "[") || ceq c (chr "(").

Definition item_ok (it : item) : bool :=
  match it with
  | Text t => no_char bsl t && no_char dollar t
  | Command k arg =>
      simple (chr "}") arg
      && (empty_allowed k || negb (match arg with [] => true | _ => false end))
  | Command2 _ arg1 arg2 => simple (chr "}") arg1 && simple (chr "}") arg2
  | Package options arg =>
      match options with Some o => simple (chr "]") o | None => true end
      && simple (chr "}") arg
  | Keyword _ => true
  | Break t =>
      match t with
      | c :: _ => negb (after_backslash c)
      | [] => false
      end
      && no_char bsl t && no_char dollar t
  | Escape _ => true
  | Removed env body => removable env body
  | ItemList _ entries =>
      forallb (fun t => no_char bsl t && no_char dollar t && no_char nl t) entries
  | ItemLines _ lines =>
      forallb (fun t => no_char bsl t && no_char dollar t
                        && existsb (fun c => negb (is_space c)) t) lines
  | Image options dir file =>
      match options with Some o => simple (chr "]") o | None => true end
      && match dir with Some d => simple (chr "}") d | None => true end
      && simple (chr "}") file && no_char (chr "/") file
      && negb (match file with [] => true | _ => false end)
  | Verbatim body => no_char bsl body && no_char dollar body
  end.

(** The documents of the theorem: arguments without backslash, dollar
    sign and closing brace, text without backslash and dollar sign, and
    no doubled hyphen, backtick or apostrophe in what the commands leave
    behind. *)
Definition document_ok (d : document) : bool :=
  forallb item_ok d
  && negb (includes (markup d) (str "--")) && negb (includes (markup d) (str "``"))
  && negb (includes (markup d) (str "''")).

(** The fixed parts of the items as they are written, each with the
    stage of the item. *)
Definition fixed_parts : list (nat * jsstring) :=
  map (fun it => (stage it, item_head it))
      (map (fun k => Command k [])
         [ documentclass; geometry; pagestyle; title; author; date;
           section false; section true; subsection false; subsection true;
           subsubsection false; subsubsection true; paragraph false; paragraph true;
           textbf; textit; texttt; textsl; textsc; textrm; textsf; emph; textup;
           footnote; cite; citep; citet; ref; eqref; label ]
       ++ map (fun k => Command2 k [] []) [setcounter; renewcommand; texorpdfstring]
       ++ [Package None []]
       ++ map Keyword [beginDocument; endDocument; maketitle; newline]
       ++ map Escape [percent; openBrace; closeBrace; underscore]
       ++ map (fun env => Removed env []) [abstractEnv; table false; table true; tabular []]
       ++ [ItemList false []; ItemList true []; Image None None []; Verbatim []])
  ++ [ (9, str "\end{abstract}"); (11, str "\end{table}"); (11, str "\end{table*}");
       (12, str "\end{tabular}");
       (32, str "\item "); (32, str "\end{itemize}");
       (33, str "\item "); (33, str "\end{enumerate}");
       (42, str "\end{verbatim}") ].

Definition listed (s : nat) (part : jsstring) : bool :=
  existsb (fun sp => (fst sp =? s) && streq (snd sp) part) fixed_parts.

(** No item that the stages before [n] leave as written can begin a
    match of a pattern with the literal prefix [P]: [P] begins in none
    of the fixed parts, it is one of the patterns that the content of
    a removed environment is free of, and it continues with a letter,
    an opening bracket or an opening parenthesis, none of which
    follows a line break. *)
Definition idle_check (P : jsstring) (n : nat) : bool :=
  forallb (fun sp => (fst sp <? n) || all_clash P (snd sp)) fixed_parts
  && forallb (fun env =>
                (stage (Removed env []) <? n)
                || (existsb (fun re => streq P (litprefix re)) (patterns_before env)
                    && only_last bsl (tl P)))
             [abstractEnv; table false; tabular []]
  && ((stage (Break []) <? n)
      || match P with
         | _ :: x :: _ => after_backslash x
         | _ => false
         end).

(** No match of a pattern with the literal prefix [P] begins in [t],
    whatever follows [t]. *)
Definition inactive (P t : jsstring) : Prop :=
  forall a b R, t = a ++ b -> b <> [] -> starts_with P (b ++ R) = false.

(** The line feed as a character class. *)
Definition is_nl (c : char) : bool := ceq c nl.

(** The pieces into which the splitter divides [s], when [cur] holds,
    last character first, the part of the current piece already read;
    and what the splitter makes of a list of pieces. *)
Definition pieces (s : jsstring) (cur : list char) : list jsstring :=
  split_segs (segments re_blank [] s 0) cur.

Definition wrapAll (l : list jsstring) : jsstring :=
  concat (filter (fun p => 0 <? length p) (map wrapParagraph l)).

(** A document that uses every kind of item. *)
Definition sample_document : document :=
  [ Command documentclass (str "article"); Text [nl];
    Package (Some (str "utf8")) (str "inputenc"); Text [nl];
    Command2 setcounter (str "page") (str "1"); Text [nl];
    Keyword beginDocument; Text [nl];
    Command title (str "On Gravity"); Keyword maketitle; Text [nl];
    Removed abstractEnv (str "We study \emph{things}."); Text [nl; nl];
    Command (section false) (str "Intro"); Text [nl; nl];
    Text (str "Some "); Command textbf (str "bold"); Text (str " text, 50"); Escape percent;
    Text (str " sure, see "); Command ref (str "eq1"); Text (str ".");
    Break (str " next line"); Text [nl; nl];
    ItemList false [str "one "; str "two "; str "three"]; Text [nl; nl];
    ItemLines true [str "first"; str "second"]; Text [nl; nl];
    Image (Some (str "width=5cm")) (Some (str "figs")) (str "plot.png"); Text [nl; nl];
    Verbatim (str "x = 1"); Text [nl];
    Keyword endDocument ].

(** * General facts about strings *)

Unset Implicit Arguments.

Lemma ceq_spec a b : reflect (a = b) (ceq a b).
Proof. apply N.eqb_spec. Qed.


Lemma starts_with_spec p s : starts_with p s = true <-> exists r, s = p ++ r.
Proof.
  revert s. induction p as [|x p IH]; intros s; simpl.
  - split; [exists s; reflexivity | reflexivity].
  - destruct s as [|y s].
    + split; [discriminate | intros [r Hr]; discriminate].
    + rewrite andb_true_iff, IH. split.
      * intros [Hxy [r ->]]. destruct (ceq_spec x y); [subst|discriminate].
        now exists r.
      * intros [r Hr]. injection Hr as -> ->. split.
        -- unfold ceq. apply N.eqb_refl.
        -- now exists r.
Qed.

Lemma starts_with_app p r : starts_with p (p ++ r) = true.
Proof. apply starts_with_spec. now exists r. Qed.

Lemma includes_spec s p : includes s p = true <-> exists a b, s = a ++ p ++ b.
Proof.
  induction s as [|c s IH].
  - simpl. rewrite orb_false_r, starts_with_spec. split.
    + intros [r Hr]. now exists [], r.
    + intros [a [b H]]. destruct a; [now exists b|discriminate].
  - change (includes (c :: s) p) with (starts_with p (c :: s) || includes s p).
    rewrite orb_true_iff, starts_with_spec, IH. split.
    + intros [[r Hr]|[a [b Hab]]].
      * now exists [], r.
      * exists (c :: a), b. now rewrite Hab.
    + intros [a [b Hab]]. destruct a as [|x a].
      * left. now exists b.
      * right. injection Hab as -> ->. now exists a, b.
Qed.

Lemma includes_cons_false c s p :
  includes (c :: s) p = false -> starts_with p (c :: s) = false /\ includes s p = false.
Proof.
  change (includes (c :: s) p) with (starts_with p (c :: s) || includes s p).
  apply orb_false_iff.
Qed.

Lemma includes_nil_false p : includes [] p = false -> starts_with p [] = false.
Proof. simpl. now rewrite orb_false_r. Qed.

(** * General facts about the matcher *)


Lemma rmatch_litprefix r : forall st k res,
  rmatch r st k = Some res ->
  starts_with (litprefix r) (after st) = true /\
  (exact r = true ->
   exists st', k st' = Some res /\ after st = litprefix r ++ after st').
Proof.
  induction r as [|c|p|r1 IH1 r2 IH2|r1 IH1 r2 IH2|g r1 IH1|r1 IH1|i r1 IH1|pos r1 IH1|c|];
    intros st k res H; simpl in *.
  - split; [reflexivity|]. intros _. now exists st.
  - destruct (after st) as [|x t] eqn:Ha; [discriminate|].
    destruct (ceq_spec x c); [subst x|discriminate]. split.
    + simpl. unfold ceq. now rewrite N.eqb_refl.
    + intros _. eexists. split; [exact H|reflexivity].
  - split; [reflexivity|discriminate].
  - apply IH1 in H. destruct H as [H1 H2]. destruct (exact r1) eqn:E1.
    + destruct (H2 eq_refl) as [st1 [Hk Hst]]. apply IH2 in Hk.
      destruct Hk as [H3 H4]. split.
      * rewrite Hst. apply starts_with_spec. apply starts_with_spec in H3.
        destruct H3 as [r ->]. exists r. now rewrite app_assoc.
      * simpl. intros E2. destruct (H4 E2) as [st2 [Hk2 Hst2]].
        exists st2. split; [exact Hk2|]. now rewrite Hst, Hst2, app_assoc.
    + rewrite app_nil_r. split; [exact H1|discriminate].
  - split; [reflexivity|discriminate].
  - split; [reflexivity|discriminate].
  - split; [reflexivity|discriminate].
  - apply IH1 in H. destruct H as [H1 H2]. split; [exact H1|].
    intros E. destruct (H2 E) as [st1 [Hk Hst]].
    eexists. split; [exact Hk|exact Hst].
  - split; [reflexivity|]. intros _. exists st. split; [|reflexivity].
    destruct (rmatch r1 st Some), pos; congruence.
  - split; [reflexivity|]. intros _. exists st. split; [|reflexivity].
    destruct (before st) as [|x t]; [exact H|].
    destruct (ceq x c); [discriminate|exact H].
  - split; [reflexivity|]. intros _. exists st. split; [|reflexivity].
    destruct (before st); [exact H|discriminate].
Qed.

Lemma exec_litprefix re bef s st :
  exec re bef s = Some st -> starts_with (litprefix re) s = true.
Proof. intros H. now apply rmatch_litprefix in H. Qed.

(** A text that does not contain the literal prefix has no match. *)
Lemma segments_no_occurrence re s : forall bef,
  includes s (litprefix re) = false -> segments re bef s 0 = map Lit s.
Proof.
  induction s as [|c s IH]; intros bef H.
  - apply includes_nil_false in H. simpl.
    destruct (exec re bef []) eqn:E; [|reflexivity].
    apply exec_litprefix in E. congruence.
  - apply includes_cons_false in H. destruct H as [H1 H2]. simpl.
    destruct (exec re bef (c :: s)) eqn:E.
    + apply exec_litprefix in E. congruence.
    + now rewrite IH.
Qed.

Lemma flat_map_Lit (f : minfo -> jsstring) s :
  flat_map (fun sg => match sg with Lit c => [c] | Hit m => f m end) (map Lit s) = s.
Proof. induction s as [|c s IH]; simpl; [reflexivity|now rewrite IH]. Qed.

Lemma fold_segs_Lit {S : Type} (f : S -> minfo -> jsstring * S) s st :
  fold_segs f (map Lit s) st = (s, st).
Proof. induction s as [|c s IH]; simpl; [reflexivity|now rewrite IH]. Qed.

Lemma replaceWith_id re f s :
  includes s (litprefix re) = false -> replaceWith re f s = s.
Proof.
  intros H. unfold replaceWith. rewrite segments_no_occurrence by exact H.
  apply flat_map_Lit.
Qed.

Lemma replace_id re tpl s :
  includes s (litprefix re) = false -> replace re tpl s = s.
Proof. apply replaceWith_id. Qed.

Lemma replaceWithState_id {S : Type} re (f : S -> minfo -> jsstring * S) s st :
  includes s (litprefix re) = false -> replaceWithState re f s st = (s, st).
Proof.
  intros H. unfold replaceWithState. rewrite segments_no_occurrence by exact H.
  apply fold_segs_Lit.
Qed.

Lemma first_hit_Lit s : first_hit (map Lit s) = None.
Proof. induction s; simpl; auto. Qed.

Lemma match1_none re s :
  includes s (litprefix re) = false -> match1 re s = None.
Proof.
  intros H. unfold match1. rewrite segments_no_occurrence by exact H.
  apply first_hit_Lit.
Qed.


(** * The placeholder table *)

Lemma streq_eq a : forall b, streq a b = true -> a = b.
Proof.
  induction a as [|x a IH]; intros [|y b] H; simpl in H; try discriminate.
  - reflexivity.
  - apply andb_true_iff in H. destruct H as [H1 H2].
    destruct (ceq_spec x y); [subst|discriminate]. f_equal. now apply IH.
Qed.

















Lemma uint_digits d : forall c, In c (str (NilEmpty.string_of_uint d)) -> is_digit c = true.
Proof.
  induction d; intros c Hc; simpl in Hc;
    try (destruct Hc as [<-|Hc]; [reflexivity|now apply IHd]).
  contradiction.
Qed.

Lemma num_digits n c : In c (num n) -> is_digit c = true.
Proof. apply uint_digits. Qed.





(** * Totality *)


(** * Lists *)

(** C3.  On the specification's own example the item pattern finds the
    first item only: the lookahead wants an item or end marker after
    the item's text, and the text of the last item is followed by the
    end of the captured environment body. *)
Theorem itemize_example_keeps_first_item_only :
  convertLaTeXToHTML (str "\begin{itemize}\item First\item Second\end{itemize}")
  = Some (html "<ul class='my-4'><li class='ml-4 mb-2 flex items-start'><span class='mr-3'>"
          ++ [bullet] ++ str "</span><span>First</span></li></ul>").
Proof. vm_compute. reflexivity. Qed.

(** * Scanning lemmas *)

Lemma run_drop p s : run p s ++ drop p s = s.
Proof.
  induction s as [|x t IH]; simpl; [reflexivity|].
  destruct (p x); simpl; [now rewrite IH|reflexivity].
Qed.

Lemma drop_head p s : match drop p s with x :: _ => p x = false | [] => True end.
Proof.
  induction s as [|x t IH]; simpl; [exact I|].
  destruct (p x) eqn:E; [exact IH|exact E].
Qed.

Lemma length_drop p s : length (drop p s) <= length s.
Proof.
  induction s as [|x t IH]; simpl; [lia|]. destruct (p x); simpl; lia.
Qed.

(** Inside a match the scan only walks. *)
Lemma segments_skip re : forall k s bef,
  k <= length s ->
  segments re bef s k = segments re (rev (firstn k s) ++ bef) (skipn k s) 0.
Proof.
  induction k as [|k IH]; intros s bef Hk.
  - reflexivity.
  - destruct s as [|c t]; [simpl in Hk; lia|].
    simpl in Hk. change (segments re bef (c :: t) (S k)) with (segments re (c :: bef) t k).
    rewrite IH by lia. simpl. now rewrite <- app_assoc.
Qed.

Lemma segments_cons re bef c t :
  segments re bef (c :: t) 0 =
  match exec re bef (c :: t) with
  | Some st =>
      Hit (MInfo (firstn (length (c :: t) - length (after st)) (c :: t))
                 (caps st) (rev bef) (after st))
      :: (if length (c :: t) - length (after st) =? 0
          then Lit c :: segments re (c :: bef) t 0
          else segments re (c :: bef) t (length (c :: t) - length (after st) - 1))
  | None => Lit c :: segments re (c :: bef) t 0
  end.
Proof. reflexivity. Qed.

(** The scan at a position where the regex matches a non-empty text. *)
Lemma segments_hit re bef matched rest st :
  exec re bef (matched ++ rest) = Some st ->
  after st = rest -> matched <> [] ->
  segments re bef (matched ++ rest) 0 =
  Hit (MInfo matched (caps st) (rev bef) rest)
  :: segments re (rev matched ++ bef) rest 0.
Proof.
  intros He Ha Hne. destruct matched as [|c m]; [congruence|].
  simpl app in *. rewrite segments_cons, He, Ha.
  assert (Hl : length (c :: m ++ rest) - length rest = S (length m))
    by (change (length (c :: m ++ rest)) with (S (length (m ++ rest)));
        rewrite length_app; lia).
  rewrite Hl. simpl Nat.eqb. cbv iota. f_equal.
  - f_equal. simpl rev. change (c :: m ++ rest) with ((c :: m) ++ rest).
    replace (S (length m)) with (length (c :: m) + 0) by (simpl; lia).
    rewrite firstn_app_2. simpl. now rewrite app_nil_r.
  - simpl Nat.sub. rewrite Nat.sub_0_r.
    rewrite segments_skip by (rewrite length_app; lia).
    replace (length m) with (length m + 0) by lia.
    rewrite firstn_app_2, skipn_app. simpl.
    rewrite Nat.add_0_r, skipn_all, Nat.sub_diag. simpl.
    now rewrite app_nil_r, <- app_assoc.
Qed.

Lemma segments_miss re bef c t :
  exec re bef (c :: t) = None ->
  segments re bef (c :: t) 0 = Lit c :: segments re (c :: bef) t 0.
Proof. intros He. simpl. now rewrite He. Qed.

(** One round of a repetition whose body is a character class. *)
Lemma star_loop_class p g k x t bef cs :
  star_loop (rmatch (RClass p)) g k (S (length t)) (MState bef (x :: t) cs) =
  if g then
    (if p x then
      match star_loop (rmatch (RClass p)) g k (length t) (MState (x :: bef) t cs) with
      | Some r => Some r
      | None => k (MState bef (x :: t) cs)
      end
    else k (MState bef (x :: t) cs))
  else
    match k (MState bef (x :: t) cs) with
    | Some r => Some r
    | None =>
        if p x then star_loop (rmatch (RClass p)) g k (length t) (MState (x :: bef) t cs)
        else None
    end.
Proof.
  cbn [star_loop rmatch after before caps].
  assert (Hlt : (length t <? length (x :: t)) = true) by (apply Nat.ltb_lt; simpl; lia).
  rewrite Hlt. destruct g, (p x); reflexivity.
Qed.

Lemma rmatch_star_class p g k s bef cs :
  rmatch (RStar g (RClass p)) (MState bef s cs) k
  = star_loop (rmatch (RClass p)) g k (length s) (MState bef s cs).
Proof. reflexivity. Qed.

(** Greedy repetition of a character class, when whatever follows
    accepts: the whole run is taken. *)
Lemma star_class_Some p : forall s bef cs,
  rmatch (RStar true (RClass p)) (MState bef s cs) Some
  = Some (MState (rev (run p s) ++ bef) (drop p s) cs).
Proof.
  induction s as [|x t IH]; intros bef cs.
  - reflexivity.
  - rewrite rmatch_star_class. change (length (x :: t)) with (S (length t)).
    rewrite star_loop_class, <- rmatch_star_class, IH. simpl.
    destruct (p x); simpl; [now rewrite <- app_assoc|reflexivity].
Qed.

(** * The fallback passes *)

Lemma exec_command bef s :
  exec re_command bef s =
  match s with
  | c :: x :: t =>
      if ceq c bsl && is_letter x
      then Some (MState (rev (run is_letter t) ++ x :: c :: bef) (drop is_letter t) [])
      else None
  | _ => None
  end.
Proof.
  unfold exec, re_command, plus.
  destruct s as [|c [|x t]]; cbn [rmatch after before caps].
  - reflexivity.
  - now destruct (ceq c bsl).
  - destruct (ceq c bsl); [|reflexivity]. destruct (is_letter x); [|reflexivity].
    simpl andb. cbv iota. exact (star_class_Some is_letter t (x :: c :: bef) []).
Qed.

Lemma exec_symbol bef s :
  exec re_symbol bef s =
  match s with
  | c :: x :: t =>
      if ceq c bsl && negb (is_letter x)
      then Some (MState (x :: c :: bef) t [])
      else None
  | _ => None
  end.
Proof.
  unfold exec, re_symbol.
  destruct s as [|c [|x t]]; cbn [rmatch after before caps].
  - reflexivity.
  - now destruct (ceq c bsl).
  - destruct (ceq c bsl); [|reflexivity]. now destruct (is_letter x).
Qed.

Lemma has_command_cons x t :
  has_command (x :: t) = (ceq x bsl && head_letter t) || has_command t.
Proof. destruct t as [|y t]; simpl; [now rewrite andb_false_r|reflexivity]. Qed.

Lemma has_command_spec t :
  has_command t = false <->
  forall pre c post, t = pre ++ bsl :: c :: post -> is_letter c = false.
Proof.
  induction t as [|x t IH].
  - split; [|reflexivity]. intros _ [|y pre] c post H; discriminate.
  - rewrite has_command_cons, orb_false_iff, IH. split.
    + intros [H1 H2] pre c post E. destruct pre as [|y pre].
      * injection E as -> ->. exact H1.
      * injection E as -> E. now apply (H2 pre c post).
    + intros H. split.
      * destruct (ceq_spec x bsl) as [->|]; [|reflexivity].
        destruct t as [|y t]; [reflexivity|]. simpl.
        now apply (H [] y t).
      * intros pre c post E. apply (H (x :: pre) c post). now rewrite E.
Qed.

(** After the bare-command pass no command token is left, whatever the
    text was: the letters after a backslash are taken greedily, so the
    character that ends up behind a kept backslash is not a letter. *)
Lemma command_pass_clean : forall n s bef,
  length s <= n ->
  has_command (flat_map erase (segments re_command bef s 0)) = false /\
  (head_letter (flat_map erase (segments re_command bef s 0)) = true ->
   head_letter s = true).
Proof.
  induction n as [|n IH]; intros s bef Hn.
  - destruct s; [|simpl in Hn; lia]. split; [reflexivity|discriminate].
  - destruct s as [|c t]; [split; [reflexivity|discriminate]|].
    simpl in Hn.
    destruct (exec re_command bef (c :: t)) as [st|] eqn:He.
    + rewrite exec_command in He. destruct t as [|x t]; [discriminate|].
      destruct (ceq c bsl && is_letter x) eqn:Hcx; [|discriminate].
      injection He as <-. apply andb_true_iff in Hcx. destruct Hcx as [Hc Hx].
      pose proof (run_drop is_letter t) as Hrd.
      assert (E : c :: x :: t = (c :: x :: run is_letter t) ++ drop is_letter t)
        by (simpl; now rewrite Hrd).
      rewrite E.
      erewrite segments_hit; [| rewrite <- E, exec_command, Hc, Hx; reflexivity
                              | reflexivity | discriminate].
      simpl flat_map.
      pose proof (length_drop is_letter t) as Hl.
      destruct (IH (drop is_letter t)
                   (rev (c :: x :: run is_letter t) ++ bef)) as [H1 H2]; [simpl in *; lia|].
      split; [exact H1|]. intros H. apply H2 in H.
      pose proof (drop_head is_letter t) as Hd.
      destruct (drop is_letter t); simpl in H; congruence.
    + rewrite segments_miss by exact He. simpl flat_map.
      destruct (IH t (c :: bef)) as [H1 H2]; [lia|].
      split; [|intros H; exact H].
      rewrite has_command_cons, H1, orb_false_r.
      destruct (ceq c bsl) eqn:Hc; [|reflexivity]. simpl.
      destruct (head_letter (flat_map erase (segments re_command (c :: bef) t 0))) eqn:Hh;
        [|reflexivity].
      specialize (H2 eq_refl). rewrite exec_command in He.
      destruct t as [|x t]; [discriminate|]. simpl in H2.
      now rewrite Hc, H2 in He.
Qed.

(** The symbol pass introduces no command token. *)
Lemma symbol_pass_clean : forall n s bef,
  length s <= n -> has_command s = false ->
  has_command (flat_map erase (segments re_symbol bef s 0)) = false.
Proof.
  induction n as [|n IH]; intros s bef Hn Hs.
  - destruct s; [reflexivity|simpl in Hn; lia].
  - destruct s as [|c t]; [reflexivity|]. simpl in Hn.
    rewrite has_command_cons in Hs. apply orb_false_iff in Hs. destruct Hs as [Hc Ht].
    destruct (exec re_symbol bef (c :: t)) as [st|] eqn:He.
    + rewrite exec_symbol in He. destruct t as [|x t]; [discriminate|].
      destruct (ceq c bsl && negb (is_letter x)) eqn:Hcx; [|discriminate].
      injection He as <-.
      change (c :: x :: t) with ([c; x] ++ t).
      erewrite segments_hit; [| change ([c; x] ++ t) with (c :: x :: t);
                                rewrite exec_symbol, Hcx; reflexivity
                              | reflexivity | discriminate].
      simpl flat_map. apply IH; [simpl in Hn; lia|].
      rewrite has_command_cons in Ht. now apply orb_false_iff in Ht.
    + rewrite segments_miss by exact He. simpl flat_map.
      rewrite has_command_cons, (IH t (c :: bef)) by (lia || exact Ht).
      rewrite orb_false_r.
      destruct (ceq c bsl) eqn:Hcb; [|reflexivity]. simpl in *.
      rewrite exec_symbol in He. destruct t as [|x t]; [reflexivity|].
      simpl in Hc. rewrite Hcb, Hc in He. discriminate.
Qed.

Lemma replace_empty re s :
  replace re [] s = flat_map erase (segments re [] s 0).
Proof.
  unfold replace, replaceWith. apply flat_map_ext. now intros [c|m].
Qed.

(** C6.  After the three blanket passes of PHASE 4 the text has no
    command token: no backslash that is immediately followed by a
    letter ([has_command_spec] spells the test out as a statement about
    substrings). *)
Theorem fallback_leaves_no_command_token :
  forall h, has_command (fallback h) = false.
Proof.
  intros h. unfold fallback.
  rewrite (replace_empty re_symbol). eapply symbol_pass_clean; [reflexivity|].
  rewrite (replace_empty re_command). now eapply command_pass_clean.
Qed.

(** * Literal patterns *)

Lemma ceq_sym a b : ceq a b = ceq b a.
Proof. apply N.eqb_sym. Qed.

Lemma ceq_refl a : ceq a a = true.
Proof. apply N.eqb_refl. Qed.

Lemma rmatch_lit P : forall bef s cs k,
  rmatch (lit P) (MState bef s cs) k =
  if starts_with P s
  then k (MState (rev P ++ bef) (skipn (length P) s) cs)
  else None.
Proof.
  induction P as [|c P IH]; intros bef s cs k.
  - reflexivity.
  - destruct P as [|c' P'].
    + destruct s as [|x t]; [reflexivity|]. simpl.
      rewrite (ceq_sym c x), andb_true_r.
      destruct (ceq_spec x c); [now subst|reflexivity].
    + change (lit (c :: c' :: P')) with (RSeq (RChar c) (lit (c' :: P'))).
      destruct s as [|x t]; [reflexivity|].
      cbn [rmatch after before caps]. rewrite IH.
      change (starts_with (c :: c' :: P') (x :: t))
        with (ceq c x && starts_with (c' :: P') t).
      rewrite (ceq_sym c x).
      destruct (ceq_spec x c); [subst x|reflexivity].
      rewrite andb_true_l. destruct (starts_with (c' :: P') t); [|reflexivity].
      f_equal. f_equal. change (rev (c :: c' :: P')) with (rev (c' :: P') ++ [c]).
      now rewrite <- app_assoc.
Qed.

Lemma exec_lit P bef s :
  exec (lit P) bef s =
  if starts_with P s
  then Some (MState (rev P ++ bef) (skipn (length P) s) [])
  else None.
Proof. apply rmatch_lit. Qed.

Lemma includes_prefix_false s p q :
  includes s p = false -> includes s (p ++ q) = false.
Proof.
  intros H. destruct (includes s (p ++ q)) eqn:E; [|reflexivity].
  apply includes_spec in E. destruct E as [a [b E]].
  assert (includes s p = true) as E'
    by (apply includes_spec; exists a, (q ++ b); now rewrite E, <- app_assoc).
  congruence.
Qed.

Lemma includes_pair_cons e x t :
  includes (x :: t) [e; e] =
  (ceq e x && match t with y :: _ => ceq e y | [] => false end) || includes t [e; e].
Proof.
  change (includes (x :: t) [e; e]) with (starts_with [e; e] (x :: t) || includes t [e; e]).
  f_equal. simpl. destruct t; [reflexivity|now rewrite andb_true_r].
Qed.

(** A pass that replaces every pair [cc] by the single character [d]
    leaves no pair [ee] behind, for [e = c] and for every [e] that had
    no pair before, provided [d] is not [e]. *)
Lemma pair_pass c d e (f : minfo -> jsstring) :
  d <> e -> (forall m, f m = [d]) ->
  forall n s bef,
    length s <= n ->
    c = e \/ includes s [e; e] = false ->
    let out := flat_map (fun sg => match sg with Lit x => [x] | Hit m => f m end)
                        (segments (lit [c; c]) bef s 0) in
    includes out [e; e] = false /\
    (hd_error out = Some e -> hd_error s = Some e).
Proof.
  intros Hde Hf. induction n as [|n IH]; intros s bef Hn Hs out; subst out.
  - destruct s; [|simpl in Hn; lia]. split; [reflexivity|discriminate].
  - destruct s as [|x t]; [split; [reflexivity|discriminate]|]. simpl in Hn.
    destruct (exec (lit [c; c]) bef (x :: t)) as [st|] eqn:He.
    + rewrite exec_lit in He.
      destruct (starts_with [c; c] (x :: t)) eqn:Hsw; [|discriminate].
      injection He as <-. apply starts_with_spec in Hsw. destruct Hsw as [r Hr].
      rewrite Hr.
      erewrite segments_hit; [| rewrite exec_lit, starts_with_app; reflexivity
                              | reflexivity | discriminate ].
      simpl flat_map. rewrite Hf. simpl app.
      assert (Hlen : length r <= n) by (apply (f_equal (@length _)) in Hr; simpl in Hr; lia).
      assert (Hr' : c = e \/ includes r [e; e] = false).
      { destruct Hs as [Hs|Hs]; [now left|right]. rewrite Hr in Hs.
        simpl app in Hs. apply includes_cons_false in Hs. destruct Hs as [_ Hs].
        now apply includes_cons_false in Hs. }
      destruct (IH r (c :: c :: bef) Hlen Hr') as [H1 H2]. split.
      * rewrite includes_pair_cons, H1, orb_false_r.
        destruct (ceq_spec e d); [congruence|reflexivity].
      * simpl. intros E. congruence.
    + rewrite segments_miss by exact He. simpl flat_map.
      assert (Ht : c = e \/ includes t [e; e] = false).
      { destruct Hs as [Hs|Hs]; [now left|right].
        now apply includes_cons_false in Hs. }
      destruct (IH t (x :: bef) ltac:(lia) Ht) as [H1 H2].
      split; [|intros H; exact H].
      rewrite includes_pair_cons, H1, orb_false_r.
      destruct (ceq_spec e x) as [<-|]; [|reflexivity]. simpl.
      match goal with |- match ?o with _ => _ end = _ => destruct o as [|y o'] eqn:Eo end;
        [reflexivity|].
      destruct (ceq_spec e y) as [<-|]; [|reflexivity].
      specialize (H2 eq_refl). destruct t as [|y' t']; [discriminate|].
      injection H2 as ->. exfalso.
      destruct Hs as [->|Hs].
      * rewrite exec_lit in He. simpl in He. now rewrite !ceq_refl in He.
      * rewrite includes_pair_cons, ceq_refl in Hs. discriminate.
Qed.

(** * Escape normalisation *)

Lemma escapes_clean h :
  includes (escapes h) (str "--") = false /\
  includes (escapes h) (str "``") = false /\
  includes (escapes h) (str "''") = false.
Proof.
  unfold escapes.
  set (h7 := replace (lit (str "---")) [emdash] _).
  set (p8 := replace (lit (str "--")) [endash] h7).
  set (p9 := replace (lit (str "``")) [dq] p8).
  assert (H8 : includes p8 (str "--") = false).
  { refine (proj1 (pair_pass (chr "-") endash (chr "-") _ _ _ _ h7 [] (le_n _) _));
      [discriminate|reflexivity|now left]. }
  assert (H9 : includes p9 (str "--") = false /\ includes p9 (str "``") = false).
  { split.
    - refine (proj1 (pair_pass (chr "`") dq (chr "-") _ _ _ _ p8 [] (le_n _) _));
        [discriminate|reflexivity|now right].
    - refine (proj1 (pair_pass (chr "`") dq (chr "`") _ _ _ _ p8 [] (le_n _) _));
        [discriminate|reflexivity|now left]. }
  destruct H9 as [H9 H9']. repeat split.
  - refine (proj1 (pair_pass (chr "'") dq (chr "-") _ _ _ _ p9 [] (le_n _) _));
      [discriminate|reflexivity|now right].
  - refine (proj1 (pair_pass (chr "'") dq (chr "`") _ _ _ _ p9 [] (le_n _) _));
      [discriminate|reflexivity|now right].
  - refine (proj1 (pair_pass (chr "'") dq (chr "'") _ _ _ _ p9 [] (le_n _) _));
      [discriminate|reflexivity|now left].
Qed.




(** * Paragraphs *)

Lemma replaceWith_nonempty re f s :
  (forall m, f m <> []) -> s <> [] -> replaceWith re f s <> [].
Proof.
  intros Hf Hs. destruct s as [|c t]; [congruence|].
  unfold replaceWith. rewrite segments_cons.
  destruct (exec re [] (c :: t)) as [st|]; simpl.
  - intros H. apply app_eq_nil in H. destruct H as [H _]. now apply Hf in H.
  - discriminate.
Qed.

Lemma replace_space_nonempty re s :
  s <> [] -> replace re (str " ") s <> [].
Proof. apply replaceWith_nonempty. intros m. discriminate. Qed.

Lemma wrapParagraph_cases para :
  (trim para = [] /\ wrapParagraph para = []) \/
  (trim para <> [] /\ block_or_paragraph (wrapParagraph para)).
Proof.
  unfold block_or_paragraph.
  destruct (trim para) as [|c t] eqn:Et.
  - left. split; [reflexivity|]. unfold wrapParagraph. now rewrite Et.
  - right. split; [discriminate|]. exists para. split; [reflexivity|].
    unfold wrapParagraph. rewrite Et.
    destruct (test re_block (c :: t)) eqn:Eb.
    + left. now split.
    + right. split; [reflexivity|]. eexists. split; [|reflexivity].
      destruct (includes (c :: t) [nl]); [|discriminate].
      apply replace_space_nonempty, replace_space_nonempty. discriminate.
Qed.

(** C4, as amended.  The body that the paragraph splitter returns is a
    sequence of blocks; each block is a trimmed segment that begins with
    a block-level opening tag, passed through unwrapped, or a paragraph
    container around a non-empty text. *)
Theorem paragraphs_blocks :
  forall h, exists blocks,
    paragraphs h = concat blocks /\ Forall block_or_paragraph blocks.
Proof.
  intros h. unfold paragraphs.
  exists (filter (fun p => 0 <? length p) (map wrapParagraph (split re_blank h))).
  split; [reflexivity|].
  apply Forall_forall. intros b Hb. apply filter_In in Hb. destruct Hb as [Hin Hlen].
  apply in_map_iff in Hin. destruct Hin as [para [<- _]].
  destruct (wrapParagraph_cases para) as [[_ E]|[_ H]]; [|exact H].
  rewrite E in Hlen. discriminate.
Qed.

(** C4, as stated, fails: the splitter looks at the beginning of a
    segment only, so a heading behind other text is wrapped with it.
    (The container of a display-math fragment is wrapped as well: when
    paragraphs are formed its placeholder is ordinary text.) *)
Lemma heading_is_wrapped_in_paragraph :
  exists out,
    convertLaTeXToHTML (str "Intro \section{A}") = Some out /\ ~ paragraph_invariant out.
Proof.
  eexists. split; [reflexivity|].
  intros [_ H]. apply H.
  exists [], (str "Intro "),
    (html "<h2 class='text-4xl font-bold mt-12 mb-6 text-white border-b-2 border-orange-500 pb-3'>A</h2>"
     ++ pClose).
  repeat split; reflexivity.
Qed.

Lemma display_math_is_wrapped_in_paragraph :
  convertLaTeXToHTML (str "\[x\]") = Some (pOpen ++ displayContainer (str "x") ++ pClose).
Proof. reflexivity. Qed.

(** * Inline math *)

Lemma star_loop_steps body P g k :
  steps_one body P ->
  forall n st res,
    star_loop body g k n st = Some res ->
    exists m rest,
      after st = m ++ rest /\ Forall P m /\
      k (MState (rev m ++ before st) rest (caps st)) = Some res.
Proof.
  intros Hbody. induction n as [|n IH]; intros st res H.
  - exists [], (after st). destruct st. repeat split; [constructor|exact H].
  - assert (Hmore : forall r,
      body st (fun st' => if length (after st') <? length (after st)
                          then star_loop body g k n st' else None) = Some r ->
      exists m rest, after st = m ++ rest /\ Forall P m /\
                     k (MState (rev m ++ before st) rest (caps st)) = Some r).
    { intros r Hr. apply Hbody in Hr. destruct Hr as [x [t [Ha [Hx Hk]]]].
      simpl in Hk. destruct (length t <? length (after st)); [|discriminate].
      apply IH in Hk. destruct Hk as [m [rest [Hm [HP Hk]]]]. simpl in *.
      exists (x :: m), rest. repeat split.
      - now rewrite Ha, Hm.
      - now constructor.
      - simpl. now rewrite <- app_assoc. }
    assert (Hstop : forall r, k st = Some r ->
      exists m rest, after st = m ++ rest /\ Forall P m /\
                     k (MState (rev m ++ before st) rest (caps st)) = Some r).
    { intros r Hr. exists [], (after st). destruct st.
      repeat split; [constructor|exact Hr]. }
    simpl in H. destruct g.
    + destruct (body st _) as [r|] eqn:E.
      * injection H as <-. now apply Hmore.
      * now apply Hstop.
    + destruct (k st) as [r|] eqn:E.
      * injection H as <-. now apply Hstop.
      * now apply Hmore.
Qed.



Lemma includes_single s c : includes s [c] = false <-> ~ In c s.
Proof.
  induction s as [|x t IH]; [split; [intros _ []|reflexivity]|].
  change (includes (x :: t) [c]) with (starts_with [c] (x :: t) || includes t [c]).
  rewrite orb_false_iff, IH. simpl. rewrite andb_true_r. split.
  - intros [H1 H2] [H|H]; [subst; now rewrite ceq_refl in H1|now apply H2].
  - intros H. split.
    + destruct (ceq_spec c x); [subst; exfalso; apply H; now left|reflexivity].
    + intros Hin. apply H. now right.
Qed.



Lemma not_in_app (c : char) l1 l2 : ~ In c l1 -> ~ In c l2 -> ~ In c (l1 ++ l2).
Proof. intros H1 H2 H. apply in_app_or in H. tauto. Qed.









(** * Placeholder tokens *)





(** * Where a literal can occur in a text made of pieces *)

Lemma includes_absent c P s : ~ In c s -> includes s (c :: P) = false.
Proof.
  intros H. apply (includes_prefix_false s [c] P). now apply includes_single.
Qed.

Lemma includes_skip_absent c P x y :
  ~ In c x -> includes (x ++ y) (c :: P) = includes y (c :: P).
Proof.
  induction x as [|a x IH]; intros H; [reflexivity|].
  change (includes ((a :: x) ++ y) (c :: P))
    with (starts_with (c :: P) (a :: x ++ y) || includes (x ++ y) (c :: P)).
  rewrite IH by (intros Hin; apply H; now right).
  simpl. destruct (ceq_spec c a) as [->|]; [exfalso; apply H; now left|reflexivity].
Qed.

Lemma clash_starts_with P : forall o R,
  clash P o = true -> starts_with P (o ++ R) = false.
Proof.
  induction P as [|p P IH]; intros [|x o] R H; simpl in H; try discriminate.
  simpl. destruct (ceq p x); [|reflexivity]. simpl in *. now apply IH.
Qed.


Lemma starts_with_inside R : forall b P,
  (forall c, hd_error R = Some c -> ~ In c P) ->
  starts_with P (b ++ R) = true -> starts_with P b = true.
Proof.
  induction b as [|x b IH]; intros [|p P] HR H; try reflexivity.
  - simpl in H. destruct R as [|c R]; [discriminate|].
    apply andb_true_iff in H. destruct H as [H _].
    destruct (ceq_spec p c) as [->|]; [|discriminate].
    exfalso. apply (HR c eq_refl). now left.
  - simpl in *. apply andb_true_iff in H. destruct H as [H1 H2].
    rewrite H1. apply IH; [|exact H2].
    intros c Hc Hin. apply (HR c Hc). now right.
Qed.

Lemma no_straddle_spec P R :
  no_straddle P R = true -> forall c, hd_error R = Some c -> ~ In c (tl P).
Proof.
  unfold no_straddle. intros H c Hc Hin. destruct R as [|x R]; [discriminate|].
  injection Hc as ->. apply negb_true_iff in H.
  assert (existsb (ceq c) (tl P) = true) as E
    by (apply existsb_exists; exists c; split; [exact Hin|apply ceq_refl]).
  congruence.
Qed.

Lemma starts_with_before P b R :
  no_straddle P R = true -> b <> [] ->
  starts_with P (b ++ R) = true -> starts_with P b = true.
Proof.
  intros HR Hb H. destruct P as [|p P]; [reflexivity|].
  destruct b as [|x b]; [congruence|].
  simpl in *. apply andb_true_iff in H. destruct H as [H1 H2]. rewrite H1.
  apply (starts_with_inside R); [|exact H2]. now apply (no_straddle_spec (p :: P)).
Qed.


(** No occurrence before the end of [m]: what the lazy wildcard needs
    to run up to a closing literal. *)
Lemma no_early_start P m R :
  includes m P = false -> no_straddle P R = true ->
  forall a b, m = a ++ b -> b <> [] -> starts_with P (b ++ R) = false.
Proof.
  intros Hm HR a b E Hb.
  destruct (starts_with P (b ++ R)) eqn:H; [|reflexivity].
  apply starts_with_before in H; [|exact HR|exact Hb].
  apply starts_with_spec in H. destruct H as [r Hr].
  assert (includes m P = true) as E'
    by (apply includes_spec; exists a, r; now rewrite E, Hr).
  congruence.
Qed.

(** * Running the matcher forward *)

Lemma run_seq_lit P r2 bef X cs k res :
  rmatch r2 (MState (rev P ++ bef) X cs) k = Some res ->
  rmatch (RSeq (lit P) r2) (MState bef (P ++ X) cs) k = Some res.
Proof.
  intros H. cbn [rmatch]. rewrite rmatch_lit, starts_with_app.
  now rewrite skipn_app, skipn_all, Nat.sub_diag.
Qed.

Lemma run_lit P bef X cs k res :
  k (MState (rev P ++ bef) X cs) = Some res ->
  rmatch (lit P) (MState bef (P ++ X) cs) k = Some res.
Proof.
  intros H. rewrite rmatch_lit, starts_with_app.
  now rewrite skipn_app, skipn_all, Nat.sub_diag.
Qed.

Lemma run_seq_chr c r2 bef X cs k res :
  rmatch r2 (MState (c :: bef) X cs) k = Some res ->
  rmatch (RSeq (RChar c) r2) (MState bef (c :: X) cs) k = Some res.
Proof. intros H. cbn [rmatch after before caps]. now rewrite ceq_refl. Qed.

Lemma run_chr c bef X cs k res :
  k (MState (c :: bef) X cs) = Some res ->
  rmatch (RChar c) (MState bef (c :: X) cs) k = Some res.
Proof. intros H. cbn [rmatch after before caps]. now rewrite ceq_refl. Qed.

(** An optional character that is not there. *)
Lemma run_seq_opt_skip c r2 bef x X cs k res :
  ceq x c = false ->
  rmatch r2 (MState bef (x :: X) cs) k = Some res ->
  rmatch (RSeq (ROpt (RChar c)) r2) (MState bef (x :: X) cs) k = Some res.
Proof. intros Hx H. cbn [rmatch after before caps]. now rewrite Hx. Qed.

(** An optional character that is there. *)
Lemma run_seq_opt_take c r2 bef X cs k res :
  rmatch r2 (MState (c :: bef) X cs) k = Some res ->
  rmatch (RSeq (ROpt (RChar c)) r2) (MState bef (c :: X) cs) k = Some res.
Proof. intros H. cbn [rmatch after before caps]. now rewrite ceq_refl, H. Qed.

(** The lazy wildcard stops where its continuation first accepts. *)
Lemma run_lazy_any (K : kont) : forall m bef X cs res,
  (forall a b, m = a ++ b -> b <> [] ->
     K (MState (rev a ++ bef) (b ++ X) cs) = None) ->
  K (MState (rev m ++ bef) X cs) = Some res ->
  rmatch any_lazy (MState bef (m ++ X) cs) K = Some res.
Proof.
  unfold any_lazy. induction m as [|x m IH]; intros bef X cs res Hearly HK.
  - rewrite rmatch_star_class. simpl app in *.
    destruct X as [|y X]; [exact HK|].
    change (length (y :: X)) with (S (length X)).
    now rewrite star_loop_class, HK.
  - rewrite rmatch_star_class. simpl app.
    change (length (x :: m ++ X)) with (S (length (m ++ X))).
    rewrite star_loop_class.
    pose proof (Hearly [] (x :: m) eq_refl ltac:(discriminate)) as H0.
    simpl in H0. rewrite H0.
    unfold is_any at 1. rewrite <- rmatch_star_class. apply IH.
    + intros a b E Hb. specialize (Hearly (x :: a) b).
      simpl in Hearly. rewrite <- app_assoc in Hearly. apply Hearly; [now rewrite E|exact Hb].
    + simpl in HK. now rewrite <- app_assoc in HK.
Qed.

Lemma consumed_app bef m X cs bef' cs' :
  consumed (MState bef (m ++ X) cs) (MState bef' X cs') = m.
Proof.
  unfold consumed. simpl. rewrite length_app.
  replace (length m + length X - length X) with (length m + 0) by lia.
  rewrite firstn_app_2. simpl. apply app_nil_r.
Qed.

(** A captured lazy wildcard up to a closing literal that does not
    begin earlier. *)
Lemma run_seq_group_lazy_lit i L r3 m bef X cs k res :
  (forall a b, m = a ++ b -> b <> [] -> starts_with L (b ++ L ++ X) = false) ->
  rmatch r3 (MState (rev L ++ rev m ++ bef) X ((i, m) :: cs)) k = Some res ->
  rmatch (RSeq (RGroup i any_lazy) (RSeq (lit L) r3))
         (MState bef (m ++ L ++ X) cs) k = Some res.
Proof.
  intros Hearly H. cbn [rmatch]. apply run_lazy_any.
  - intros a b E Hb. cbn [before after caps].
    now rewrite rmatch_lit, (Hearly a b E Hb).
  - cbn [before after caps]. rewrite consumed_app.
    rewrite rmatch_lit, starts_with_app.
    now rewrite skipn_app, skipn_all, Nat.sub_diag.
Qed.

(** The same without a capture. *)
Lemma run_seq_lazy_lit L r3 m bef X cs k res :
  (forall a b, m = a ++ b -> b <> [] -> starts_with L (b ++ L ++ X) = false) ->
  rmatch r3 (MState (rev L ++ rev m ++ bef) X cs) k = Some res ->
  rmatch (RSeq any_lazy (RSeq (lit L) r3)) (MState bef (m ++ L ++ X) cs) k = Some res.
Proof.
  intros Hearly H. cbn [rmatch]. apply run_lazy_any.
  - intros a b E Hb. now rewrite rmatch_lit, (Hearly a b E Hb).
  - rewrite rmatch_lit, starts_with_app.
    now rewrite skipn_app, skipn_all, Nat.sub_diag.
Qed.

(** * Texts that the passes leave alone *)

Lemma segments_skip_absent re c P pre rest :
  litprefix re = c :: P -> ~ In c pre ->
  forall bef,
    segments re bef (pre ++ rest) 0 = map Lit pre ++ segments re (rev pre ++ bef) rest 0.
Proof.
  intros Hlp. induction pre as [|x pre IH]; intros Hin bef; [reflexivity|].
  simpl app. rewrite segments_miss.
  - rewrite IH by (intros H; apply Hin; now right).
    simpl. now rewrite <- app_assoc.
  - destruct (exec re bef (x :: pre ++ rest)) eqn:E; [|reflexivity].
    apply exec_litprefix in E. rewrite Hlp in E. simpl in E.
    destruct (ceq_spec c x) as [->|]; [|discriminate].
    exfalso. apply Hin. now left.
Qed.


Lemma inert_absent h c :
  forallb inert_char h = true -> inert_char c = false -> ~ In c h.
Proof.
  intros Hh Hc Hin. rewrite forallb_forall in Hh. apply Hh in Hin. congruence.
Qed.

Lemma inert_no_occurrence re h :
  forallb inert_char h = true -> active re = true ->
  includes h (litprefix re) = false.
Proof.
  unfold active. intros Hh Ha. destruct (litprefix re) as [|c P]; [discriminate|].
  apply includes_absent, (inert_absent h c Hh). now apply negb_true_iff in Ha.
Qed.



Lemma inert_replaceWithState {S : Type} re (f : S -> minfo -> jsstring * S) h st :
  forallb inert_char h = true -> active re = true ->
  replaceWithState re f h st = (h, st).
Proof. intros Hh Ha. now apply replaceWithState_id, inert_no_occurrence. Qed.















(** * One paragraph, one placeholder *)








Lemma ngroups_lit P : ngroups (lit P) = 0.
Proof.
  induction P as [|c P IH]; [reflexivity|].
  destruct P as [|c' P']; [reflexivity|].
  change (lit (c :: c' :: P')) with (RSeq (RChar c) (lit (c' :: P'))).
  simpl. exact IH.
Qed.





Lemma trim_start_incl s c : In c (trim_start s) -> In c s.
Proof.
  induction s as [|x s IH]; [auto|]. simpl.
  destruct (is_space x); [intros H; right; now apply IH|auto].
Qed.

Lemma trim_end_incl s c : In c (trim_end s) -> In c s.
Proof.
  unfold trim_end. intros H. apply in_rev in H. apply trim_start_incl in H.
  now apply in_rev.
Qed.

Lemma trim_incl s c : In c (trim s) -> In c s.
Proof.
  unfold trim. intros H. apply in_rev in H. apply trim_start_incl in H.
  apply in_rev in H. now apply trim_start_incl.
Qed.

Lemma forallb_trim_start p s : forallb p s = true -> forallb p (trim_start s) = true.
Proof.
  rewrite !forallb_forall. intros H c Hc. now apply H, trim_start_incl.
Qed.

Lemma forallb_trim_end p s : forallb p s = true -> forallb p (trim_end s) = true.
Proof.
  rewrite !forallb_forall. intros H c Hc. now apply H, trim_end_incl.
Qed.



(** * The extraction passes on one construct *)






Lemma protectMath_fold texContent :
  protectMath texContent = fold_left run_pass phase1_passes (texContent, MathState [] 0).
Proof.
  unfold protectMath, phase1_passes, run_pass. cbn [fold_left fst snd].
  repeat match goal with
  | |- context [replaceWithState ?r saveDisplay ?h ?s] =>
      destruct (replaceWithState r saveDisplay h s); cbn [fst snd]
  end.
  reflexivity.
Qed.

Lemma fold_quiet passes text st :
  Forall (fun p => includes text (litprefix (fst p)) = false) passes ->
  fold_left run_pass passes (text, st) = (text, st).
Proof.
  induction 1 as [|p passes Hp _ IH]; [reflexivity|].
  cbn [fold_left]. unfold run_pass at 2. cbn [fst snd].
  now rewrite replaceWithState_id.
Qed.



Lemma star_loop_lazy_step body q K x t bef cs :
  char_step body q ->
  star_loop body false K (S (length t)) (MState bef (x :: t) cs) =
  match K (MState bef (x :: t) cs) with
  | Some r => Some r
  | None =>
      if q x then star_loop body false K (length t) (MState (x :: bef) t cs) else None
  end.
Proof.
  intros Hstep. cbn [star_loop]. rewrite Hstep. cbn [after].
  assert (Hlt : (length t <? length (x :: t)) = true) by (apply Nat.ltb_lt; simpl; lia).
  now rewrite Hlt.
Qed.

Lemma run_lazy_steps body q (K : kont) :
  char_step body q ->
  forall m bef X cs res,
    forallb q m = true ->
    (forall a b, m = a ++ b -> b <> [] ->
       K (MState (rev a ++ bef) (b ++ X) cs) = None) ->
    K (MState (rev m ++ bef) X cs) = Some res ->
    star_loop body false K (length (m ++ X)) (MState bef (m ++ X) cs) = Some res.
Proof.
  intros Hstep. induction m as [|x m IH]; intros bef X cs res Hq Hearly HK.
  - simpl app in *. destruct X as [|y X]; [exact HK|].
    change (length (y :: X)) with (S (length X)).
    now rewrite (star_loop_lazy_step body q K y X bef cs Hstep), HK.
  - simpl app. change (length (x :: m ++ X)) with (S (length (m ++ X))).
    rewrite (star_loop_lazy_step body q K x (m ++ X) bef cs Hstep).
    pose proof (Hearly [] (x :: m) eq_refl ltac:(discriminate)) as H0.
    simpl in H0. rewrite H0. simpl in Hq. apply andb_true_iff in Hq.
    destruct Hq as [Hx Hq]. rewrite Hx. apply IH; [exact Hq| |].
    + intros a b E Hb. specialize (Hearly (x :: a) b).
      simpl in Hearly. rewrite <- app_assoc in Hearly. apply Hearly; [now rewrite E|exact Hb].
    + simpl in HK. now rewrite <- app_assoc in HK.
Qed.














(** * Verbatim *)


Ltac quiet_passes T tac :=
  repeat first
    [ rewrite (replace_id _ _ T) by tac
    | rewrite (replaceWith_id _ _ T) by tac
    | rewrite (match1_none _ T) by tac ].














(** * Figures and images *)

(** Greedy repetition of a class over a run that cannot be extended:
    the run is taken whole when the continuation accepts behind it. *)
Lemma run_star_class p (K : kont) : forall l bef X cs res,
  forallb p l = true ->
  match X with [] => true | x :: _ => negb (p x) end = true ->
  K (MState (rev l ++ bef) X cs) = Some res ->
  rmatch (RStar true (RClass p)) (MState bef (l ++ X) cs) K = Some res.
Proof.
  induction l as [|y l IH]; intros bef X cs res Hl HX HK.
  - rewrite rmatch_star_class. cbn [app] in *.
    destruct X as [|x X]; [exact HK|].
    change (length (x :: X)) with (S (length X)).
    rewrite star_loop_class. apply negb_true_iff in HX. now rewrite HX.
  - rewrite rmatch_star_class. cbn [app].
    change (length (y :: l ++ X)) with (S (length (l ++ X))).
    rewrite star_loop_class. simpl in Hl. apply andb_true_iff in Hl.
    destruct Hl as [Hy Hl]. rewrite Hy, <- rmatch_star_class.
    rewrite (IH (y :: bef) X cs res Hl HX); [reflexivity|].
    simpl in HK. now rewrite <- app_assoc in HK.
Qed.

Lemma run_seq_star_class p r2 l bef X cs k res :
  forallb p l = true ->
  match X with [] => true | x :: _ => negb (p x) end = true ->
  rmatch r2 (MState (rev l ++ bef) X cs) k = Some res ->
  rmatch (RSeq (RStar true (RClass p)) r2) (MState bef (l ++ X) cs) k = Some res.
Proof. intros Hl HX H. cbn [rmatch]. now apply run_star_class. Qed.

Lemma run_seq_group_star_class i p r2 l bef X cs k res :
  forallb p l = true ->
  match X with [] => true | x :: _ => negb (p x) end = true ->
  rmatch r2 (MState (rev l ++ bef) X ((i, l) :: cs)) k = Some res ->
  rmatch (RSeq (RGroup i (RStar true (RClass p))) r2) (MState bef (l ++ X) cs) k = Some res.
Proof.
  intros Hl HX H. cbn [rmatch]. apply run_star_class; [exact Hl|exact HX|].
  cbn [before after caps]. now rewrite consumed_app.
Qed.

Lemma run_seq_group_plus_class i p r2 y l bef X cs k res :
  forallb p (y :: l) = true ->
  match X with [] => true | x :: _ => negb (p x) end = true ->
  rmatch r2 (MState (rev (y :: l) ++ bef) X ((i, y :: l) :: cs)) k = Some res ->
  rmatch (RSeq (RGroup i (plus (RClass p))) r2) (MState bef ((y :: l) ++ X) cs) k = Some res.
Proof.
  intros Hl HX H. unfold plus. cbn [rmatch after before caps app].
  simpl in Hl. apply andb_true_iff in Hl. destruct Hl as [Hy Hl]. rewrite Hy.
  apply run_star_class; [exact Hl|exact HX|].
  cbn [before after caps].
  change (y :: l ++ X) with ((y :: l) ++ X). rewrite consumed_app.
  simpl in H. now rewrite <- app_assoc in H.
Qed.

Lemma run_seq_opt_take_seq r1 r2 st k res :
  rmatch r1 st (fun st' => rmatch r2 st' k) = Some res ->
  rmatch (RSeq (ROpt r1) r2) st k = Some res.
Proof. intros H. cbn [rmatch]. now rewrite H. Qed.

Lemma run_seq_opt_skip_seq r1 r2 st k res :
  rmatch r1 st (fun st' => rmatch r2 st' k) = None ->
  rmatch r2 st k = Some res ->
  rmatch (RSeq (ROpt r1) r2) st k = Some res.
Proof. intros H1 H2. cbn [rmatch]. now rewrite H1. Qed.

Lemma run_seq_seq r1 r2 r3 st k res :
  rmatch (RSeq r1 (RSeq r2 r3)) st k = Some res ->
  rmatch (RSeq (RSeq r1 r2) r3) st k = Some res.
Proof. intros H. exact H. Qed.

Lemma split_chr_nonempty c s : forall cur, split_chr c s cur <> [].
Proof.
  induction s as [|x s IH]; intros cur; simpl; [discriminate|].
  destruct (ceq x c); [discriminate|apply IH].
Qed.

Lemma split_chr_absent c s : forall cur, ~ In c s -> split_chr c s cur = [rev cur ++ s].
Proof.
  induction s as [|x s IH]; intros cur H; simpl.
  - now rewrite app_nil_r.
  - destruct (ceq_spec x c) as [->|]; [exfalso; apply H; now left|].
    rewrite IH by (intros Hin; apply H; now right).
    simpl. now rewrite <- app_assoc.
Qed.

Lemma split_chr_last c a s : forall cur,
  last (split_chr c (a ++ c :: s) cur) [] = last (split_chr c s []) [].
Proof.
  induction a as [|x a IH]; intros cur; simpl.
  - rewrite ceq_refl. pose proof (split_chr_nonempty c s []) as H.
    now destruct (split_chr c s []).
  - destruct (ceq x c); [|apply IH].
    rewrite <- (IH []). pose proof (split_chr_nonempty c (a ++ c :: s) []) as H.
    now destruct (split_chr c (a ++ c :: s) []).
Qed.

(** The final path segment. *)
Lemma basename_file file : ~ In (chr "/") file -> basename file = file.
Proof. intros H. unfold basename. now rewrite split_chr_absent. Qed.

Lemma basename_dir dir file :
  ~ In (chr "/") file -> basename (dir ++ chr "/" :: file) = file.
Proof.
  intros H. unfold basename. rewrite split_chr_last. now rewrite split_chr_absent.
Qed.




Lemma starts_with_guard c R : forall b P,
  only_last c P = true ->
  starts_with P (b ++ c :: R) = true -> starts_with P (b ++ [c]) = true.
Proof.
  induction b as [|x b IH]; intros [|q P] HP H; try reflexivity.
  - simpl in *. apply andb_true_iff in H. destruct H as [H1 H2].
    rewrite H1. apply andb_true_iff in HP. destruct HP as [HP _].
    rewrite (ceq_sym q c), (ceq_sym c q), H1 in HP. simpl in HP.
    now destruct P.
  - simpl in *. apply andb_true_iff in H. destruct H as [H1 H2].
    rewrite H1. apply andb_true_iff in HP. destruct HP as [_ HP].
    now apply IH.
Qed.


Lemma includes_last_false a c P :
  includes (a ++ [c]) P = false -> includes a P = false.
Proof.
  intros H. destruct (includes a P) eqn:E; [|reflexivity].
  apply includes_spec in E. destruct E as [x [y E]].
  assert (includes (a ++ [c]) P = true) as E'
    by (apply includes_spec; exists x, (y ++ [c]); rewrite E; now rewrite <- !app_assoc).
  congruence.
Qed.

Lemma no_char_spec c s : no_char c s = true -> ~ In c s.
Proof. unfold no_char. rewrite negb_true_iff. apply includes_single. Qed.

Lemma not_in_forallb c s : ~ In c s -> forallb (is_not c) s = true.
Proof.
  intros H. apply forallb_forall. intros x Hx. unfold is_not.
  destruct (ceq_spec x c) as [->|]; [contradiction|reflexivity].
Qed.











Lemma run_star_class_none p (K : kont) x X bef cs :
  p x = false ->
  rmatch (RStar true (RClass p)) (MState bef (x :: X) cs) K = K (MState bef (x :: X) cs).
Proof.
  intros Hx. rewrite rmatch_star_class.
  change (length (x :: X)) with (S (length X)).
  now rewrite star_loop_class, Hx.
Qed.

Lemma run_seq_star_none p r2 x X bef cs k res :
  p x = false ->
  rmatch r2 (MState bef (x :: X) cs) k = Some res ->
  rmatch (RSeq (RStar true (RClass p)) r2) (MState bef (x :: X) cs) k = Some res.
Proof.
  intros Hx H. change (rmatch (RSeq (RStar true (RClass p)) r2) (MState bef (x :: X) cs) k)
    with (rmatch (RStar true (RClass p)) (MState bef (x :: X) cs) (fun st' => rmatch r2 st' k)).
  now rewrite run_star_class_none.
Qed.

Lemma fail_seq_star_chr p c r2 x X bef cs k :
  p x = false -> ceq x c = false ->
  rmatch (RSeq (RStar true (RClass p)) (RSeq (RChar c) r2)) (MState bef (x :: X) cs) k = None.
Proof.
  intros Hx Hc.
  change (rmatch (RSeq (RStar true (RClass p)) (RSeq (RChar c) r2)) (MState bef (x :: X) cs) k)
    with (rmatch (RStar true (RClass p)) (MState bef (x :: X) cs)
            (fun st' => rmatch (RSeq (RChar c) r2) st' k)).
  rewrite run_star_class_none by exact Hx.
  cbn [rmatch after before caps]. now rewrite Hc.
Qed.








(** * Plain text *)

Lemma plain_facts t :
  plain t = true ->
  ~ In bsl t /\ ~ In dollar t /\ includes t (str "--") = false /\
  includes t (str "``") = false /\ includes t (str "''") = false.
Proof.
  unfold plain. rewrite !andb_true_iff, !negb_true_iff.
  intros [[[[H1 H2] H3] H4] H5].
  repeat split; try assumption; now apply includes_single.
Qed.

(** No pass finds a match in a text without backslash and dollar
    sign, the dash and quote passes apart. *)
Lemma early_passes_plain t :
  ~ In bsl t -> ~ In dollar t ->
  protectMath t = (t, MathState [] 0) /\
  stripPreamble t = t /\ frontMatter t = ([], t) /\ sections t = t /\
  (forall b, formatting b t = t) /\ lineBreaks t = t /\ mathInPlace t = t /\
  lists t = t /\ references t = t /\ figures t = t /\ verbatim t = t /\
  fallback t = t.
Proof.
  intros Hb Hd.
  assert (Hq : forall re, (exists c P, litprefix re = c :: P /\ (c = bsl \/ c = dollar)) ->
                          includes t (litprefix re) = false).
  { intros re [c [P [E Hc]]]. rewrite E. apply includes_absent.
    destruct Hc; now subst c. }
  split.
  - rewrite protectMath_fold. apply fold_quiet. unfold phase1_passes.
    repeat (constructor;
            [cbn [fst]; apply Hq; eexists; eexists; split; [reflexivity|auto]|]).
    constructor.
  - repeat split; intros;
      unfold stripPreamble, frontMatter, sections, formatting, lineBreaks, mathInPlace,
        lists, references, figures, verbatim, fallback;
      try match goal with b : bool |- _ => destruct b end;
      quiet_passes t ltac:(apply Hq; eexists; eexists; split; [reflexivity|auto]);
      reflexivity.
Qed.

Lemma escapes_plain t : plain t = true -> escapes t = t.
Proof.
  intros H. destruct (plain_facts t H) as [Hb [Hd [Hhy [Hbt Hap]]]].
  unfold escapes.
  quiet_passes t ltac:(first
    [ now apply includes_absent | assumption
    | exact (includes_prefix_false _ (str "--") (str "-") Hhy) ]).
  reflexivity.
Qed.

(** X1.  A text without backslash, dollar sign, doubled hyphen,
    doubled backtick and doubled apostrophe passes every phase of
    [convertLaTeXToHTML] unchanged and is only divided into
    paragraphs. *)
Theorem plain_text_is_only_paragraphed :
  forall t, plain t = true -> convertLaTeXToHTML t = Some (paragraphs t).
Proof.
  intros t H. destruct (plain_facts t H) as [Hb [Hd _]].
  destruct (early_passes_plain t Hb Hd)
    as [H0 [H1 [H2 [H3 [H4 [H5 [H6 [H7 [H8 [H9 [H10 H11]]]]]]]]]]].
  unfold convertLaTeXToHTML. rewrite H0. cbv beta iota.
  rewrite H1, H2. cbv beta iota. rewrite H3, H4, H2. cbv beta iota.
  rewrite H5, H6, H3, H4, H7, H8, H9, H10, H5, (escapes_plain t H), H11.
  reflexivity.
Qed.

Lemma plain_text_is_only_paragraphed_witness :
  plain (str "It's a well-known fact." ++ nl :: nl :: str "Next  one")  = true /\
  convertLaTeXToHTML (str "It's a well-known fact." ++ nl :: nl :: str "Next  one")
  = Some (pOpen ++ str "It's a well-known fact." ++ pClose
          ++ pOpen ++ str "Next  one" ++ pClose).
Proof.
  split; [reflexivity|].
  now rewrite (plain_text_is_only_paragraphed
                 (str "It's a well-known fact." ++ nl :: nl :: str "Next  one") eq_refl).
Defined.

(** * Small facts about characters that do not occur *)

Lemma forallb_not_in c s : forallb (is_not c) s = true -> ~ In c s.
Proof.
  intros H Hin. rewrite forallb_forall in H. apply H in Hin.
  unfold is_not in Hin. now rewrite ceq_refl in Hin.
Qed.

Lemma not_in_cons (c x : char) l : x <> c -> ~ In c l -> ~ In c (x :: l).
Proof. intros Hx Hl [E|Hin]; [congruence|contradiction]. Qed.

Lemma not_head (c : char) b R P :
  ~ In c b -> b <> [] -> starts_with (c :: P) (b ++ R) = false.
Proof.
  intros Hb Hne. destruct b as [|x b]; [congruence|]. simpl.
  destruct (ceq_spec c x) as [->|]; [|reflexivity]. exfalso. apply Hb. now left.
Qed.

Lemma simple_facts close arg :
  simple close arg = true -> ~ In bsl arg /\ ~ In dollar arg /\ ~ In close arg.
Proof.
  unfold simple. rewrite !andb_true_iff. intros [[H1 H2] H3].
  repeat split; now apply no_char_spec.
Qed.

Ltac absent :=
  repeat first
    [ assumption
    | apply forallb_not_in; reflexivity
    | apply not_in_app
    | apply not_in_cons; [now vm_compute|]
    | intros [] ].

(** * Texts in which a pattern cannot begin *)

Lemma inactive_nil P : inactive P [].
Proof. intros a b R E Hb. now destruct a, b. Qed.

Lemma inactive_absent c P t : ~ In c t -> inactive (c :: P) t.
Proof.
  intros Ht a b R E Hb. apply not_head; [|exact Hb].
  intros H. apply Ht. rewrite E. apply in_or_app. now right.
Qed.

Lemma all_clash_suffix P : forall t a b, all_clash P t = true -> t = a ++ b -> all_clash P b = true.
Proof.
  intros t a. revert t. induction a as [|x a IH]; intros t b H E.
  - now subst.
  - subst t. simpl in H. apply andb_true_iff in H. destruct H as [_ H].
    now apply (IH (a ++ b)).
Qed.

Lemma inactive_clash P t : all_clash P t = true -> inactive P t.
Proof.
  intros H a b R E Hb. pose proof (all_clash_suffix P t a b H E) as Hs.
  destruct b as [|x b]; [congruence|]. simpl in Hs. apply andb_true_iff in Hs.
  destruct Hs as [Hc _]. now apply clash_starts_with.
Qed.

Lemma inactive_app P t1 t2 : inactive P t1 -> inactive P t2 -> inactive P (t1 ++ t2).
Proof.
  intros H1 H2 a b R E Hb. apply app_eq_app in E.
  destruct E as [l [[-> ->]|[-> ->]]].
  - destruct l as [|x l].
    + cbn [app]. apply (H2 [] t2 R eq_refl). intros ->. now rewrite app_nil_r in Hb.
    + rewrite <- app_assoc. apply (H1 a (x :: l) (t2 ++ R) eq_refl). discriminate.
  - now apply (H2 l b R eq_refl).
Qed.

(** A content that holds no beginning of the pattern, a backslash behind
    it included, before a command in which the pattern does not begin. *)
Lemma inactive_guarded P b E :
  includes (b ++ [bsl]) P = false -> only_last bsl (tl P) = true ->
  inactive P (bsl :: E) -> inactive P (b ++ bsl :: E).
Proof.
  intros Hb HP HE a x R Eq Hx. apply app_eq_app in Eq.
  destruct Eq as [l [[-> ->]|[-> Eq]]].
  - destruct l as [|y l].
    + cbn [app]. now apply (HE [] (bsl :: E) R eq_refl).
    + destruct (starts_with P (((y :: l) ++ bsl :: E) ++ R)) eqn:Hs; [|reflexivity].
      exfalso. rewrite <- app_assoc in Hs. cbn [app] in Hs.
      destruct P as [|p P].
      { assert (Hnil : includes ((a ++ y :: l) ++ [bsl]) [] = true)
          by (apply includes_spec; now exists [], ((a ++ y :: l) ++ [bsl])).
        congruence. }
      change (starts_with (p :: P) (y :: l ++ bsl :: E ++ R))
        with (ceq p y && starts_with P (l ++ bsl :: E ++ R)) in Hs.
      apply andb_true_iff in Hs. destruct Hs as [Hp Hs].
      cbn [tl] in HP. apply (starts_with_guard bsl (E ++ R) l P HP) in Hs.
      assert (Hin : includes ((a ++ y :: l) ++ [bsl]) (p :: P) = true).
      { apply includes_spec. apply starts_with_spec in Hs. destruct Hs as [r Hr].
        exists a, r. rewrite <- app_assoc. cbn [app]. f_equal.
        destruct (ceq_spec p y) as [->|]; [|discriminate]. cbn [app]. now rewrite Hr. }
      congruence.
  - now apply (HE l x R).
Qed.

Lemma includes_skip_inactive P t R : inactive P t -> includes (t ++ R) P = includes R P.
Proof.
  induction t as [|x t IH]; intros H; [reflexivity|].
  change (includes ((x :: t) ++ R) P)
    with (starts_with P ((x :: t) ++ R) || includes (t ++ R) P).
  rewrite (H [] (x :: t) R eq_refl) by discriminate.
  apply IH. intros a b R' E Hb. apply (H (x :: a) b R'); [now rewrite E|exact Hb].
Qed.

Lemma segments_skip_inactive re t R :
  inactive (litprefix re) t ->
  forall bef,
    segments re bef (t ++ R) 0 = map Lit t ++ segments re (rev t ++ bef) R 0.
Proof.
  induction t as [|x t IH]; intros H bef; [reflexivity|].
  simpl app. rewrite segments_miss.
  - rewrite IH.
    + simpl. now rewrite <- app_assoc.
    + intros a b R' E Hb. apply (H (x :: a) b R'); [now rewrite E|exact Hb].
  - destruct (exec re bef (x :: t ++ R)) eqn:E; [|reflexivity].
    apply exec_litprefix in E.
    change (x :: t ++ R) with ((x :: t) ++ R) in E.
    rewrite (H [] (x :: t) R eq_refl) in E; [discriminate|discriminate].
Qed.

(** * The item pattern *)

Lemma class_steps p : steps_one (rmatch (RClass p)) (fun c => p c = true).
Proof.
  intros [bef s cs] k res H. cbn [rmatch after before caps] in H.
  destruct s as [|x t]; [discriminate|]. destruct (p x) eqn:Hx; [|discriminate].
  exists x, t. repeat split; assumption.
Qed.

Lemma class_char_step p : char_step (rmatch (RClass p)) p.
Proof. intros bef x t cs k. reflexivity. Qed.

(** What a match of a sequence tells about its parts. *)
Lemma inv_seq_lit P r bef s cs k res :
  rmatch (RSeq (lit P) r) (MState bef s cs) k = Some res ->
  exists s', s = P ++ s' /\ rmatch r (MState (rev P ++ bef) s' cs) k = Some res.
Proof.
  cbn [rmatch]. rewrite rmatch_lit. destruct (starts_with P s) eqn:E; [|discriminate].
  apply starts_with_spec in E. destruct E as [s' ->]. intros H. exists s'. split; [reflexivity|].
  now rewrite skipn_app, skipn_all, Nat.sub_diag in H.
Qed.

Lemma inv_star_class g p (K : kont) bef s cs res :
  rmatch (RStar g (RClass p)) (MState bef s cs) K = Some res ->
  exists u s', s = u ++ s' /\ Forall (fun c => p c = true) u /\
               K (MState (rev u ++ bef) s' cs) = Some res.
Proof.
  rewrite rmatch_star_class. intros H.
  apply (star_loop_steps _ _ _ _ (class_steps p)) in H.
  destruct H as [u [s' [E [Hu HK]]]]. now exists u, s'.
Qed.

Lemma inv_seq_plus_class p r bef s cs k res :
  rmatch (RSeq (plus (RClass p)) r) (MState bef s cs) k = Some res ->
  exists w s', s = w ++ s' /\ w <> [] /\ Forall (fun c => p c = true) w /\
               rmatch r (MState (rev w ++ bef) s' cs) k = Some res.
Proof.
  unfold plus. intros H.
  change (rmatch (RClass p) (MState bef s cs)
            (fun st' => rmatch (RStar true (RClass p)) st' (fun st'' => rmatch r st'' k))
          = Some res) in H.
  apply class_steps in H. destruct H as [x [t [E [Hx H]]]]. cbn [after before caps] in *.
  apply inv_star_class in H. destruct H as [u [s' [E' [Hu H]]]].
  exists (x :: u), s'. repeat split.
  - now rewrite E, E'.
  - discriminate.
  - now constructor.
  - simpl rev. now rewrite <- app_assoc.
Qed.

Lemma inv_seq_group_star_class i g p r bef s cs k res :
  rmatch (RSeq (RGroup i (RStar g (RClass p))) r) (MState bef s cs) k = Some res ->
  exists u s', s = u ++ s' /\ Forall (fun c => p c = true) u /\
               rmatch r (MState (rev u ++ bef) s' ((i, u) :: cs)) k = Some res.
Proof.
  intros H.
  change (rmatch (RStar g (RClass p)) (MState bef s cs)
            (fun st' => rmatch r (MState (before st') (after st')
                                    ((i, consumed (MState bef s cs) st') :: caps st')) k)
          = Some res) in H.
  apply inv_star_class in H. destruct H as [u [s' [E [Hu H]]]].
  exists u, s'. repeat split; [exact E|exact Hu|].
  cbn [before after caps] in H. subst s. now rewrite consumed_app in H.
Qed.

Lemma inv_ahead_lits A B bef s cs res :
  rmatch (RAhead true (RAlt (lit A) (lit B))) (MState bef s cs) Some = Some res ->
  res = MState bef s cs /\ (starts_with A s = true \/ starts_with B s = true).
Proof.
  cbn [rmatch]. rewrite !rmatch_lit.
  destruct (starts_with A s); [intros H; injection H as <-; auto|].
  destruct (starts_with B s); [intros H; injection H as <-; auto|discriminate].
Qed.

(** Every match of the item pattern is the item command, white space,
    text on one line, and ends where another item command or an end
    command begins. *)
Lemma item_match bef s st :
  exec re_item bef s = Some st ->
  exists w u,
    s = str "\item" ++ w ++ u ++ after st /\ w <> [] /\
    Forall (fun c => is_space c = true) w /\ Forall (fun c => is_not nl c = true) u /\
    (starts_with (str "\item") (after st) = true
     \/ starts_with (str "\end") (after st) = true).
Proof.
  unfold exec, re_item, spaces1. cbn [seq]. intros H.
  apply inv_seq_lit in H. destruct H as [s1 [E1 H]].
  apply inv_seq_plus_class in H. destruct H as [w [s2 [E2 [Hw [Hsp H]]]]].
  apply inv_seq_group_star_class in H. destruct H as [u [s3 [E3 [Hu H]]]].
  apply inv_ahead_lits in H. destruct H as [-> Hend].
  exists w, u. cbn [after]. repeat split; try assumption. now rewrite E1, E2, E3.
Qed.

Lemma starts_with_head p s x t :
  starts_with p s = true -> p = x :: t -> exists r, s = x :: r.
Proof.
  intros H ->. apply starts_with_spec in H. destruct H as [r ->]. now exists (t ++ r).
Qed.

Lemma prefix_before (P : char -> Prop) c : forall w Y A B,
  w ++ Y = A ++ c :: B -> Forall P w -> ~ P c ->
  exists A', A = w ++ A' /\ Y = A' ++ c :: B.
Proof.
  induction w as [|x w IH]; intros Y A B E Hw Hc.
  - now exists A.
  - inversion Hw as [|? ? Hx Hw']; subst. destruct A as [|a A].
    + simpl in E. injection E as -> _. contradiction.
    + simpl in E. injection E as -> E.
      destruct (IH Y A B E Hw' Hc) as [A' [-> ->]]. now exists A'.
Qed.

(** The last item of a list body is no match: nothing follows it. *)
Lemma last_item_not_matched t bef :
  ~ In bsl t -> exec re_item bef (str "\item " ++ t) = None.
Proof.
  intros Hb.
  destruct (exec re_item bef (str "\item " ++ t)) as [st|] eqn:He; [|reflexivity].
  exfalso. apply item_match in He.
  destruct He as [w [u [E [Hw [Hsp [Hu Hend]]]]]].
  assert (Hafter : exists r, after st = bsl :: r).
  { destruct Hend as [H|H]; eapply starts_with_head in H; try reflexivity; exact H. }
  destruct Hafter as [r Er]. rewrite Er in E.
  change (str "\item " ++ t) with (str "\item" ++ chr " " :: t) in E.
  apply app_inv_head in E.
  assert (Hin : In bsl (chr " " :: t))
    by (rewrite E, !in_app_iff; right; right; now left).
  destruct Hin as [Hin|Hin]; [discriminate|contradiction].
Qed.

(** An item whose text ends its line is no match: the text cannot be
    read beyond the line feed, and no command follows it before. *)
Lemma item_line_not_matched t rest bef :
  ~ In bsl t -> (exists c, In c t /\ is_space c = false) ->
  exec re_item bef (str "\item " ++ t ++ nl :: rest) = None.
Proof.
  intros Hb [c0 [Hc0 Hns]].
  destruct (exec re_item bef (str "\item " ++ t ++ nl :: rest)) as [st|] eqn:He;
    [|reflexivity].
  exfalso. apply item_match in He.
  destruct He as [w [u [E [Hw [Hsp [Hu Hend]]]]]].
  assert (Hafter : exists r, after st = bsl :: r).
  { destruct Hend as [H|H]; eapply starts_with_head in H; try reflexivity; exact H. }
  destruct Hafter as [r Er]. rewrite Er in E.
  change (str "\item " ++ t ++ nl :: rest) with (str "\item" ++ chr " " :: t ++ nl :: rest) in E.
  apply app_inv_head in E.
  apply in_split in Hc0. destruct Hc0 as [t1 [t2 Et]].
  assert (E1 : w ++ u ++ bsl :: r = (chr " " :: t1) ++ c0 :: t2 ++ nl :: rest).
  { rewrite <- E, Et. cbn [app]. now rewrite <- app_assoc. }
  apply (prefix_before (fun c => is_space c = true)) in E1;
    [|exact Hsp|congruence].
  destruct E1 as [A' [EA E2]].
  change (A' ++ c0 :: t2 ++ nl :: rest) with (A' ++ (c0 :: t2) ++ nl :: rest) in E2.
  rewrite app_assoc in E2.
  apply (prefix_before (fun c => is_not nl c = true)) in E2;
    [|exact Hu|unfold is_not; now rewrite ceq_refl].
  destruct E2 as [A'' [EA' E3]].
  destruct A'' as [|x A''].
  - discriminate E3.
  - injection E3 as <- _.
    assert (Hin' : In bsl (A' ++ c0 :: t2))
      by (rewrite EA'; apply in_or_app; right; now left).
    assert (Hin : In bsl (chr " " :: t)).
    { rewrite Et. change (chr " " :: t1 ++ c0 :: t2) with ((chr " " :: t1) ++ c0 :: t2).
      rewrite EA, <- app_assoc. apply in_or_app. now right. }
    destruct Hin as [Hin|Hin]; [discriminate|contradiction].
Qed.

Lemma forallb_run p s : forallb p (run p s) = true.
Proof.
  induction s as [|x s IH]; [reflexivity|]. simpl.
  destruct (p x) eqn:Hx; [simpl; now rewrite Hx|reflexivity].
Qed.

Lemma run_seq_plus_class p r2 y l bef X cs k res :
  forallb p (y :: l) = true ->
  match X with [] => true | x :: _ => negb (p x) end = true ->
  rmatch r2 (MState (rev (y :: l) ++ bef) X cs) k = Some res ->
  rmatch (RSeq (plus (RClass p)) r2) (MState bef ((y :: l) ++ X) cs) k = Some res.
Proof.
  intros Hl HX H. unfold plus. cbn [rmatch after before caps app].
  simpl in Hl. apply andb_true_iff in Hl. destruct Hl as [Hy Hl]. rewrite Hy.
  apply run_star_class; [exact Hl|exact HX|].
  simpl in H. now rewrite <- app_assoc in H.
Qed.

(** A captured lazy run of a class up to a lookahead for one of two
    literals, neither of which begins earlier. *)
Lemma run_group_lazy_class_ahead i p A B u bef X cs :
  forallb p u = true ->
  (forall a b, u = a ++ b -> b <> [] ->
     starts_with A (b ++ X) = false /\ starts_with B (b ++ X) = false) ->
  starts_with A X = true \/ starts_with B X = true ->
  rmatch (RSeq (RGroup i (RStar false (RClass p))) (RAhead true (RAlt (lit A) (lit B))))
         (MState bef (u ++ X) cs) Some
  = Some (MState (rev u ++ bef) X ((i, u) :: cs)).
Proof.
  intros Hu Hearly Hend.
  change (star_loop (rmatch (RClass p)) false
            (fun st' =>
               rmatch (RAhead true (RAlt (lit A) (lit B)))
                 (MState (before st') (after st')
                    ((i, consumed (MState bef (u ++ X) cs) st') :: caps st')) Some)
            (length (u ++ X)) (MState bef (u ++ X) cs)
          = Some (MState (rev u ++ bef) X ((i, u) :: cs))).
  apply (run_lazy_steps _ _ _ (class_char_step p)); [exact Hu| |].
  - intros a b E Hb. destruct (Hearly a b E Hb) as [HA HB].
    cbn [rmatch before after caps]. now rewrite !rmatch_lit, HA, HB.
  - cbn [rmatch before after caps]. rewrite consumed_app, !rmatch_lit.
    destruct Hend as [H|H]; rewrite H; [reflexivity|].
    now destruct (starts_with A X).
Qed.

(** The item pattern at an item on one line that another item command
    or an end command follows. *)
Lemma exec_item t rest bef :
  ~ In bsl t -> ~ In nl t ->
  starts_with (str "\item") rest = true \/ starts_with (str "\end") rest = true ->
  exists bef',
    exec re_item bef (str "\item " ++ t ++ rest)
    = Some (MState bef' rest [(1, drop is_space t)]).
Proof.
  intros Hb Hnl Hend.
  assert (Hrest : exists r, rest = bsl :: r).
  { destruct Hend as [H|H]; eapply starts_with_head in H; try reflexivity; exact H. }
  destruct Hrest as [r Er].
  pose proof (run_drop is_space t) as Hrd.
  assert (Hb' : ~ In bsl (drop is_space t))
    by (intros H; apply Hb; rewrite <- Hrd; apply in_or_app; now right).
  assert (Hnl' : ~ In nl (drop is_space t))
    by (intros H; apply Hnl; rewrite <- Hrd; apply in_or_app; now right).
  eexists. unfold exec, re_item, spaces1. cbn [seq].
  replace (str "\item " ++ t ++ rest)
    with (str "\item" ++ (chr " " :: run is_space t) ++ drop is_space t ++ rest)
    by (cbn [app]; rewrite (app_assoc (run is_space t)), Hrd; reflexivity).
  apply run_seq_lit. apply run_seq_plus_class.
  - cbn [forallb]. now rewrite forallb_run.
  - pose proof (drop_head is_space t) as Hd.
    destruct (drop is_space t) as [|x d]; [now rewrite Er|]. cbn [app]. now rewrite Hd.
  - apply run_group_lazy_class_ahead.
    + now apply not_in_forallb.
    + intros a b E Hne.
      assert (Hbb : ~ In bsl b)
        by (intros H; apply Hb'; rewrite E; apply in_or_app; now right).
      split; now apply not_head.
    + exact Hend.
Qed.

Lemma hits_app_Lit s sgs : hits (map Lit s ++ sgs) = hits sgs.
Proof. induction s as [|c s IH]; [reflexivity|exact IH]. Qed.

Lemma itemList_hits s : itemList s = hits (segments re_item [] s 0).
Proof. unfold itemList, matchAll. now destruct (hits (segments re_item [] s 0)). Qed.

Lemma entry_tail_absent t : ~ In bsl t -> ~ In bsl (str "item " ++ t).
Proof. intros H. apply not_in_app; [apply forallb_not_in; reflexivity|exact H]. Qed.

(** The items of a list body written on one line: all but the last. *)
Lemma hits_entries : forall es bef,
  Forall (fun t => ~ In bsl t /\ ~ In nl t) es ->
  hits (segments re_item bef (concat (map entry es)) 0) = map entry (removelast es).
Proof.
  induction es as [|t es IH]; intros bef Hes; [reflexivity|].
  inversion Hes as [|? ? [Hb Hnl] Hes']; subst.
  destruct es as [|t' es'].
  - cbn [map concat removelast]. rewrite app_nil_r. unfold entry.
    change (str "\item " ++ t) with (bsl :: str "item " ++ t).
    rewrite segments_miss by (apply (last_item_not_matched t); exact Hb).
    rewrite segments_no_occurrence by (apply includes_absent, entry_tail_absent, Hb).
    cbn [hits]. rewrite <- (app_nil_r (map Lit _)). apply hits_app_Lit.
  - change (concat (map entry (t :: t' :: es')))
      with (entry t ++ concat (map entry (t' :: es'))).
    set (rest := concat (map entry (t' :: es'))) in *.
    destruct (exec_item t rest bef Hb Hnl (or_introl eq_refl)) as [bef' He].
    unfold entry at 1.
    rewrite (segments_hit re_item bef (str "\item " ++ t) rest _
               ltac:(rewrite <- app_assoc; exact He) eq_refl ltac:(discriminate)).
    cbn [hits m_text]. change (removelast (t :: t' :: es')) with (t :: removelast (t' :: es')).
    cbn [map]. f_equal. now apply IH.
Qed.

(** The items of a list body written one on a line: none. *)
Lemma hits_lines : forall ls bef,
  Forall (fun t => ~ In bsl t /\ exists c, In c t /\ is_space c = false) ls ->
  hits (segments re_item bef (concat (map entryLine ls)) 0) = [].
Proof.
  induction ls as [|t ls IH]; intros bef Hls; [reflexivity|].
  inversion Hls as [|? ? [Hb Hc] Hls']; subst.
  change (concat (map entryLine (t :: ls)))
    with (entryLine t ++ concat (map entryLine ls)).
  set (rest := concat (map entryLine ls)).
  unfold entryLine at 1.
  replace ((str "\item " ++ t ++ [nl]) ++ rest)
    with (bsl :: (str "item " ++ t ++ [nl]) ++ rest)
    by (cbn [app]; now rewrite <- !app_assoc).
  rewrite segments_miss.
  - rewrite (segments_skip_absent re_item bsl (str "item") _ _ eq_refl).
    + cbn [hits]. rewrite hits_app_Lit. now apply IH.
    + apply not_in_app; [apply forallb_not_in; reflexivity|].
      apply not_in_app; [exact Hb|]. apply forallb_not_in. reflexivity.
  - pose proof (item_line_not_matched t rest bef Hb Hc) as H.
    replace (bsl :: (str "item " ++ t ++ [nl]) ++ rest)
      with (str "\item " ++ t ++ nl :: rest)
      by (cbn [app]; now rewrite <- !app_assoc).
    exact H.
Qed.

Lemma trim_start_drop s : trim_start s = drop is_space s.
Proof. induction s as [|x s IH]; [reflexivity|]. simpl. now rewrite IH. Qed.

Lemma drop_drop p s : drop p (drop p s) = drop p s.
Proof.
  pose proof (drop_head p s) as H. destruct (drop p s) as [|x d]; [reflexivity|].
  simpl. now rewrite H.
Qed.

Lemma trim_drop t : trim (drop is_space t) = trim t.
Proof. unfold trim. now rewrite !trim_start_drop, drop_drop. Qed.

(** The text of an item: the item command and the white space behind
    it are cut off, the rest is trimmed. *)
Lemma itemText_entry t : ~ In bsl t -> itemText (entry t) = trim t.
Proof.
  intros Hb. unfold itemText, replaceFirst, match1, entry.
  assert (He : exec re_item_head [] (str "\item " ++ t)
               = Some (MState (rev (run is_space t) ++ rev (str "\item ")) (drop is_space t) [])).
  { unfold exec, re_item_head, spaces1, plus. cbn [seq].
    change (str "\item " ++ t) with (str "\item" ++ chr " " :: t).
    apply run_lit. cbn [rmatch after before caps].
    change (is_space (chr " ")) with true. cbv iota.
    exact (star_class_Some is_space t _ []). }
  pose proof (run_drop is_space t) as Hrd.
  assert (E : str "\item " ++ t = (str "\item " ++ run is_space t) ++ drop is_space t)
    by (rewrite <- app_assoc; now rewrite Hrd).
  rewrite E at 1.
  rewrite (segments_hit re_item_head [] _ _ _ ltac:(rewrite <- E; exact He) eq_refl
             ltac:(discriminate)).
  cbn [first_hit m_pre m_post rev app expand].
  rewrite trim_drop.
  assert (Ht : ~ In bsl (trim t)) by (intros H; apply Hb; now apply trim_incl in H).
  rewrite (replace_id (re_cmd_cap (str "textbf")))
    by exact (includes_absent bsl (str "textbf{") (trim t) Ht).
  now rewrite (replace_id (re_cmd_cap (str "textit")))
    by exact (includes_absent bsl (str "textit{") (trim t) Ht).
Qed.

(** * Documents: the items as written and as converted *)

Lemma idle_part P n s part :
  idle_check P n = true -> listed s part = true -> n <= s -> all_clash P part = true.
Proof.
  unfold idle_check, listed. intros H Hl Hn.
  rewrite !andb_true_iff in H. destruct H as [[H _] _]. rewrite forallb_forall in H.
  apply existsb_exists in Hl. destruct Hl as [[s' part'] [Hin Heq]].
  apply andb_true_iff in Heq. destruct Heq as [Hs Hp]. cbn [fst snd] in *.
  apply Nat.eqb_eq in Hs. apply streq_eq in Hp. subst s' part'.
  apply H in Hin. cbn [fst snd] in Hin. apply orb_true_iff in Hin.
  destruct Hin as [Hlt|Hc]; [|exact Hc]. apply Nat.ltb_lt in Hlt. lia.
Qed.

Lemma head_listed it : listed (stage it) (item_head it) = true \/ item_head it = [].
Proof.
  destruct it as [t|k a|k a b|o a|w|t|e|env body|o es|o ls|o dd f|body];
    [right; reflexivity| | | | |right; reflexivity| | | | | |];
    left;
    try destruct k; try destruct w; try destruct e; try destruct env;
    repeat match goal with b : bool |- _ => destruct b end;
    vm_compute; reflexivity.
Qed.

Lemma removable_facts env body :
  removable env body = true ->
  Forall (fun re => includes (body ++ [bsl]) (litprefix re) = false) (patterns_before env)
  /\ includes (body ++ [bsl]) (terminator env) = false
  /\ ~ In dollar body.
Proof.
  unfold removable. rewrite !andb_true_iff. intros [[H1 H2] _].
  assert (HF : Forall (fun re => includes (body ++ [bsl]) (litprefix re) = false)
                      (patterns_before env)).
  { apply Forall_forall. intros re Hre. rewrite forallb_forall in H1.
    apply negb_true_iff. now apply H1. }
  repeat split; [exact HF|now apply negb_true_iff|].
  assert (Hd : includes (body ++ [bsl]) [dollar] = false).
  { rewrite Forall_forall in HF. apply (HF re_inline).
    destruct env; unfold patterns_before, patterns_before_abstract;
      repeat first [left; reflexivity | right | apply in_or_app; left]. }
  apply includes_single in Hd. intros Hin. apply Hd. apply in_or_app. now left.
Qed.

(** The content of a removed environment, with the command that ends
    the environment, holds no beginning of a pattern of an earlier
    pass. *)
Lemma removed_body_inactive env body P n E :
  removable env body = true -> idle_check (bsl :: P) n = true ->
  n <= stage (Removed env body) ->
  listed (stage (Removed env body)) (bsl :: E) = true ->
  inactive (bsl :: P) (body ++ bsl :: E).
Proof.
  intros Hrem Hidle Hn Hl.
  destruct (removable_facts env body Hrem) as [HF _].
  pose proof (idle_part _ _ _ _ Hidle Hl Hn) as Hclash.
  unfold idle_check in Hidle. rewrite !andb_true_iff in Hidle.
  destruct Hidle as [[_ Hb] _].
  cbn [forallb] in Hb. rewrite !andb_true_iff in Hb. destruct Hb as [Ha [Ht [Htb _]]].
  assert (Hpat : existsb (fun re => streq (bsl :: P) (litprefix re)) (patterns_before env)
                 && only_last bsl (tl (bsl :: P)) = true).
  { destruct env as [|s|cols]; [clear Ht Htb|clear Ha Htb|clear Ha Ht];
      match goal with H : _ || _ = true |- _ =>
        apply orb_true_iff in H; destruct H as [H|H]; [|exact H];
        apply Nat.ltb_lt in H; cbn [stage] in Hn, H; lia
      end. }
  apply andb_true_iff in Hpat. destruct Hpat as [Hex Hguard].
  apply existsb_exists in Hex. destruct Hex as [re [Hre Heq]].
  apply streq_eq in Heq. rewrite Forall_forall in HF. specialize (HF re Hre).
  rewrite <- Heq in HF.
  apply inactive_guarded; [exact HF|exact Hguard|now apply inactive_clash].
Qed.

Lemma entries_inactive P es :
  all_clash (bsl :: P) (str "\item ") = true ->
  Forall (fun t => ~ In bsl t) es ->
  inactive (bsl :: P) (concat (map entry es)).
Proof.
  intros Hc. induction 1 as [|t es Ht _ IH]; [apply inactive_nil|].
  cbn [map concat]. unfold entry at 1. rewrite <- app_assoc.
  apply inactive_app; [now apply inactive_clash|].
  apply inactive_app; [now apply inactive_absent|exact IH].
Qed.

Lemma lines_inactive P ls :
  all_clash (bsl :: P) (str "\item ") = true ->
  Forall (fun t => ~ In bsl t) ls ->
  inactive (bsl :: P) (concat (map entryLine ls)).
Proof.
  intros Hc. induction 1 as [|t ls Ht _ IH]; [apply inactive_nil|].
  cbn [map concat]. unfold entryLine at 1. rewrite <- !app_assoc.
  apply inactive_app; [now apply inactive_clash|].
  apply inactive_app; [now apply inactive_absent|].
  apply inactive_app; [apply inactive_absent; absent|exact IH].
Qed.

Lemma entries_ok_facts es :
  forallb (fun t => no_char bsl t && no_char dollar t && no_char nl t) es = true ->
  Forall (fun t => ~ In bsl t /\ ~ In dollar t /\ ~ In nl t) es.
Proof.
  intros H. apply Forall_forall. intros t Ht. rewrite forallb_forall in H.
  apply H in Ht. rewrite !andb_true_iff in Ht. destruct Ht as [[H1 H2] H3].
  repeat split; now apply no_char_spec.
Qed.

Lemma lines_ok_facts ls :
  forallb (fun t => no_char bsl t && no_char dollar t
                    && existsb (fun c => negb (is_space c)) t) ls = true ->
  Forall (fun t => ~ In bsl t /\ ~ In dollar t /\ exists c, In c t /\ is_space c = false) ls.
Proof.
  intros H. apply Forall_forall. intros t Ht. rewrite forallb_forall in H.
  apply H in Ht. rewrite !andb_true_iff in Ht. destruct Ht as [[H1 H2] H3].
  repeat split; try now apply no_char_spec.
  apply existsb_exists in H3. destruct H3 as [c [Hc Hs]]. exists c. split; [exact Hc|].
  now apply negb_true_iff.
Qed.

Lemma image_ok_facts o dd f :
  item_ok (Image o dd f) = true ->
  (forall c, c = bsl \/ c = dollar -> ~ In c (bracketed o)) /\
  ~ In (chr "]") (match o with Some o => o | None => [] end) /\
  (forall c, c = bsl \/ c = dollar \/ c = chr "}" -> ~ In c (imagePath dd f)) /\
  ~ In (chr "/") f /\ f <> [] /\ ~ In bsl f /\ ~ In dollar f.
Proof.
  cbn [item_ok]. rewrite !andb_true_iff. intros [[[[Ho Hd] Hf] Hs] Hne].
  apply simple_facts in Hf. destruct Hf as [Hf1 [Hf2 Hf3]].
  apply no_char_spec in Hs.
  assert (Ho' : (forall c, c = bsl \/ c = dollar -> ~ In c (bracketed o)) /\
                ~ In (chr "]") (match o with Some o => o | None => [] end)).
  { destruct o as [o|]; [|split; [intros c _ []|intros []]].
    apply simple_facts in Ho. destruct Ho as [Ho1 [Ho2 Ho3]].
    split; [|exact Ho3]. intros c [->| ->]; cbn [bracketed]; absent. }
  destruct Ho' as [Ho1 Ho2].
  repeat split; try assumption.
  - intros c Hc. destruct dd as [d|]; cbn [imagePath].
    + apply simple_facts in Hd. destruct Hd as [Hd1 [Hd2 Hd3]].
      destruct Hc as [->|[->| ->]]; absent.
    + destruct Hc as [->|[->| ->]]; assumption.
  - now destruct f.
Qed.

(** A line break and the text behind it: the patterns of the earlier
    passes continue, behind their backslash, with a letter or an
    opening bracket, which is neither the second backslash nor the
    character that follows it. *)
Lemma break_inactive t P n :
  item_ok (Break t) = true -> idle_check (bsl :: P) n = true -> n <= stage (Break t) ->
  inactive (bsl :: P) (str "\\" ++ t).
Proof.
  cbn [item_ok]. rewrite !andb_true_iff. intros [[Hc Hb] _] Hidle Hn.
  apply no_char_spec in Hb.
  unfold idle_check in Hidle. rewrite !andb_true_iff in Hidle. destruct Hidle as [_ Hx].
  apply orb_true_iff in Hx. destruct Hx as [Hx|Hx];
    [apply Nat.ltb_lt in Hx; cbn [stage] in Hn, Hx; lia|].
  destruct P as [|x P]; [discriminate|].
  destruct t as [|c t]; [discriminate|].
  apply negb_true_iff in Hc.
  assert (Hxb : ceq x bsl = false)
    by (destruct (ceq_spec x bsl) as [->|]; [discriminate Hx|reflexivity]).
  assert (Hxc : ceq x c = false)
    by (destruct (ceq_spec x c) as [->|]; [congruence|reflexivity]).
  assert (Hcb : ceq bsl c = false).
  { destruct (ceq_spec bsl c) as [<-|]; [|reflexivity]. exfalso. apply Hb. now left. }
  change (str "\\" ++ c :: t) with ([bsl; bsl; c] ++ t).
  apply inactive_app.
  - apply inactive_clash. cbn [all_clash clash]. rewrite ceq_refl, Hxb, Hxc, Hcb. reflexivity.
  - apply inactive_absent. intros H. apply Hb. now right.
Qed.

(** No pattern of a pass at or before the item's own begins in the
    item as written. *)
Lemma item_source_inactive it P n :
  item_ok it = true -> idle_check (bsl :: P) n = true -> n <= stage it ->
  inactive (bsl :: P) (item_source it).
Proof.
  intros Hok Hidle Hn. unfold item_source.
  assert (Hhead : inactive (bsl :: P) (item_head it)).
  { destruct (head_listed it) as [Hl|E]; [|rewrite E; apply inactive_nil].
    apply inactive_clash. now apply (idle_part _ n (stage it)). }
  apply inactive_app; [exact Hhead|]. clear Hhead.
  assert (Hpart : forall part, listed (stage it) part = true ->
                               inactive (bsl :: P) part)
    by (intros part Hl; apply inactive_clash; now apply (idle_part _ n (stage it))).
  destruct it as [t|k a|k a b|o a|w|t|e|env body|o es|o ls|o dd f|body];
    cbn [item_tail]; cbn [item_ok] in Hok.
  - apply andb_true_iff in Hok. destruct Hok as [H _]. apply no_char_spec in H.
    now apply inactive_absent.
  - apply andb_true_iff in Hok. destruct Hok as [H _].
    apply simple_facts in H. destruct H as [H _]. apply inactive_absent. absent.
  - apply andb_true_iff in Hok. destruct Hok as [Ha Hb].
    apply simple_facts in Ha, Hb. destruct Ha as [Ha _], Hb as [Hb _].
    apply inactive_absent. absent.
  - apply andb_true_iff in Hok. destruct Hok as [Ho Ha].
    apply simple_facts in Ha. destruct Ha as [Ha _]. apply inactive_absent.
    destruct o as [o|]; cbn [bracketed].
    + apply simple_facts in Ho. destruct Ho as [Ho _]. absent.
    + absent.
  - apply inactive_nil.
  - now apply (break_inactive t P n).
  - apply inactive_nil.
  - destruct env as [|s|cols].
    + apply (removed_body_inactive abstractEnv body P n); try assumption. reflexivity.
    + destruct s;
        [apply (removed_body_inactive (table true) body P n)
        |apply (removed_body_inactive (table false) body P n)];
        try assumption; reflexivity.
    + replace (chr "{" :: cols ++ chr "}" :: body ++ str "\end{tabular}")
        with ((chr "{" :: cols ++ [chr "}"]) ++ body ++ str "\end{tabular}")
        by (cbn [app]; now rewrite <- app_assoc).
      apply inactive_app.
      * unfold removable in Hok. rewrite !andb_true_iff in Hok.
        destruct Hok as [_ Hc]. apply simple_facts in Hc. destruct Hc as [Hc _].
        apply inactive_absent. absent.
      * apply (removed_body_inactive (tabular cols) body P n); try assumption.
        reflexivity.
  - apply inactive_app.
    + apply entries_inactive.
      * destruct o; eapply (idle_part _ n); try eassumption; reflexivity.
      * apply entries_ok_facts in Hok. eapply Forall_impl; [|exact Hok]. now intros t [H _].
    + destruct o; apply Hpart; reflexivity.
  - change (nl :: concat (map entryLine ls) ++ str "\end{" ++ listName o ++ [chr "}"])
      with ([nl] ++ concat (map entryLine ls) ++ str "\end{" ++ listName o ++ [chr "}"]).
    apply inactive_app; [apply inactive_absent; absent|].
    apply inactive_app.
    + apply lines_inactive.
      * destruct o; eapply (idle_part _ n); try eassumption; reflexivity.
      * apply lines_ok_facts in Hok. eapply Forall_impl; [|exact Hok]. now intros t [H _].
    + destruct o; apply Hpart; reflexivity.
  - destruct (image_ok_facts o dd f Hok) as [Ho [_ [Hp _]]].
    apply inactive_absent. apply not_in_app; [apply Ho; auto|].
    apply not_in_cons; [now vm_compute|]. apply not_in_app; [apply Hp; auto|absent].
  - apply andb_true_iff in Hok. destruct Hok as [H _]. apply no_char_spec in H.
    apply inactive_app; [now apply inactive_absent|]. apply Hpart. reflexivity.
Qed.

Lemma num_no c n : is_digit c = false -> ~ In c (num n).
Proof. intros Hc Hin. apply num_digits in Hin. congruence. Qed.

Lemma trim_absent c t : ~ In c t -> ~ In c (trim t).
Proof. intros H Hin. apply H. now apply trim_incl in Hin. Qed.

Lemma concat_absent (c : char) l : Forall (fun s => ~ In c s) l -> ~ In c (concat l).
Proof.
  induction 1 as [|s l Hs _ IH]; [intros []|]. cbn [concat]. now apply not_in_app.
Qed.

Lemma mapi_absent (c : char) (f : jsstring -> N -> jsstring) (P : jsstring -> Prop) l :
  (forall t idx, P t -> ~ In c (f t idx)) -> Forall P l ->
  forall idx, Forall (fun s => ~ In c s) (mapi f l idx).
Proof.
  intros Hf. induction 1 as [|t l Ht _ IH]; intros idx; cbn [mapi]; constructor; auto.
Qed.

Lemma Forall_removelast {A : Type} (P : A -> Prop) l : Forall P l -> Forall P (removelast l).
Proof.
  induction 1 as [|x l Hx Hl IH]; [constructor|].
  destruct l as [|y l]; [constructor|]. cbn [removelast]. constructor; [exact Hx|exact IH].
Qed.

(** A list shows no character that is neither in its markup nor in
    its items. *)
Lemma listMarkup_absent c o l :
  c = bsl \/ c = dollar ->
  Forall (fun t => ~ In c t) l -> ~ In c (listMarkup o l).
Proof.
  intros Hc Hl. unfold listMarkup.
  assert (Hd : is_digit c = false) by (destruct Hc; now subst c).
  destruct o; cbn [listOpen listClose];
    (apply not_in_app; [destruct Hc; subst c; absent|]);
    (apply not_in_app; [|destruct Hc; subst c; absent]).
  - apply concat_absent.
    apply (mapi_absent c numberedItem (fun t => ~ In c t)); [|exact Hl].
    intros t idx Ht. unfold numberedItem.
    apply not_in_app; [destruct Hc; subst c; absent|].
    apply not_in_app; [now apply num_no|].
    apply not_in_cons; [destruct Hc; subst c; now vm_compute|].
    apply not_in_app; [destruct Hc; subst c; absent|].
    apply not_in_app; [now apply trim_absent|destruct Hc; subst c; absent].
  - apply concat_absent. apply Forall_map. eapply Forall_impl; [|exact Hl].
    intros t Ht. unfold bulletItem.
    apply not_in_app; [destruct Hc; subst c; absent|].
    apply not_in_app; [destruct Hc; subst c; absent|].
    apply not_in_app; [destruct Hc; subst c; absent|].
    apply not_in_app; [now apply trim_absent|destruct Hc; subst c; absent].
Qed.

(** What the converter makes of an item has no backslash and no dollar
    sign. *)
Lemma item_markup_absent it c :
  item_ok it = true -> c = bsl \/ c = dollar -> ~ In c (item_markup it).
Proof.
  intros Hok Hc.
  destruct it as [t|k a|k a b|o a|w|t|e|env body|o es|o ls|o dd f|body];
    cbn [item_ok] in Hok; cbn [item_markup].
  - apply andb_true_iff in Hok. destruct Hok as [H1 H2].
    apply no_char_spec in H1, H2. destruct Hc; now subst c.
  - apply andb_true_iff in Hok. destruct Hok as [H _].
    apply simple_facts in H. destruct H as [H1 [H2 _]].
    destruct Hc; subst c; destruct k; cbn [commandMarkup]; absent.
  - apply andb_true_iff in Hok. destruct Hok as [Ha _].
    apply simple_facts in Ha. destruct Ha as [H1 [H2 _]].
    destruct Hc; subst c; destruct k; absent.
  - intros [].
  - destruct Hc; subst c; destruct w; absent.
  - rewrite !andb_true_iff in Hok. destruct Hok as [[_ H1] H2].
    apply no_char_spec in H1, H2. destruct Hc; subst c; absent.
  - destruct Hc; subst c; destruct e; absent.
  - intros [].
  - apply listMarkup_absent; [exact Hc|]. apply Forall_removelast.
    apply entries_ok_facts in Hok. eapply Forall_impl; [|exact Hok].
    intros t [H1 [H2 _]]. destruct Hc; now subst c.
  - apply listMarkup_absent; [exact Hc|constructor].
  - destruct (image_ok_facts o dd f Hok) as [_ [_ [_ [_ [_ [Hb Hd]]]]]].
    destruct Hc; subst c; absent.
  - apply andb_true_iff in Hok. destruct Hok as [H1 H2]. apply no_char_spec in H1, H2.
    destruct Hc; subst c;
      (apply not_in_app; [absent|]); (apply not_in_app; [now apply trim_absent|absent]).
Qed.

Lemma item_markup_no_bsl it : item_ok it = true -> ~ In bsl (item_markup it).
Proof. intros H. apply item_markup_absent; auto. Qed.

(** The items as written have no dollar sign. *)
Lemma item_source_no_dollar it : item_ok it = true -> ~ In dollar (item_source it).
Proof.
  intros Hok. unfold item_source.
  destruct it as [t|k a|k a b|o a|w|t|e|env body|o es|o ls|o dd f|body];
    cbn [item_ok] in Hok; cbn [item_head item_tail].
  - apply andb_true_iff in Hok. destruct Hok as [_ H]. now apply no_char_spec in H.
  - apply andb_true_iff in Hok. destruct Hok as [H _].
    apply simple_facts in H. destruct H as [_ [H _]].
    destruct k; repeat match goal with b : bool |- _ => destruct b end; absent.
  - apply andb_true_iff in Hok. destruct Hok as [Ha Hb].
    apply simple_facts in Ha, Hb. destruct Ha as [_ [Ha _]], Hb as [_ [Hb _]].
    destruct k; absent.
  - apply andb_true_iff in Hok. destruct Hok as [Ho Ha].
    apply simple_facts in Ha. destruct Ha as [_ [Ha _]].
    destruct o as [o|]; cbn [bracketed].
    + apply simple_facts in Ho. destruct Ho as [_ [Ho _]]. absent.
    + absent.
  - destruct w; absent.
  - rewrite !andb_true_iff in Hok. destruct Hok as [_ H]. apply no_char_spec in H. absent.
  - destruct e; absent.
  - destruct (removable_facts env body Hok) as [_ [_ Hd]].
    assert (Hc : match env with tabular cols => ~ In dollar cols | _ => True end).
    { unfold removable in Hok. rewrite !andb_true_iff in Hok. destruct Hok as [_ Hc].
      destruct env; [exact I|exact I|]. apply simple_facts in Hc. tauto. }
    destruct env as [|s|cols]; [|destruct s|]; absent.
  - apply entries_ok_facts in Hok.
    assert (Hb : ~ In dollar (concat (map entry es))).
    { apply concat_absent, Forall_map. eapply Forall_impl; [|exact Hok].
      intros t [_ [H _]]. unfold entry. absent. }
    destruct o; absent.
  - apply lines_ok_facts in Hok.
    assert (Hb : ~ In dollar (concat (map entryLine ls))).
    { apply concat_absent, Forall_map. eapply Forall_impl; [|exact Hok].
      intros t [_ [H _]]. unfold entryLine. absent. }
    destruct o; absent.
  - destruct (image_ok_facts o dd f Hok) as [Ho [_ [Hp _]]].
    apply not_in_app; [absent|]. apply not_in_app; [apply Ho; auto|].
    apply not_in_cons; [now vm_compute|]. apply not_in_app; [apply Hp; auto|absent].
  - apply andb_true_iff in Hok. destruct Hok as [_ H]. apply no_char_spec in H. absent.
Qed.

Lemma emit_cons n it d : emit n (it :: d) = shown n it ++ emit n d.
Proof. reflexivity. Qed.

(** A pattern that begins with a backslash, and with which no item
    still as written can begin, occurs nowhere. *)
Lemma emit_quiet P n d :
  idle_check (bsl :: P) n = true -> forallb item_ok d = true ->
  includes (emit n d) (bsl :: P) = false.
Proof.
  intros Hidle. induction d as [|it d IH]; intros Hok; [reflexivity|].
  simpl in Hok. apply andb_true_iff in Hok. destruct Hok as [Hitem Hd].
  rewrite emit_cons. unfold shown. destruct (stage it <? n) eqn:Hs.
  - rewrite includes_skip_absent by now apply item_markup_no_bsl. now apply IH.
  - apply Nat.ltb_ge in Hs.
    rewrite includes_skip_inactive by now apply (item_source_inactive it P n).
    now apply IH.
Qed.

(** There is no dollar sign at any stage. *)
Lemma emit_no_dollar n d : forallb item_ok d = true -> ~ In dollar (emit n d).
Proof.
  induction d as [|it d IH]; intros Hok; [intros []|].
  simpl in Hok. apply andb_true_iff in Hok. destruct Hok as [Hitem Hd].
  rewrite emit_cons. apply not_in_app; [|now apply IH].
  unfold shown. destruct (stage it <? n).
  - apply item_markup_absent; auto.
  - now apply item_source_no_dollar.
Qed.

(** The pass of stage [n]: it rewrites the items of its stage, each of
    which it matches from its beginning up to a rest without backslash,
    and leaves everything else as it is. *)
Lemma pass_fires_partly re f n P :
  litprefix re = bsl :: P ->
  idle_check (bsl :: P) (S n) = true ->
  (forall it, item_ok it = true -> stage it = n ->
     exists matched behind,
       item_source it = matched ++ behind /\ matched <> [] /\ ~ In bsl behind /\
       forall bef rest, exists bef' cs,
         exec re bef (matched ++ behind ++ rest) = Some (MState bef' (behind ++ rest) cs) /\
         forall pre post, f (MInfo matched cs pre post) ++ behind = item_markup it) ->
  forall d, forallb item_ok d = true ->
  replaceWith re f (emit n d) = emit (S n) d.
Proof.
  intros Hlp Hidle Hfire d Hok. unfold replaceWith.
  enough (H : forall bef,
             flat_map (fun sg => match sg with Lit c => [c] | Hit m => f m end)
                      (segments re bef (emit n d) 0) = emit (S n) d) by apply H.
  induction d as [|it d IH]; intros bef.
  - simpl. destruct (exec re bef []) eqn:E; [|reflexivity].
    apply exec_litprefix in E. rewrite Hlp in E. discriminate.
  - simpl in Hok. apply andb_true_iff in Hok. destruct Hok as [Hitem Hd].
    specialize (IH Hd). rewrite !emit_cons. unfold shown.
    destruct (Nat.lt_trichotomy (stage it) n) as [Hlt|[Heq|Hgt]].
    + assert (E1 : (stage it <? n) = true) by (apply Nat.ltb_lt; lia).
      assert (E2 : (stage it <? S n) = true) by (apply Nat.ltb_lt; lia).
      rewrite E1, E2.
      rewrite (segments_skip_absent re bsl P _ _ Hlp (item_markup_no_bsl it Hitem)).
      now rewrite flat_map_app, flat_map_Lit, IH.
    + assert (E1 : (stage it <? n) = false) by (apply Nat.ltb_ge; lia).
      assert (E2 : (stage it <? S n) = true) by (apply Nat.ltb_lt; lia).
      rewrite E1, E2.
      destruct (Hfire it Hitem Heq) as [matched [behind [Es [Hne [Hb Hex]]]]].
      destruct (Hex bef (emit n d)) as [bef' [cs [He Hf]]].
      rewrite Es, <- app_assoc.
      rewrite (segments_hit re bef _ _ _ He eq_refl Hne).
      cbn [flat_map caps].
      rewrite (segments_skip_absent re bsl P _ _ Hlp Hb).
      rewrite flat_map_app, flat_map_Lit, IH, app_assoc. now rewrite Hf.
    + assert (E1 : (stage it <? n) = false) by (apply Nat.ltb_ge; lia).
      assert (E2 : (stage it <? S n) = false) by (apply Nat.ltb_ge; lia).
      rewrite E1, E2.
      rewrite segments_skip_inactive
        by (rewrite Hlp; apply (item_source_inactive it P (S n)); [assumption|assumption|lia]).
      now rewrite !flat_map_app, !flat_map_Lit, IH.
Qed.

(** The same for a pass that matches its items whole. *)
Lemma pass_fires re f n P :
  litprefix re = bsl :: P ->
  idle_check (bsl :: P) (S n) = true ->
  (forall it, item_ok it = true -> stage it = n ->
     item_source it <> [] /\
     forall bef rest, exists bef' cs,
       exec re bef (item_source it ++ rest) = Some (MState bef' rest cs) /\
       forall pre post, f (MInfo (item_source it) cs pre post) = item_markup it) ->
  forall d, forallb item_ok d = true ->
  replaceWith re f (emit n d) = emit (S n) d.
Proof.
  intros Hlp Hidle Hfire. apply (pass_fires_partly re f n P Hlp Hidle).
  intros it Hok Hs. destruct (Hfire it Hok Hs) as [Hne Hex].
  exists (item_source it), []. rewrite app_nil_r. repeat split; [exact Hne|intros []|].
  intros bef rest. destruct (Hex bef rest) as [bef' [cs [He Hf]]].
  exists bef', cs. split; [exact He|]. intros pre post. now rewrite app_nil_r.
Qed.

(** The patterns of the one-argument commands on a command as written. *)
Lemma exec_cmd0 name a bef rest :
  ~ In (chr "}") a ->
  exists bef',
    exec (re_cmd0 name) bef (bsl :: name ++ chr "{" :: a ++ chr "}" :: rest)
    = Some (MState bef' rest []).
Proof.
  intros Ha. apply not_in_forallb in Ha. eexists.
  unfold exec, re_cmd0, arg_star. cbn [seq].
  apply run_seq_chr. apply run_seq_lit. apply run_seq_chr.
  apply run_seq_star_class; [exact Ha|reflexivity|].
  now apply run_chr.
Qed.

Lemma exec_cmd00 name a b bef rest :
  ~ In (chr "}") a -> ~ In (chr "}") b ->
  exists bef',
    exec (re_cmd00 name) bef
         (bsl :: name ++ chr "{" :: a ++ chr "}" :: chr "{" :: b ++ chr "}" :: rest)
    = Some (MState bef' rest []).
Proof.
  intros Ha Hb. apply not_in_forallb in Ha, Hb. eexists.
  unfold exec, re_cmd00, arg_star. cbn [seq].
  apply run_seq_chr. apply run_seq_lit. apply run_seq_chr.
  apply run_seq_star_class; [exact Ha|reflexivity|].
  apply run_seq_chr. apply run_seq_chr.
  apply run_seq_star_class; [exact Hb|reflexivity|].
  now apply run_chr.
Qed.

Lemma exec_cmd_cap name y l bef rest :
  ~ In (chr "}") (y :: l) ->
  exists bef',
    exec (re_cmd_cap name) bef (bsl :: name ++ chr "{" :: (y :: l) ++ chr "}" :: rest)
    = Some (MState bef' rest [(1, y :: l)]).
Proof.
  intros Ha. apply not_in_forallb in Ha. eexists.
  unfold exec, re_cmd_cap, arg_plus. cbn [seq].
  apply run_seq_chr. apply run_seq_lit. apply run_seq_chr.
  apply run_seq_group_plus_class; [exact Ha|reflexivity|].
  now apply run_chr.
Qed.

Lemma exec_cmd_cap0 name a bef rest :
  ~ In (chr "}") a ->
  exists bef',
    exec (re_cmd_cap0 name) bef (bsl :: name ++ chr "{" :: a ++ chr "}" :: rest)
    = Some (MState bef' rest [(1, a)]).
Proof.
  intros Ha. apply not_in_forallb in Ha. eexists.
  unfold exec, re_cmd_cap0, arg_star. cbn [seq].
  apply run_seq_chr. apply run_seq_lit. apply run_seq_chr.
  apply run_seq_group_star_class; [exact Ha|reflexivity|].
  now apply run_chr.
Qed.

Lemma exec_cmd_star_cap name s y l bef rest :
  ~ In (chr "}") (y :: l) ->
  exists bef',
    exec (re_cmd_star_cap name) bef
         (bsl :: name ++ star_suffix s ++ chr "{" :: (y :: l) ++ chr "}" :: rest)
    = Some (MState bef' rest [(1, y :: l)]).
Proof.
  intros Ha. apply not_in_forallb in Ha.
  destruct s; eexists; unfold exec, re_cmd_star_cap, arg_plus, opt_star; cbn [seq];
    apply run_seq_chr; apply run_seq_lit; cbn [star_suffix app].
  - apply run_seq_opt_take. apply run_seq_chr.
    apply run_seq_group_plus_class; [exact Ha|reflexivity|].
    now apply run_chr.
  - apply run_seq_opt_skip; [reflexivity|]. apply run_seq_chr.
    apply run_seq_group_plus_class; [exact Ha|reflexivity|].
    now apply run_chr.
Qed.

Lemma exec_texorpdfstring a b bef rest :
  ~ In (chr "}") a -> ~ In (chr "}") b ->
  exists bef',
    exec re_texorpdfstring bef
         (str "\texorpdfstring{" ++ a ++ chr "}" :: chr "{" :: b ++ chr "}" :: rest)
    = Some (MState bef' rest [(2, b); (1, a)]).
Proof.
  intros Ha Hb. apply not_in_forallb in Ha, Hb. eexists.
  unfold exec, re_texorpdfstring, arg_star. cbn [seq].
  apply run_seq_lit.
  apply run_seq_group_star_class; [exact Ha|reflexivity|].
  apply run_seq_chr. apply run_seq_chr.
  apply run_seq_group_star_class; [exact Hb|reflexivity|].
  now apply run_chr.
Qed.

Lemma exec_usepackage o a bef rest :
  match o with Some o => ~ In (chr "]") o | None => True end ->
  ~ In (chr "}") a ->
  exists bef',
    exec re_usepackage bef
         (str "\usepackage"
          ++ bracketed o
          ++ chr "{" :: a ++ chr "}" :: rest)
    = Some (MState bef' rest []).
Proof.
  intros Ho Ha. apply not_in_forallb in Ha.
  destruct o as [o|]; eexists; unfold exec, re_usepackage, arg_star, bracketed;
    cbn [seq]; apply run_seq_lit.
  - apply not_in_forallb in Ho. cbn [app]. rewrite <- app_assoc. cbn [app].
    apply run_seq_opt_take_seq. apply run_seq_chr.
    apply run_seq_star_class; [exact Ho|reflexivity|].
    apply run_chr. cbv beta. apply run_seq_chr.
    apply run_seq_star_class; [exact Ha|reflexivity|].
    now apply run_chr.
  - cbn [app]. apply run_seq_opt_skip_seq; [reflexivity|].
    apply run_seq_chr.
    apply run_seq_star_class; [exact Ha|reflexivity|].
    now apply run_chr.
Qed.

Lemma exec_lit_app P bef rest :
  exec (lit P) bef (P ++ rest) = Some (MState (rev P ++ bef) rest []).
Proof.
  rewrite exec_lit, starts_with_app.
  now rewrite skipn_app, skipn_all, Nat.sub_diag.
Qed.

(** The patterns of the environments on an environment as written. *)
Lemma run_seq_lazy_end L m bef X cs k res :
  (forall a b, m = a ++ b -> b <> [] -> starts_with L (b ++ L ++ X) = false) ->
  k (MState (rev L ++ rev m ++ bef) X cs) = Some res ->
  rmatch (RSeq any_lazy (lit L)) (MState bef (m ++ L ++ X) cs) k = Some res.
Proof.
  intros Hearly H. cbn [rmatch]. apply run_lazy_any.
  - intros a b E Hb. now rewrite rmatch_lit, (Hearly a b E Hb).
  - rewrite rmatch_lit, starts_with_app.
    now rewrite skipn_app, skipn_all, Nat.sub_diag.
Qed.

Lemma exec_abstract body rest bef :
  includes body (str "\end{abstract}") = false ->
  exists bef',
    exec re_abstract bef (str "\begin{abstract}" ++ body ++ str "\end{abstract}" ++ rest)
    = Some (MState bef' rest []).
Proof.
  intros Hb. eexists. unfold exec, re_abstract. cbn [seq].
  apply run_seq_lit. apply run_seq_lazy_end; [|reflexivity].
  apply no_early_start; [exact Hb|reflexivity].
Qed.

Lemma exec_table s body rest bef :
  includes body (str "\end{table") = false ->
  exists bef',
    exec re_table bef
         (str "\begin{table" ++ star_suffix s ++ chr "}"
          :: body ++ str "\end{table" ++ star_suffix s ++ chr "}" :: rest)
    = Some (MState bef' rest []).
Proof.
  intros Hb. destruct s; eexists; unfold exec, re_table, opt_star; cbn [seq];
    apply run_seq_lit; cbn [star_suffix app].
  - apply run_seq_opt_take. apply run_seq_chr.
    apply run_seq_lazy_lit; [apply no_early_start; [exact Hb|reflexivity]|].
    apply run_seq_opt_take. now apply run_chr.
  - apply run_seq_opt_skip; [reflexivity|]. apply run_seq_chr.
    apply run_seq_lazy_lit; [apply no_early_start; [exact Hb|reflexivity]|].
    apply run_seq_opt_skip; [reflexivity|]. now apply run_chr.
Qed.

Lemma exec_tabular cols body rest bef :
  ~ In (chr "}") cols -> includes body (str "\end{tabular}") = false ->
  exists bef',
    exec re_tabular bef
         (str "\begin{tabular}" ++ (chr "{" :: cols) ++ chr "}"
          :: body ++ str "\end{tabular}" ++ rest)
    = Some (MState bef' rest []).
Proof.
  intros Hc Hb. eexists. unfold exec, re_tabular, arg_star. cbn [seq].
  apply run_seq_lit. apply run_seq_star_class.
  - cbn [forallb]. now rewrite (not_in_forallb _ _ Hc).
  - reflexivity.
  - apply run_seq_chr. apply run_seq_lazy_end; [|reflexivity].
    apply no_early_start; [exact Hb|reflexivity].
Qed.

Lemma exec_env_plain name body rest bef :
  inactive (str "\end{") body ->
  exists bef',
    exec (re_env_plain name) bef
         (str "\begin{" ++ name ++ chr "}" :: body ++ str "\end{" ++ name ++ chr "}" :: rest)
    = Some (MState bef' rest [(1, body)]).
Proof.
  intros Hb. eexists. unfold exec, re_env_plain. cbn [seq].
  apply run_seq_lit. apply run_seq_lit. apply run_seq_chr.
  apply run_seq_group_lazy_lit; [intros a b E Hne; now apply (Hb a b)|].
  apply run_seq_lit. now apply run_chr.
Qed.

Lemma exec_image o y path rest bef :
  ~ In (chr "]") (match o with Some o => o | None => [] end) ->
  ~ In (chr "}") (y :: path) ->
  exists bef',
    exec re_includegraphics bef
      (str "\includegraphics" ++ bracketed o ++ chr "{" :: (y :: path) ++ chr "}" :: rest)
    = Some (MState bef' rest [(1, y :: path)]).
Proof.
  intros Ho Hp. apply not_in_forallb in Hp.
  destruct o as [o|]; eexists; unfold exec, re_includegraphics, spaces0, arg_plus, bracketed;
    cbn [seq]; apply run_seq_lit.
  - apply not_in_forallb in Ho.
    cbn [app]. rewrite <- app_assoc. cbn [app].
    apply run_seq_opt_take_seq.
    apply run_seq_star_none; [reflexivity|]. apply run_seq_chr.
    apply run_seq_star_class; [exact Ho|reflexivity|].
    apply run_chr. cbv beta.
    apply run_seq_star_none; [reflexivity|]. apply run_seq_chr.
    apply run_seq_group_plus_class; [exact Hp|reflexivity|].
    now apply run_chr.
  - cbn [app]. apply run_seq_opt_skip_seq.
    + now apply fail_seq_star_chr.
    + apply run_seq_star_none; [reflexivity|]. apply run_seq_chr.
      apply run_seq_group_plus_class; [exact Hp|reflexivity|].
      now apply run_chr.
Qed.

(** * Documents: the callbacks of the list passes *)

Lemma mapi_map {A B C : Type} (f : B -> N -> C) (g : A -> B) l :
  forall idx, mapi f (map g l) idx = mapi (fun x i => f (g x) i) l idx.
Proof. induction l as [|x l IH]; intros idx; cbn [map mapi]; [reflexivity|now rewrite IH]. Qed.

Lemma mapi_ext_in {A B : Type} (f g : A -> N -> B) l :
  (forall x i, In x l -> f x i = g x i) -> forall idx, mapi f l idx = mapi g l idx.
Proof.
  induction l as [|x l IH]; intros H idx; cbn [mapi]; [reflexivity|].
  rewrite (H x idx) by now left. f_equal. apply IH. intros y i Hy. apply H. now right.
Qed.

Lemma in_removelast {A : Type} (x : A) l : In x (removelast l) -> In x l.
Proof.
  induction l as [|y l IH]; [intros []|]. destruct l as [|z l]; [intros []|].
  cbn [removelast]. intros [->|H]; [now left|right; now apply IH].
Qed.

Lemma itemList_entries es :
  Forall (fun t => ~ In bsl t /\ ~ In nl t) es ->
  itemList (concat (map entry es)) = map entry (removelast es).
Proof. intros H. rewrite itemList_hits. now apply hits_entries. Qed.

Lemma itemList_lines ls :
  Forall (fun t => ~ In bsl t /\ exists c, In c t /\ is_space c = false) ls ->
  itemList (nl :: concat (map entryLine ls)) = [].
Proof.
  intros H. rewrite itemList_hits. rewrite segments_miss.
  - cbn [hits]. now apply hits_lines.
  - destruct (exec re_item [] (nl :: concat (map entryLine ls))) eqn:E; [|reflexivity].
    apply exec_litprefix in E. discriminate E.
Qed.

Lemma itemize_entries es src pre post :
  Forall (fun t => ~ In bsl t /\ ~ In nl t) es ->
  itemize (MInfo src [(1, concat (map entry es))] pre post)
  = listMarkup false (removelast es).
Proof.
  intros H. unfold itemize, cap. cbn [m_caps lookup_cap Nat.eqb].
  rewrite (itemList_entries es H), map_map. unfold listMarkup.
  cbn [listOpen listClose]. do 2 f_equal. f_equal.
  apply map_ext_in. intros t Ht. rewrite itemText_entry; [reflexivity|].
  apply in_removelast in Ht. rewrite Forall_forall in H. now apply H.
Qed.

Lemma enumerate_entries es src pre post :
  Forall (fun t => ~ In bsl t /\ ~ In nl t) es ->
  enumerate (MInfo src [(1, concat (map entry es))] pre post)
  = listMarkup true (removelast es).
Proof.
  intros H. unfold enumerate, cap. cbn [m_caps lookup_cap Nat.eqb].
  rewrite (itemList_entries es H), mapi_map. unfold listMarkup.
  cbn [listOpen listClose]. do 2 f_equal. f_equal.
  apply mapi_ext_in. intros t i Ht. rewrite itemText_entry; [reflexivity|].
  apply in_removelast in Ht. rewrite Forall_forall in H. now apply H.
Qed.

Lemma itemize_lines ls src pre post :
  Forall (fun t => ~ In bsl t /\ exists c, In c t /\ is_space c = false) ls ->
  itemize (MInfo src [(1, nl :: concat (map entryLine ls))] pre post)
  = listMarkup false [].
Proof.
  intros H. unfold itemize, cap. cbn [m_caps lookup_cap Nat.eqb].
  now rewrite (itemList_lines ls H).
Qed.

Lemma enumerate_lines ls src pre post :
  Forall (fun t => ~ In bsl t /\ exists c, In c t /\ is_space c = false) ls ->
  enumerate (MInfo src [(1, nl :: concat (map entryLine ls))] pre post)
  = listMarkup true [].
Proof.
  intros H. unfold enumerate, cap. cbn [m_caps lookup_cap Nat.eqb].
  now rewrite (itemList_lines ls H).
Qed.

(** * Documents: the items as the patterns read them *)

Lemma command_source k a rest :
  item_source (Command k a) ++ rest
  = bsl :: commandName k ++ chr "{" :: a ++ chr "}" :: rest.
Proof.
  unfold item_source, item_head, item_tail.
  repeat first [rewrite <- app_assoc | progress cbn [app]]. reflexivity.
Qed.

Lemma command2_source k a b rest :
  item_source (Command2 k a b) ++ rest
  = bsl :: command2Name k ++ chr "{" :: a ++ chr "}" :: chr "{" :: b ++ chr "}" :: rest.
Proof.
  unfold item_source, item_head, item_tail.
  repeat first [rewrite <- app_assoc | progress cbn [app]]. reflexivity.
Qed.

Lemma package_source o a rest :
  item_source (Package o a) ++ rest
  = str "\usepackage" ++ bracketed o ++ chr "{" :: a ++ chr "}" :: rest.
Proof.
  unfold item_source, item_head, item_tail.
  repeat first [rewrite <- app_assoc | progress cbn [app]]. reflexivity.
Qed.

Lemma abstract_source body rest :
  item_source (Removed abstractEnv body) ++ rest
  = str "\begin{abstract}" ++ body ++ str "\end{abstract}" ++ rest.
Proof.
  unfold item_source, item_head, item_tail.
  repeat first [rewrite <- app_assoc | progress cbn [app]]. reflexivity.
Qed.

Lemma table_source s body rest :
  item_source (Removed (table s) body) ++ rest
  = str "\begin{table" ++ star_suffix s ++ chr "}"
    :: body ++ str "\end{table" ++ star_suffix s ++ chr "}" :: rest.
Proof.
  unfold item_source, item_head, item_tail.
  repeat first [rewrite <- app_assoc | progress cbn [app]]. reflexivity.
Qed.

Lemma tabular_source cols body rest :
  item_source (Removed (tabular cols) body) ++ rest
  = str "\begin{tabular}" ++ (chr "{" :: cols) ++ chr "}"
    :: body ++ str "\end{tabular}" ++ rest.
Proof.
  unfold item_source, item_head, item_tail.
  repeat first [rewrite <- app_assoc | progress cbn [app]]. reflexivity.
Qed.

Lemma list_source o body rest :
  ((str "\begin{" ++ listName o ++ [chr "}"])
   ++ body ++ str "\end{" ++ listName o ++ [chr "}"]) ++ rest
  = str "\begin{" ++ listName o ++ chr "}"
    :: body ++ str "\end{" ++ listName o ++ chr "}" :: rest.
Proof.
  repeat first [rewrite <- app_assoc | progress cbn [app]]. reflexivity.
Qed.

Lemma image_source o dd f rest :
  item_source (Image o dd f) ++ rest
  = str "\includegraphics" ++ bracketed o ++ chr "{" :: imagePath dd f ++ chr "}" :: rest.
Proof.
  unfold item_source, item_head, item_tail.
  repeat first [rewrite <- app_assoc | progress cbn [app]]. reflexivity.
Qed.

Lemma verbatim_source body rest :
  item_source (Verbatim body) ++ rest
  = str "\begin{" ++ str "verbatim" ++ chr "}"
    :: body ++ str "\end{" ++ str "verbatim" ++ chr "}" :: rest.
Proof.
  unfold item_source, item_head, item_tail.
  repeat first [rewrite <- app_assoc | progress cbn [app]]. reflexivity.
Qed.

Lemma entries_no_end es :
  Forall (fun t => ~ In bsl t) es -> inactive (str "\end{") (concat (map entry es)).
Proof. apply (entries_inactive (str "end{")). reflexivity. Qed.

Lemma lines_no_end ls :
  Forall (fun t => ~ In bsl t) ls ->
  inactive (str "\end{") (nl :: concat (map entryLine ls)).
Proof.
  intros H. change (nl :: concat (map entryLine ls)) with ([nl] ++ concat (map entryLine ls)).
  apply inactive_app; [apply inactive_absent; absent|].
  now apply (lines_inactive (str "end{")).
Qed.

(** * Documents: the passes, stage by stage *)

(** The items of the stage at hand, one goal for each. *)
Ltac firing_items :=
  let it := fresh "it" in
  let Hok := fresh "Hok" in
  let Hs := fresh "Hs" in
  intros it Hok Hs;
  destruct it as [?t|?k ?a|?k ?a ?b|?o ?a|?w|?t|?e|?env ?body|?o ?es|?o ?ls|?o ?dd ?f|?body];
  try match goal with k : command |- _ => destruct k end;
  try match goal with k : command2 |- _ => destruct k end;
  try match goal with w : keyword |- _ => destruct w end;
  try match goal with e : escape |- _ => destruct e end;
  try match goal with e : removed |- _ => destruct e end;
  try match goal with H : stage (ItemList ?o _) = _ |- _ => destruct o end;
  try match goal with H : stage (ItemLines ?o _) = _ |- _ => destruct o end;
  try discriminate Hs; clear Hs;
  (split; [discriminate|]).

Ltac brace_free Hok :=
  cbn [item_ok empty_allowed orb] in Hok;
  try rewrite andb_true_r in Hok;
  repeat match goal with
  | Hx : _ && _ = true |- _ =>
      let H1 := fresh "Hsimple" in
      let H2 := fresh "Hsimple" in
      apply andb_true_iff in Hx; destruct Hx as [H1 H2]
  end;
  repeat match goal with
  | Hx : simple _ _ = true |- _ =>
      apply simple_facts in Hx; destruct Hx as [_ [_ Hx]]
  end.

Ltac fire_cmd0 :=
  firing_items;
  let bef := fresh "bef" in
  let rest := fresh "rest" in
  intros bef rest;
  match goal with
  | Hok : item_ok (Command ?k ?a) = true |- _ =>
      brace_free Hok;
      match goal with
      | Hbr : ~ In _ a |- _ =>
          let bef' := fresh "bef'" in
          let He := fresh "He" in
          destruct (exec_cmd0 (commandName k) a bef rest Hbr) as [bef' He];
          exists bef', []; split; [rewrite command_source; exact He|reflexivity]
      end
  end.

Ltac fire_cmd00 :=
  firing_items;
  let bef := fresh "bef" in
  let rest := fresh "rest" in
  intros bef rest;
  match goal with
  | Hok : item_ok (Command2 ?k ?a ?b) = true |- _ =>
      brace_free Hok;
      match goal with
      | Ha : ~ In _ a, Hb : ~ In _ b |- _ =>
          let bef' := fresh "bef'" in
          let He := fresh "He" in
          destruct (exec_cmd00 (command2Name k) a b bef rest Ha Hb) as [bef' He];
          exists bef', []; split; [rewrite command2_source; exact He|reflexivity]
      end
  end.

Ltac fire_lit :=
  firing_items; intros ? ?;
  eexists; eexists; split; [apply exec_lit_app|reflexivity].

Ltac fire_usepackage :=
  firing_items;
  let bef := fresh "bef" in
  let rest := fresh "rest" in
  intros bef rest;
  match goal with
  | Hok : item_ok (Package ?o ?a) = true |- _ =>
      cbn [item_ok] in Hok; apply andb_true_iff in Hok;
      let Ho := fresh "Ho" in
      let Ha := fresh "Ha" in
      destruct Hok as [Ho Ha];
      apply simple_facts in Ha; destruct Ha as [_ [_ Ha]];
      assert (Ho' : match o with Some o => ~ In (chr "]") o | None => True end)
        by (destruct o; [apply simple_facts in Ho; tauto|exact I]);
      let bef' := fresh "bef'" in
      let He := fresh "He" in
      destruct (exec_usepackage o a bef rest Ho' Ha) as [bef' He];
      exists bef', []; split; [rewrite package_source; exact He|reflexivity]
  end.

Ltac fire_cmd_cap :=
  firing_items;
  let bef := fresh "bef" in
  let rest := fresh "rest" in
  intros bef rest;
  match goal with
  | Hok : item_ok (Command ?k ?a) = true |- _ =>
      cbn [item_ok empty_allowed orb] in Hok;
      let H1 := fresh "H" in
      let H2 := fresh "H" in
      apply andb_true_iff in Hok; destruct Hok as [H1 H2];
      apply simple_facts in H1; destruct H1 as [_ [_ H1]];
      destruct a as [|?y ?l]; [discriminate H2|];
      match goal with
      | Hbr : ~ In _ (?y :: ?l) |- _ =>
          let bef' := fresh "bef'" in
          let He := fresh "He" in
          destruct (exec_cmd_cap (commandName k) y l bef rest Hbr) as [bef' He];
          exists bef', [(1, y :: l)]; split;
          [rewrite command_source; exact He|intros; reflexivity]
      end
  end.

Ltac fire_cmd_star_cap name :=
  firing_items;
  let bef := fresh "bef" in
  let rest := fresh "rest" in
  intros bef rest;
  match goal with
  | Hok : item_ok (Command ?k ?a) = true |- _ =>
      cbn [item_ok empty_allowed orb] in Hok;
      let H1 := fresh "H" in
      let H2 := fresh "H" in
      apply andb_true_iff in Hok; destruct Hok as [H1 H2];
      apply simple_facts in H1; destruct H1 as [_ [_ H1]];
      destruct a as [|?y ?l]; [discriminate H2|];
      match goal with
      | Hbr : ~ In _ (?y :: ?l), s : bool |- _ =>
          let bef' := fresh "bef'" in
          let He := fresh "He" in
          destruct (exec_cmd_star_cap name s y l bef rest Hbr) as [bef' He];
          exists bef', [(1, y :: l)]; split;
          [rewrite command_source; cbn [commandName]; rewrite <- app_assoc; exact He
          |intros; reflexivity]
      end
  end.

Ltac fire_cmd_cap0 :=
  firing_items;
  let bef := fresh "bef" in
  let rest := fresh "rest" in
  intros bef rest;
  match goal with
  | Hok : item_ok (Command ?k ?a) = true |- _ =>
      brace_free Hok;
      match goal with
      | Hbr : ~ In _ a |- _ =>
          let bef' := fresh "bef'" in
          let He := fresh "He" in
          destruct (exec_cmd_cap0 (commandName k) a bef rest Hbr) as [bef' He];
          exists bef', [(1, a)]; split;
          [rewrite command_source; exact He|intros; reflexivity]
      end
  end.

Ltac fire_texorpdfstring :=
  firing_items;
  let bef := fresh "bef" in
  let rest := fresh "rest" in
  intros bef rest;
  match goal with
  | Hok : item_ok (Command2 ?k ?a ?b) = true |- _ =>
      brace_free Hok;
      match goal with
      | Ha : ~ In _ a, Hb : ~ In _ b |- _ =>
          let bef' := fresh "bef'" in
          let He := fresh "He" in
          destruct (exec_texorpdfstring a b bef rest Ha Hb) as [bef' He];
          exists bef', [(2, b); (1, a)]; split;
          [rewrite command2_source; exact He|intros; exact (app_nil_r a)]
      end
  end.

Lemma removable_terminator env body :
  removable env body = true -> includes body (terminator env) = false.
Proof.
  intros H. destruct (removable_facts env body H) as [_ [Ht _]].
  now apply includes_last_false in Ht.
Qed.

Lemma fire_abstract it :
  item_ok it = true -> stage it = 9 ->
  item_source it <> [] /\
  forall bef rest, exists bef' cs,
    exec re_abstract bef (item_source it ++ rest) = Some (MState bef' rest cs) /\
    forall pre post,
      expand [] (ngroups re_abstract) (MInfo (item_source it) cs pre post) = item_markup it.
Proof.
  revert it. firing_items. intros bef rest.
  match goal with
  | Hok : item_ok (Removed ?env ?body) = true |- _ =>
      destruct (exec_abstract body rest bef (removable_terminator env body Hok)) as [bef' He]
  end.
  exists bef', []. split; [rewrite abstract_source; exact He|reflexivity].
Qed.

Lemma fire_table it :
  item_ok it = true -> stage it = 11 ->
  item_source it <> [] /\
  forall bef rest, exists bef' cs,
    exec re_table bef (item_source it ++ rest) = Some (MState bef' rest cs) /\
    forall pre post,
      expand [] (ngroups re_table) (MInfo (item_source it) cs pre post) = item_markup it.
Proof.
  revert it. firing_items. intros bef rest.
  match goal with
  | Hok : item_ok (Removed (table ?s) ?body) = true |- _ =>
      destruct (exec_table s body rest bef (removable_terminator (table s) body Hok))
        as [bef' He]
  end.
  exists bef', []. split; [rewrite table_source; exact He|reflexivity].
Qed.

Lemma fire_tabular it :
  item_ok it = true -> stage it = 12 ->
  item_source it <> [] /\
  forall bef rest, exists bef' cs,
    exec re_tabular bef (item_source it ++ rest) = Some (MState bef' rest cs) /\
    forall pre post,
      expand [] (ngroups re_tabular) (MInfo (item_source it) cs pre post) = item_markup it.
Proof.
  revert it. firing_items. intros bef rest.
  match goal with
  | Hok : item_ok (Removed (tabular ?cols) ?body) = true |- _ =>
      assert (Hc : ~ In (chr "}") cols)
        by (pose proof Hok as Hok'; cbn [item_ok] in Hok'; unfold removable in Hok';
            rewrite !andb_true_iff in Hok'; destruct Hok' as [_ Hc];
            apply simple_facts in Hc; tauto);
      destruct (exec_tabular cols body rest bef Hc
                  (removable_terminator (tabular cols) body Hok)) as [bef' He]
  end.
  exists bef', []. split; [rewrite tabular_source; exact He|reflexivity].
Qed.

Lemma fire_list (o : bool) it :
  item_ok it = true -> stage it = (if o then 33%nat else 32%nat) ->
  item_source it <> [] /\
  forall bef rest, exists bef' cs,
    exec (re_env_plain (listName o)) bef (item_source it ++ rest)
    = Some (MState bef' rest cs) /\
    forall pre post,
      (if o then enumerate else itemize) (MInfo (item_source it) cs pre post)
      = item_markup it.
Proof.
  intros Hok Hs.
  destruct it as [t|k a|k a b|o' a|w|t|e|env body|o' es|o' ls|o' dd f|body];
    try destruct k; try destruct w; try destruct e; try destruct env;
    try destruct o'; destruct o; try discriminate Hs; clear Hs;
    (split; [discriminate|]); intros bef rest; cbn [item_ok] in Hok.
  - apply entries_ok_facts in Hok.
    assert (H1 : Forall (fun t => ~ In bsl t) es)
      by (eapply Forall_impl; [|exact Hok]; now intros t [H _]).
    assert (H2 : Forall (fun t => ~ In bsl t /\ ~ In nl t) es)
      by (eapply Forall_impl; [|exact Hok]; now intros t [H [_ H']]).
    destruct (exec_env_plain (listName true) _ rest bef (entries_no_end es H1)) as [bef' He].
    exists bef', [(1, concat (map entry es))]. split.
    + unfold item_source, item_head, item_tail. rewrite list_source. exact He.
    + intros. now apply enumerate_entries.
  - apply entries_ok_facts in Hok.
    assert (H1 : Forall (fun t => ~ In bsl t) es)
      by (eapply Forall_impl; [|exact Hok]; now intros t [H _]).
    assert (H2 : Forall (fun t => ~ In bsl t /\ ~ In nl t) es)
      by (eapply Forall_impl; [|exact Hok]; now intros t [H [_ H']]).
    destruct (exec_env_plain (listName false) _ rest bef (entries_no_end es H1)) as [bef' He].
    exists bef', [(1, concat (map entry es))]. split.
    + unfold item_source, item_head, item_tail. rewrite list_source. exact He.
    + intros. now apply itemize_entries.
  - apply lines_ok_facts in Hok.
    assert (H1 : Forall (fun t => ~ In bsl t) ls)
      by (eapply Forall_impl; [|exact Hok]; now intros t [H _]).
    assert (H2 : Forall (fun t => ~ In bsl t /\ exists c, In c t /\ is_space c = false) ls)
      by (eapply Forall_impl; [|exact Hok]; now intros t [H [_ H']]).
    destruct (exec_env_plain (listName true) _ rest bef (lines_no_end ls H1)) as [bef' He].
    exists bef', [(1, nl :: concat (map entryLine ls))]. split.
    + unfold item_source, item_head, item_tail.
      change (nl :: concat (map entryLine ls) ++ str "\end{" ++ listName true ++ [chr "}"])
        with ((nl :: concat (map entryLine ls)) ++ str "\end{" ++ listName true ++ [chr "}"]).
      rewrite list_source. exact He.
    + intros. now apply enumerate_lines.
  - apply lines_ok_facts in Hok.
    assert (H1 : Forall (fun t => ~ In bsl t) ls)
      by (eapply Forall_impl; [|exact Hok]; now intros t [H _]).
    assert (H2 : Forall (fun t => ~ In bsl t /\ exists c, In c t /\ is_space c = false) ls)
      by (eapply Forall_impl; [|exact Hok]; now intros t [H [_ H']]).
    destruct (exec_env_plain (listName false) _ rest bef (lines_no_end ls H1)) as [bef' He].
    exists bef', [(1, nl :: concat (map entryLine ls))]. split.
    + unfold item_source, item_head, item_tail.
      change (nl :: concat (map entryLine ls) ++ str "\end{" ++ listName false ++ [chr "}"])
        with ((nl :: concat (map entryLine ls)) ++ str "\end{" ++ listName false ++ [chr "}"]).
      rewrite list_source. exact He.
    + intros. now apply itemize_lines.
Qed.

Lemma fire_image_item o dd f bef rest :
  item_ok (Image o dd f) = true ->
  exists bef' cs,
    exec re_includegraphics bef (item_source (Image o dd f) ++ rest)
    = Some (MState bef' rest cs) /\
    forall pre post,
      imageTag (MInfo (item_source (Image o dd f)) cs pre post) = item_markup (Image o dd f).
Proof.
  intros Hok.
  destruct (image_ok_facts o dd f Hok) as [_ [Ho [Hp [Hs [Hne _]]]]].
  assert (Hbase : basename (imagePath dd f) = f)
    by (destruct dd; [now apply basename_dir|now apply basename_file]).
  assert (Hpath : exists y l, imagePath dd f = y :: l).
  { destruct dd as [[|y d]|]; cbn [imagePath].
    - now exists (chr "/"), f.
    - now exists y, (d ++ chr "/" :: f).
    - destruct f as [|y l]; [congruence|]. now exists y, l. }
  destruct Hpath as [y [l Ep]].
  assert (Hbr : ~ In (chr "}") (y :: l)) by (rewrite <- Ep; apply Hp; auto).
  destruct (exec_image o y l rest bef Ho Hbr) as [bef' He].
  exists bef', [(1, y :: l)]. split.
  - rewrite image_source, Ep. exact He.
  - intros. unfold imageTag, cap. cbn [m_caps lookup_cap Nat.eqb item_markup].
    now rewrite <- Ep, Hbase.
Qed.

Lemma fire_image it :
  item_ok it = true -> stage it = 41 ->
  item_source it <> [] /\
  forall bef rest, exists bef' cs,
    exec re_includegraphics bef (item_source it ++ rest) = Some (MState bef' rest cs) /\
    forall pre post, imageTag (MInfo (item_source it) cs pre post) = item_markup it.
Proof.
  revert it. firing_items. intros bef rest.
  match goal with
  | Hok : item_ok (Image ?o ?dd ?f) = true |- _ =>
      exact (fire_image_item o dd f bef rest Hok)
  end.
Qed.

Lemma fire_verbatim it :
  item_ok it = true -> stage it = 42 ->
  item_source it <> [] /\
  forall bef rest, exists bef' cs,
    exec (re_env_plain (str "verbatim")) bef (item_source it ++ rest)
    = Some (MState bef' rest cs) /\
    forall pre post, codeBlock (MInfo (item_source it) cs pre post) = item_markup it.
Proof.
  revert it. firing_items. intros bef rest.
  match goal with
  | Hok : item_ok (Verbatim ?body) = true |- _ =>
      cbn [item_ok] in Hok; apply andb_true_iff in Hok; destruct Hok as [Hb _];
      apply no_char_spec in Hb;
      destruct (exec_env_plain (str "verbatim") body rest bef
                  (inactive_absent bsl (str "end{") body Hb)) as [bef' He];
      exists bef', [(1, body)]; split; [rewrite verbatim_source; exact He|reflexivity]
  end.
Qed.

Ltac idle_pass n d Hok :=
  first
    [ rewrite (replaceWith_id _ _ (emit n d))
        by (apply emit_quiet; [vm_compute; reflexivity|exact Hok])
    | rewrite (replaceWith_id _ _ (emit n d))
        by (apply includes_absent, emit_no_dollar; exact Hok) ].

Ltac idle_match n d Hok :=
  rewrite (match1_none _ (emit n d))
    by (apply emit_quiet; [vm_compute; reflexivity|exact Hok]).

Ltac fire n tac Hok :=
  match goal with
  | |- context [replaceWith ?re ?f (emit n ?d)] =>
      let P := eval vm_compute in (tl (litprefix re)) in
      rewrite (pass_fires re f n P eq_refl);
      [ | vm_compute; reflexivity | tac | exact Hok ]
  end.

Lemma stripPreamble_emit d :
  forallb item_ok d = true -> stripPreamble (emit 1 d) = emit 13 d.
Proof.
  intros Hok. unfold stripPreamble, replace.
  fire 1 fire_cmd0 Hok.
  fire 2 fire_usepackage Hok.
  fire 3 fire_cmd0 Hok.
  fire 4 fire_cmd0 Hok.
  fire 5 fire_cmd00 Hok.
  fire 6 fire_cmd00 Hok.
  fire 7 fire_lit Hok.
  fire 8 fire_lit Hok.
  fire 9 ltac:(exact fire_abstract) Hok.
  fire 10 fire_lit Hok.
  fire 11 ltac:(exact fire_table) Hok.
  fire 12 ltac:(exact fire_tabular) Hok.
  reflexivity.
Qed.

Lemma frontMatter_snd h :
  snd (frontMatter h)
  = replace (re_cmd_cap (str "date")) []
      (replace (re_cmd_cap (str "author")) []
         (replace (re_cmd_cap (str "title")) [] h)).
Proof. reflexivity. Qed.

Lemma frontMatter_emit d :
  forallb item_ok d = true -> snd (frontMatter (emit 13 d)) = emit 16 d.
Proof.
  intros Hok. rewrite frontMatter_snd. unfold replace.
  fire 13 fire_cmd_cap Hok.
  fire 14 fire_cmd_cap Hok.
  fire 15 fire_cmd_cap Hok.
  reflexivity.
Qed.

Lemma sections_emit d :
  forallb item_ok d = true -> sections (emit 16 d) = emit 20 d.
Proof.
  intros Hok. unfold sections, replace.
  fire 16 ltac:(fire_cmd_star_cap (str "section")) Hok.
  fire 17 ltac:(fire_cmd_star_cap (str "subsection")) Hok.
  fire 18 ltac:(fire_cmd_star_cap (str "subsubsection")) Hok.
  fire 19 ltac:(fire_cmd_star_cap (str "paragraph")) Hok.
  reflexivity.
Qed.

Lemma formatting_emit d :
  forallb item_ok d = true -> formatting false (emit 20 d) = emit 29 d.
Proof.
  intros Hok. unfold formatting, replace.
  fire 20 fire_cmd_cap Hok.
  fire 21 fire_cmd_cap Hok.
  fire 22 fire_cmd_cap Hok.
  fire 23 fire_cmd_cap Hok.
  fire 24 fire_cmd_cap Hok.
  fire 25 fire_cmd_cap Hok.
  fire 26 fire_cmd_cap Hok.
  fire 27 fire_cmd_cap Hok.
  fire 28 fire_texorpdfstring Hok.
  reflexivity.
Qed.

Lemma frontMatter_idle d :
  forallb item_ok d = true -> frontMatter (emit 29 d) = ([], emit 29 d).
Proof.
  intros Hok. unfold frontMatter, replace.
  do 3 idle_match 29 d Hok. do 3 idle_pass 29 d Hok. reflexivity.
Qed.

Lemma fire_break it :
  item_ok it = true -> stage it = 29 ->
  exists matched behind,
    item_source it = matched ++ behind /\ matched <> [] /\ ~ In bsl behind /\
    forall bef rest, exists bef' cs,
      exec (lit (str "\\")) bef (matched ++ behind ++ rest)
      = Some (MState bef' (behind ++ rest) cs) /\
      forall pre post,
        expand (str "<br />") (ngroups (lit (str "\\"))) (MInfo matched cs pre post) ++ behind
        = item_markup it.
Proof.
  intros Hok Hs.
  destruct it as [t|k a|k a b|o a|w|t|e|env body|o es|o ls|o dd f|body];
    try destruct k; try destruct w; try destruct e; try destruct env; try destruct o;
    try discriminate Hs; clear Hs.
  cbn [item_ok] in Hok. rewrite !andb_true_iff in Hok. destruct Hok as [[_ Hb] _].
  apply no_char_spec in Hb.
  exists (str "\\"), t. repeat split; [discriminate|exact Hb|].
  intros bef rest. eexists. eexists. split; [apply exec_lit_app|reflexivity].
Qed.

Lemma lineBreaks_emit d :
  forallb item_ok d = true -> lineBreaks (emit 29 d) = emit 31 d.
Proof.
  intros Hok. unfold lineBreaks, replace.
  rewrite (pass_fires_partly (lit (str "\\")) _ 29 [bsl] eq_refl);
    [|vm_compute; reflexivity|exact fire_break|exact Hok].
  fire 30 fire_lit Hok. reflexivity.
Qed.

Lemma mathInPlace_idle d :
  forallb item_ok d = true -> mathInPlace (emit 31 d) = emit 31 d.
Proof.
  intros Hok. unfold mathInPlace, replace.
  do 9 idle_pass 31 d Hok. reflexivity.
Qed.

Lemma sections_idle d :
  forallb item_ok d = true -> sections (emit 31 d) = emit 31 d.
Proof.
  intros Hok. unfold sections, replace.
  do 4 idle_pass 31 d Hok. reflexivity.
Qed.

Lemma formatting_textup d :
  forallb item_ok d = true -> formatting true (emit 31 d) = emit 32 d.
Proof.
  intros Hok. unfold formatting, replace.
  do 8 idle_pass 31 d Hok. fire 31 fire_cmd_cap Hok. idle_pass 32 d Hok.
  reflexivity.
Qed.

Lemma lists_emit d :
  forallb item_ok d = true -> lists (emit 32 d) = emit 34 d.
Proof.
  intros Hok. unfold lists.
  fire 32 ltac:(exact (fire_list false)) Hok.
  fire 33 ltac:(exact (fire_list true)) Hok.
  reflexivity.
Qed.

Lemma references_emit d :
  forallb item_ok d = true -> references (emit 34 d) = emit 41 d.
Proof.
  intros Hok. unfold references, replace.
  fire 34 fire_cmd_cap0 Hok.
  fire 35 fire_cmd_cap0 Hok.
  fire 36 fire_cmd_cap0 Hok.
  fire 37 fire_cmd_cap0 Hok.
  fire 38 fire_cmd_cap0 Hok.
  fire 39 fire_cmd_cap0 Hok.
  fire 40 fire_cmd_cap0 Hok.
  reflexivity.
Qed.

Lemma figures_emit d :
  forallb item_ok d = true -> figures (emit 41 d) = emit 42 d.
Proof.
  intros Hok. unfold figures.
  idle_pass 41 d Hok. fire 41 ltac:(exact fire_image) Hok. reflexivity.
Qed.

Lemma verbatim_emit d :
  forallb item_ok d = true -> verbatim (emit 42 d) = emit 43 d.
Proof.
  intros Hok. unfold verbatim. fire 42 ltac:(exact fire_verbatim) Hok. reflexivity.
Qed.

Lemma lineBreaks_idle d :
  forallb item_ok d = true -> lineBreaks (emit 43 d) = emit 43 d.
Proof.
  intros Hok. unfold lineBreaks, replace. do 2 idle_pass 43 d Hok. reflexivity.
Qed.

Lemma emit_all d : emit 47 d = markup d.
Proof.
  unfold emit, markup. apply flat_map_ext. intros it. unfold shown.
  assert (H : (stage it <? 47) = true); [|now rewrite H].
  destruct it as [t|k a|k a b|o a|w|t|e|env body|o es|o ls|o dd f|body];
    try destruct k; try destruct w; try destruct e; try destruct env; try destruct o;
    reflexivity.
Qed.

Lemma document_ok_facts d :
  document_ok d = true ->
  forallb item_ok d = true /\ includes (markup d) (str "--") = false /\
  includes (markup d) (str "``") = false /\ includes (markup d) (str "''") = false.
Proof.
  unfold document_ok. rewrite !andb_true_iff, !negb_true_iff. tauto.
Qed.

Lemma escapes_emit d :
  document_ok d = true -> escapes (emit 43 d) = markup d.
Proof.
  intros Hdoc. destruct (document_ok_facts d Hdoc) as [Hok [Hhy [Hbt Hap]]].
  unfold escapes, replace.
  do 2 idle_pass 43 d Hok.
  fire 43 fire_lit Hok.
  fire 44 fire_lit Hok.
  fire 45 fire_lit Hok.
  fire 46 fire_lit Hok.
  rewrite emit_all.
  rewrite (replaceWith_id _ _ (markup d))
    by exact (includes_prefix_false _ (str "--") (str "-") Hhy).
  rewrite (replaceWith_id _ _ (markup d)) by exact Hhy.
  rewrite (replaceWith_id _ _ (markup d)) by exact Hbt.
  now rewrite (replaceWith_id _ _ (markup d)) by exact Hap.
Qed.

Lemma fallback_idle d :
  forallb item_ok d = true -> fallback (markup d) = markup d.
Proof.
  intros Hok. rewrite <- emit_all. unfold fallback, replace.
  do 3 idle_pass 47 d Hok. reflexivity.
Qed.

Lemma protectMath_idle d :
  forallb item_ok d = true -> protectMath (emit 1 d) = (emit 1 d, MathState [] 0).
Proof.
  intros Hok. rewrite protectMath_fold. apply fold_quiet. unfold phase1_passes.
  repeat (constructor;
          [cbn [fst];
           first [ apply emit_quiet; [vm_compute; reflexivity|exact Hok]
                 | apply includes_absent, emit_no_dollar; exact Hok ]|]).
  constructor.
Qed.

Lemma emit_source d : emit 1 d = source d.
Proof.
  unfold emit, source. apply flat_map_ext. intros it. unfold shown.
  destruct it as [t|k a|k a b|o a|w|t|e|env body|o es|o ls|o dd f|body];
    try destruct k; try destruct w; try destruct e; try destruct env; try destruct o;
    reflexivity.
Qed.

(** X3.  A document without mathematics, made of text, of the commands
    that one pass each handles, of line breaks, escaped characters,
    lists, images, verbatim blocks and of the environments that are
    removed: [convertLaTeXToHTML] replaces every item by its markup
    where it stands, keeps the text between the items, and divides the
    result into paragraphs.  No header is emitted: the title, author
    and date that the first front-matter block collects are discarded
    by the second one, which finds the commands gone. *)
Theorem document_conversion :
  forall d,
    document_ok d = true ->
    convertLaTeXToHTML (source d) = Some (paragraphs (markup d)).
Proof.
  intros d Hdoc. destruct (document_ok_facts d Hdoc) as [Hok _].
  unfold convertLaTeXToHTML. rewrite <- emit_source.
  rewrite (protectMath_idle d Hok). cbv beta iota.
  rewrite (stripPreamble_emit d Hok).
  pose proof (frontMatter_emit d Hok) as Hfm.
  destruct (frontMatter (emit 13 d)) as [t1 h1]. cbn [snd] in Hfm. subst h1.
  rewrite (sections_emit d Hok), (formatting_emit d Hok), (frontMatter_idle d Hok).
  cbv beta iota.
  rewrite (lineBreaks_emit d Hok), (mathInPlace_idle d Hok), (sections_idle d Hok).
  rewrite (formatting_textup d Hok), (lists_emit d Hok), (references_emit d Hok).
  rewrite (figures_emit d Hok), (verbatim_emit d Hok), (lineBreaks_idle d Hok).
  rewrite (escapes_emit d Hdoc), (fallback_idle d Hok).
  reflexivity.
Qed.

(** A document of one item, before and after the pass of the item. *)
Lemma emit_single it n :
  emit n [it] = if stage it <? n then item_markup it else item_source it.
Proof. unfold emit, shown. cbn [flat_map]. apply app_nil_r. Qed.

Lemma lists_single it :
  item_ok it = true -> (stage it = 32 \/ stage it = 33) ->
  lists (item_source it) = item_markup it.
Proof.
  intros Hok Hs.
  assert (Hd : forallb item_ok [it] = true) by (cbn [forallb]; now rewrite Hok).
  pose proof (lists_emit [it] Hd) as H. rewrite !emit_single in H.
  now destruct Hs as [Hs|Hs]; rewrite Hs in H.
Qed.

(** X4.  A list written on one line, every item followed at once by
    the next or by the end of the list: [lists] shows every item but
    the last, which no [\item] or [\end] follows inside the body of
    the list. *)
Theorem list_on_one_line_loses_its_last_item (ordered : bool) (entries : list jsstring) :
  forallb (fun t => no_char bsl t && no_char dollar t && no_char nl t) entries = true ->
  lists (str "\begin{" ++ listName ordered ++ str "}"
         ++ concat (map entry entries)
         ++ str "\end{" ++ listName ordered ++ str "}")
  = listMarkup ordered (removelast entries).
Proof.
  intros H.
  change (listMarkup ordered (removelast entries))
    with (item_markup (ItemList ordered entries)).
  rewrite <- (lists_single (ItemList ordered entries) H)
    by (destruct ordered; [right|left]; reflexivity).
  f_equal. unfold item_source. cbn [item_head item_tail].
  repeat first [rewrite <- app_assoc | progress cbn [app]]. reflexivity.
Qed.

Lemma list_on_one_line_loses_its_last_item_witness :
  lists (str "\begin{itemize}\item one \item two \item three\end{itemize}")
  = listMarkup false [str "one "; str "two "].
Proof.
  apply (list_on_one_line_loses_its_last_item false [str "one "; str "two "; str "three"]).
  vm_compute. reflexivity.
Defined.

(** X5.  A list written with one item on a line: [lists] shows an
    empty list, since a line break stands between every item and the
    [\item] or [\end] that the pattern of an item asks for. *)
Theorem list_with_an_item_per_line_is_empty (ordered : bool) (lines : list jsstring) :
  forallb (fun t => no_char bsl t && no_char dollar t
                    && existsb (fun c => negb (is_space c)) t) lines = true ->
  lists (str "\begin{" ++ listName ordered ++ str "}" ++ [nl]
         ++ concat (map entryLine lines)
         ++ str "\end{" ++ listName ordered ++ str "}")
  = listOpen ordered ++ listClose ordered.
Proof.
  intros H.
  transitivity (item_markup (ItemLines ordered lines));
    [|cbn [item_markup]; unfold listMarkup; now destruct ordered].
  rewrite <- (lists_single (ItemLines ordered lines) H)
    by (destruct ordered; [right|left]; reflexivity).
  f_equal. unfold item_source. cbn [item_head item_tail].
  repeat first [rewrite <- app_assoc | progress cbn [app]]. reflexivity.
Qed.

Lemma list_with_an_item_per_line_is_empty_witness :
  lists (str "\begin{enumerate}" ++ [nl] ++ str "\item first" ++ [nl]
         ++ str "\item second" ++ [nl] ++ str "\end{enumerate}")
  = html "<ol class='my-4'></ol>".
Proof.
  apply (list_with_an_item_per_line_is_empty true [str "first"; str "second"]).
  vm_compute. reflexivity.
Defined.

(** X6.  Whatever the input, [escapes] leaves no doubled hyphen, no
    doubled backtick and no doubled apostrophe behind: the dashes and
    the quotation marks are all replaced. *)
Theorem escapes_leave_no_doubled_mark (h : jsstring) :
  includes (escapes h) (str "--") = false
  /\ includes (escapes h) (str "``") = false
  /\ includes (escapes h) (str "''") = false.
Proof. exact (escapes_clean h). Qed.

Lemma document_conversion_witness :
  document_ok sample_document = true
  /\ convertLaTeXToHTML (source sample_document)
     = Some (paragraphs (markup sample_document)).
Proof.
  split; [vm_compute; reflexivity|].
  apply (document_conversion sample_document). vm_compute. reflexivity.
Defined.

(** * More about the fallback passes *)

(** After the symbol pass a backslash can only be the last character:
    elsewhere it would be followed by a letter, which the command pass
    has excluded, or by another character, with which the symbol pass
    removes it. *)
Lemma symbol_pass_backslash : forall n s bef,
  length s <= n -> has_command s = false ->
  ~ In bsl (removelast (flat_map erase (segments re_symbol bef s 0))).
Proof.
  induction n as [|n IH]; intros s bef Hn Hs.
  - destruct s; [intros []|simpl in Hn; lia].
  - destruct s as [|c t]; [intros []|]. simpl in Hn.
    rewrite has_command_cons in Hs. apply orb_false_iff in Hs. destruct Hs as [Hc Ht].
    destruct (exec re_symbol bef (c :: t)) as [st|] eqn:He.
    + rewrite exec_symbol in He. destruct t as [|x t]; [discriminate|].
      destruct (ceq c bsl && negb (is_letter x)) eqn:Hcx; [|discriminate].
      injection He as <-.
      change (c :: x :: t) with ([c; x] ++ t).
      erewrite segments_hit; [| change ([c; x] ++ t) with (c :: x :: t);
                                rewrite exec_symbol, Hcx; reflexivity
                              | reflexivity | discriminate].
      simpl flat_map. apply IH; [simpl in Hn; lia|].
      rewrite has_command_cons in Ht. now apply orb_false_iff in Ht.
    + rewrite segments_miss by exact He. simpl flat_map.
      specialize (IH t (c :: bef) ltac:(lia) Ht).
      destruct (flat_map erase (segments re_symbol (c :: bef) t 0)) as [|y out] eqn:Eo;
        [intros []|].
      change (removelast ([c] ++ y :: out)) with (c :: removelast (y :: out)).
      intros [E|Hin]; [|now apply IH].
      subst c. rewrite exec_symbol in He.
      destruct t as [|x t]; [discriminate|].
      simpl in Hc. rewrite Hc in He. discriminate.
Qed.

(** X7.  Whatever the input, no backslash survives the three blanket
    passes of [fallback], except one that is the last character of
    the text. *)
Theorem fallback_keeps_only_a_final_backslash :
  forall h, ~ In bsl (removelast (fallback h)).
Proof.
  intros h. unfold fallback.
  rewrite (replace_empty re_symbol). eapply symbol_pass_backslash; [reflexivity|].
  rewrite (replace_empty re_command). now eapply command_pass_clean.
Qed.

Lemma fallback_keeps_a_final_backslash :
  fallback (str "a\\\") = str "a\".
Proof. reflexivity. Qed.

(** * More about paragraphs *)

(** The characters that a scan passes over unmatched are characters of
    the text. *)
Lemma segments_lits re : forall s bef k c,
  In (Lit c) (segments re bef s k) -> In c s.
Proof.
  induction s as [|x t IH]; intros bef k c H.
  - destruct k; simpl in H; [|contradiction].
    destruct (exec re bef []); simpl in H; [|contradiction].
    destruct H as [H|H]; [discriminate|contradiction].
  - destruct k as [|k].
    + rewrite segments_cons in H. destruct (exec re bef (x :: t)) as [st|].
      * destruct H as [H|H]; [discriminate|].
        destruct (length (x :: t) - length (after st) =? 0).
        -- destruct H as [H|H]; [injection H as ->; now left|right; now apply IH in H].
        -- right. now apply IH in H.
      * destruct H as [H|H]; [injection H as ->; now left|right; now apply IH in H].
    + right. now apply IH in H.
Qed.

Lemma split_segs_pieces (P : char -> Prop) : forall sgs cur,
  (forall c, In (Lit c) sgs -> P c) -> Forall P cur ->
  Forall (Forall P) (split_segs sgs cur).
Proof.
  induction sgs as [|[c|m] sgs IH]; intros cur Hs Hc; simpl.
  - constructor; [|constructor]. now apply Forall_rev.
  - apply IH; [intros x Hx; apply Hs; now right|].
    constructor; [apply Hs; now left|exact Hc].
  - constructor; [now apply Forall_rev|].
    apply IH; [intros x Hx; apply Hs; now right|constructor].
Qed.

Lemma split_pieces (P : char -> Prop) re s :
  Forall P s -> Forall (Forall P) (split re s).
Proof.
  intros H. unfold split. apply split_segs_pieces; [|constructor].
  intros c Hc. apply segments_lits in Hc. rewrite Forall_forall in H. now apply H.
Qed.

Lemma trim_start_blank s : Forall (fun c => is_space c = true) s -> trim_start s = [].
Proof.
  induction 1 as [|x s Hx _ IH]; [reflexivity|]. simpl. now rewrite Hx.
Qed.

Lemma wrapParagraph_blank para :
  Forall (fun c => is_space c = true) para -> wrapParagraph para = [].
Proof.
  intros H. unfold wrapParagraph, trim. now rewrite (trim_start_blank para H).
Qed.

Lemma paragraphs_blank t :
  Forall (fun c => is_space c = true) t -> paragraphs t = [].
Proof.
  intros H. unfold paragraphs.
  pose proof (split_pieces _ re_blank t H) as Hp.
  induction Hp as [|p l Hp _ IH]; [reflexivity|].
  simpl. now rewrite (wrapParagraph_blank p Hp).
Qed.

Lemma space_plain t : forallb is_space t = true -> ~ In bsl t /\ ~ In dollar t /\ plain t = true.
Proof.
  intros H. rewrite forallb_forall in H.
  assert (Hc : forall c, is_space c = false -> ~ In c t)
    by (intros c Hc Hin; apply H in Hin; congruence).
  assert (Hb : ~ In bsl t) by now apply Hc.
  assert (Hd : ~ In dollar t) by now apply Hc.
  repeat split; [exact Hb|exact Hd|].
  unfold plain. rewrite !andb_true_iff, !negb_true_iff.
  repeat split; try (now apply includes_single);
    (apply includes_absent, Hc; reflexivity).
Qed.

(** X2.  For a text of white space only, the empty text included,
    [convertLaTeXToHTML] returns the empty string. *)
Theorem blank_input_gives_nothing :
  forall t, forallb is_space t = true -> convertLaTeXToHTML t = Some [].
Proof.
  intros t H. destruct (space_plain t H) as [Hb [Hd Hp]].
  destruct (early_passes_plain t Hb Hd)
    as [H0 [H1 [H2 [H3 [H4 [H5 [H6 [H7 [H8 [H9 [H10 H11]]]]]]]]]]].
  unfold convertLaTeXToHTML. rewrite H0. cbv beta iota.
  rewrite H1, H2. cbv beta iota. rewrite H3, H4, H2. cbv beta iota.
  rewrite H5, H6, H3, H4, H7, H8, H9, H10, H5, (escapes_plain t Hp), H11.
  rewrite paragraphs_blank; [reflexivity|].
  apply Forall_forall. now apply forallb_forall.
Qed.

Lemma blank_input_gives_nothing_witness :
  convertLaTeXToHTML (str " " ++ [nl; nl; 9%N; nl]) = Some [].
Proof. apply (blank_input_gives_nothing (str " " ++ [nl; nl; 9%N; nl])). reflexivity. Defined.






(** * Paragraphs on either side of a blank line *)

Lemma exec_blank bef s :
  exec re_blank bef s =
  match s with
  | x :: y :: r =>
      if ceq x nl && ceq y nl
      then Some (MState (rev (run is_nl r) ++ y :: x :: bef) (drop is_nl r) [])
      else None
  | _ => None
  end.
Proof.
  unfold exec, re_blank, plus.
  destruct s as [|x [|y r]]; cbn [rmatch after before caps].
  - reflexivity.
  - now destruct (ceq x nl).
  - destruct (ceq x nl); [|reflexivity]. destruct (ceq y nl); [|reflexivity].
    simpl andb. cbv iota. exact (star_class_Some is_nl r (y :: x :: bef) []).
Qed.

(** The pieces do not depend on the text before the scanned part. *)
Lemma split_blank_bef : forall n s,
  length s <= n ->
  forall bef bef' cur,
    split_segs (segments re_blank bef s 0) cur
    = split_segs (segments re_blank bef' s 0) cur.
Proof.
  induction n as [|n IH]; intros s Hn bef bef' cur.
  - destruct s; [reflexivity|simpl in Hn; lia].
  - destruct s as [|x t]; [reflexivity|]. simpl in Hn.
    destruct (exec re_blank bef (x :: t)) as [st|] eqn:He.
    + rewrite exec_blank in He. destruct t as [|y r]; [discriminate|].
      destruct (ceq x nl && ceq y nl) eqn:Hxy; [|discriminate]. injection He as <-.
      pose proof (run_drop is_nl r) as Hrd.
      assert (E : x :: y :: r = (x :: y :: run is_nl r) ++ drop is_nl r)
        by (simpl; now rewrite Hrd).
      rewrite E.
      erewrite (segments_hit re_blank bef);
        [| rewrite <- E, exec_blank, Hxy; reflexivity | reflexivity | discriminate].
      erewrite (segments_hit re_blank bef');
        [| rewrite <- E, exec_blank, Hxy; reflexivity | reflexivity | discriminate].
      cbn [split_segs]. f_equal. apply IH.
      pose proof (length_drop is_nl r). simpl in *. lia.
    + assert (He' : exec re_blank bef' (x :: t) = None).
      { rewrite exec_blank in *. destruct t as [|y r]; [reflexivity|].
        now destruct (ceq x nl && ceq y nl). }
      rewrite !segments_miss by assumption. cbn [split_segs]. apply IH. lia.
Qed.

Lemma wrapAll_cons p l : wrapAll (p :: l) = wrapParagraph p ++ wrapAll l.
Proof.
  unfold wrapAll. cbn [map filter]. now destruct (wrapParagraph p).
Qed.

Lemma pieces_nil cur : wrapAll (pieces [] cur) = wrapParagraph (rev cur).
Proof.
  unfold pieces. change (segments re_blank [] [] 0) with (@nil seg).
  cbn [split_segs]. rewrite wrapAll_cons. apply app_nil_r.
Qed.

Lemma pieces_step c t cur :
  exec re_blank [] (c :: t) = None ->
  pieces (c :: t) cur = pieces t (c :: cur).
Proof.
  intros He. unfold pieces. rewrite segments_miss by exact He. cbn [split_segs].
  apply (split_blank_bef (length t) t (le_n _)).
Qed.

Lemma pieces_hit r cur :
  pieces (nl :: nl :: r) cur = rev cur :: pieces (drop is_nl r) [].
Proof.
  unfold pieces.
  pose proof (run_drop is_nl r) as Hrd.
  assert (E : nl :: nl :: r = (nl :: nl :: run is_nl r) ++ drop is_nl r)
    by (simpl; now rewrite Hrd).
  rewrite E at 1.
  erewrite (segments_hit re_blank []);
    [| rewrite <- E, exec_blank; reflexivity | reflexivity | discriminate].
  cbn [split_segs]. f_equal.
  apply (split_blank_bef (length (drop is_nl r)) _ (le_n _)).
Qed.

Lemma wrapParagraph_trim p q : trim p = trim q -> wrapParagraph p = wrapParagraph q.
Proof. intros E. unfold wrapParagraph. now rewrite E. Qed.

Lemma trim_start_snoc s c :
  is_space c = true ->
  trim_start (s ++ [c]) = match trim_start s with [] => [] | _ => trim_start s ++ [c] end.
Proof.
  intros Hc. induction s as [|x s IH]; simpl.
  - now rewrite Hc.
  - destruct (is_space x); [exact IH|reflexivity].
Qed.

Lemma trim_snoc s c : is_space c = true -> trim (s ++ [c]) = trim s.
Proof.
  intros Hc. unfold trim. rewrite trim_start_snoc by exact Hc.
  destruct (trim_start s) as [|y t]; [reflexivity|].
  rewrite rev_app_distr. simpl rev at 1. cbn [app trim_start]. now rewrite Hc.
Qed.

Lemma trim_cons s c : is_space c = true -> trim (c :: s) = trim s.
Proof. intros Hc. unfold trim. simpl. now rewrite Hc. Qed.

(** What is already read of a piece matters only up to trimming. *)
Lemma pieces_cur : forall n s,
  length s <= n ->
  forall cur cur',
    (forall x, trim (rev cur ++ x) = trim (rev cur' ++ x)) ->
    wrapAll (pieces s cur) = wrapAll (pieces s cur').
Proof.
  induction n as [|n IH]; intros s Hn cur cur' H.
  - destruct s; [|simpl in Hn; lia]. rewrite !pieces_nil.
    apply wrapParagraph_trim. specialize (H []). now rewrite !app_nil_r in H.
  - destruct s as [|c t].
    + rewrite !pieces_nil.
      apply wrapParagraph_trim. specialize (H []). now rewrite !app_nil_r in H.
    + simpl in Hn. destruct (exec re_blank [] (c :: t)) as [st|] eqn:He.
      * rewrite exec_blank in He. destruct t as [|y r]; [discriminate|].
        destruct (ceq_spec c nl) as [->|]; [|discriminate].
        destruct (ceq_spec y nl) as [->|]; [|discriminate].
        rewrite !pieces_hit, !wrapAll_cons. f_equal.
        apply wrapParagraph_trim. specialize (H []). now rewrite !app_nil_r in H.
      * rewrite !pieces_step by exact He. apply IH; [lia|].
        intros x. simpl rev. rewrite <- !app_assoc. apply H.
Qed.

(** Line feeds at the beginning do not matter. *)
Lemma pieces_leading b : wrapAll (pieces (drop is_nl b) []) = wrapAll (pieces b []).
Proof.
  destruct b as [|x b]; [reflexivity|].
  cbn [drop]. unfold is_nl at 1. destruct (ceq_spec x nl) as [->|Hx]; [|reflexivity].
  destruct b as [|y r].
  - reflexivity.
  - cbn [drop]. unfold is_nl at 1. destruct (ceq_spec y nl) as [->|Hy].
    + now rewrite pieces_hit, wrapAll_cons.
    + rewrite (pieces_step nl (y :: r)).
      * apply (pieces_cur (length (y :: r)) _ (le_n _)).
        intros x. symmetry. apply trim_cons. reflexivity.
      * rewrite exec_blank. destruct (ceq_spec y nl); [contradiction|reflexivity].
Qed.

Lemma drop_app_cons p s x R :
  drop p s = x :: R -> forall T, drop p (s ++ T) = (x :: R) ++ T.
Proof.
  induction s as [|y s IH]; intros H T; [discriminate|].
  simpl in *. destruct (p y); [now apply IH|]. now injection H as -> ->.
Qed.

Lemma drop_app_nil p s : drop p s = [] -> forall T, drop p (s ++ T) = drop p T.
Proof.
  induction s as [|y s IH]; intros H T; [reflexivity|].
  simpl in *. destruct (p y); [now apply IH|discriminate].
Qed.

Lemma paragraphs_pieces s : paragraphs s = wrapAll (pieces s []).
Proof. reflexivity. Qed.

Lemma pieces_blank_line b : forall n a,
  length a <= n ->
  forall cur,
    wrapAll (pieces (a ++ nl :: nl :: b) cur)
    = wrapAll (pieces a cur) ++ wrapAll (pieces b []).
Proof.
  induction n as [|n IH]; intros a Hn cur.
  - destruct a; [|simpl in Hn; lia]. cbn [app].
    now rewrite pieces_hit, wrapAll_cons, pieces_nil, pieces_leading.
  - destruct a as [|c t].
    + cbn [app]. now rewrite pieces_hit, wrapAll_cons, pieces_nil, pieces_leading.
    + simpl in Hn. cbn [app].
      destruct (ceq_spec c nl) as [->|Hc].
      * destruct t as [|y r].
        -- cbn [app]. rewrite pieces_hit, wrapAll_cons.
           rewrite (pieces_step nl []) by reflexivity. rewrite pieces_nil.
           f_equal.
           ++ apply wrapParagraph_trim. simpl rev. symmetry. now apply trim_snoc.
           ++ cbn [drop]. unfold is_nl at 1. rewrite ceq_refl. apply pieces_leading.
        -- cbn [app]. destruct (ceq_spec y nl) as [->|Hy].
           ++ rewrite !pieces_hit, !wrapAll_cons, <- app_assoc. f_equal.
              destruct (drop is_nl r) as [|x R] eqn:Ed.
              ** rewrite (drop_app_nil _ _ Ed). cbn [drop]. unfold is_nl at 1 2.
                 rewrite !ceq_refl. now rewrite pieces_leading.
              ** rewrite (drop_app_cons _ _ _ _ Ed).
                 apply IH. pose proof (length_drop is_nl r) as Hl.
                 rewrite Ed in Hl. simpl in *. lia.
           ++ rewrite (pieces_step nl (y :: r ++ nl :: nl :: b)).
              ** rewrite (pieces_step nl (y :: r)).
                 --- apply (IH (y :: r)). simpl in *. lia.
                 --- rewrite exec_blank.
                     destruct (ceq_spec y nl); [contradiction|reflexivity].
              ** rewrite exec_blank.
                 destruct (ceq_spec y nl); [contradiction|reflexivity].
      * assert (He : forall T, exec re_blank [] (c :: T) = None).
        { intros T. rewrite exec_blank. destruct T; [reflexivity|].
          destruct (ceq_spec c nl); [contradiction|reflexivity]. }
        rewrite !pieces_step by apply He. apply IH. lia.
Qed.

(** X9.  A blank line separates: the paragraphs of a text with a blank
    line in it are the paragraphs of what is before the blank line
    followed by the paragraphs of what is after it. *)
Theorem paragraphs_either_side_of_a_blank_line :
  forall a b, paragraphs (a ++ nl :: nl :: b) = paragraphs a ++ paragraphs b.
Proof.
  intros a b. rewrite !paragraphs_pieces.
  apply (pieces_blank_line b (length a) a (le_n _)).
Qed.

